(** * Color Merger: a shallow embedding of [src/code.ts]

    The plugin scans the nodes of a page for solid fill and stroke paints,
    groups near-identical colours, and rewrites the selected groups to one
    target colour.  This file embeds the helpers, the scanner, the cluster
    builder, the merge applier and the message handler, and states the
    properties of the specification against them. *)

From Stdlib Require Import ZArith QArith Qpower Qround Qabs Qreduction Lqa.
From Stdlib Require Import Ascii String Sorted.
From stdpp Require Import base option list strings gmap.

Local Open Scope Z_scope.

(** ** JavaScript numbers

    A finite JavaScript number is an IEEE-754 binary64 value, hence a
    rational.  Numbers are modelled as [Q]; every arithmetic operation is
    the exact rational operation followed by [fl], rounding to the nearest
    binary64 value (ties to even) with gradual underflow.  The exponent is
    not bounded above: overflow to [Infinity] is outside the model, and the
    one place where the source can meet it ([parseInt] of a very long
    string) tests for it explicitly. *)

Module F64.

Definition prec : Z := 53.
Definition emin : Z := -1074.

(** [pow2 e] is [2^e] for any integer [e]. *)
Definition pow2 (e : Z) : Q := (2 ^ e)%Q.

(** [ilog2 x], for [0 < x], is the integer [E] with [2^E <= x < 2^(E+1)]. *)
Definition ilog2 (x : Q) : Z :=
  let d := Z.log2 (Qnum x) - Z.log2 (Zpos (Qden x)) in
  if Qle_bool (pow2 d) x then d else d - 1.

(** Exponent of the unit in the last place of a positive [x]. *)
Definition ulp_exp (x : Q) : Z := Z.max (ilog2 x - (prec - 1)) emin.

(** Nearest integer, ties to even. *)
Definition rne (q : Q) : Z :=
  let f := Qfloor q in
  match ((q - inject_Z f) ?= (1 # 2))%Q with
  | Lt => f
  | Gt => f + 1
  | Eq => if Z.even f then f else f + 1
  end.

Definition fl_pos (x : Q) : Q :=
  let e := ulp_exp x in
  Qred (inject_Z (rne (x * pow2 (- e))) * pow2 e).

(** Rounding of an exact result to binary64. *)
Definition fl (x : Q) : Q :=
  match Qnum x with
  | Z0 => 0%Q
  | Zpos _ => fl_pos x
  | Zneg _ => Qred (- fl_pos (- x))
  end.

Definition fadd (a b : Q) : Q := fl (a + b).
Definition fsub (a b : Q) : Q := fl (a - b).
Definition fmul (a b : Q) : Q := fl (a * b).
Definition fdiv (a b : Q) : Q := fl (a / b).

(** [Math.sqrt] on a non-negative argument: the correctly rounded square
    root.  With [es] the exponent of the result's last place and
    [q = x / 4^es], the significand is the integer nearest to [sqrt q];
    [n = floor (sqrt q)] and [sqrt q] is compared with [n + 1/2] through
    the squares.  [Math.sqrt] of a negative number is [NaN]; the only
    caller passes a sum of rounded squares, which is never negative, and
    the model returns [0] there. *)
Definition fsqrt (x : Q) : Q :=
  match Qnum x with
  | Zpos _ =>
      let es := ilog2 x / 2 - (prec - 1) in
      let q := (x * pow2 (- (2 * es)))%Q in
      let n := Z.sqrt (Qfloor q) in
      let h := (inject_Z (n * n + n) + (1 # 4))%Q in
      let m := match (q ?= h)%Q with
               | Lt => n
               | Gt => n + 1
               | Eq => if Z.even n then n else n + 1
               end in
      Qred (inject_Z m * pow2 es)
  | _ => 0%Q
  end.

(** A number is a binary64 value when rounding leaves it as it is; the
    equality is syntactic, so such a number is also in lowest terms. *)
Definition is_double (x : Q) : Prop := fl x = x.

End F64.

(** ** Strings

    A string is a sequence of code units; [ascii] holds the units below 256.
    Only [replace] with a one-character pattern, [padStart], [toUpperCase]
    and the radix-16 forms of [toString] and [parseInt] are used by the
    source. *)

Module JsString.

(** [s.replace(c, "")] with a one-character string pattern: the first
    occurrence only. *)
Fixpoint remove_first (c : ascii) (s : string) : string :=
  match s with
  | EmptyString => EmptyString
  | String x s' => if Ascii.eqb x c then s' else String x (remove_first c s')
  end.

Fixpoint repeat_char (c : ascii) (n : nat) : string :=
  match n with O => EmptyString | S k => String c (repeat_char c k) end.

(** [s.padStart(n, c)] with a one-character filler. *)
Definition padStart (n : nat) (c : ascii) (s : string) : string :=
  (repeat_char c (n - String.length s) ++ s)%string.

Definition upper_char (c : ascii) : ascii :=
  let n := nat_of_ascii c in
  if ((97 <=? n) && (n <=? 122))%nat then ascii_of_nat (n - 32) else c.

(** [s.toUpperCase()], on the ASCII letters. *)
Fixpoint toUpperCase (s : string) : string :=
  match s with
  | EmptyString => EmptyString
  | String c s' => String (upper_char c) (toUpperCase s')
  end.

Definition hex_digit (d : Z) : ascii :=
  if d <? 10 then ascii_of_nat (Z.to_nat (48 + d))
  else ascii_of_nat (Z.to_nat (87 + d)).

Fixpoint hex_digits (fuel : nat) (n : Z) (acc : string) : string :=
  match fuel with
  | O => acc
  | S k =>
      let acc' := String (hex_digit (n mod 16)) acc in
      if n / 16 =? 0 then acc' else hex_digits k (n / 16) acc'
  end.

(** [z.toString(16)] for an integer [z]: lower-case digits, a leading
    minus sign for a negative number. *)
Definition toString16 (z : Z) : string :=
  let fuel := S (Z.to_nat (Z.log2 (Z.abs z))) in
  if z <? 0 then String "-" (hex_digits fuel (- z) EmptyString)
  else hex_digits fuel z EmptyString.

(** White space skipped by [parseInt], among the code units below 256:
    TAB, LF, VT, FF, CR, SP and NBSP. *)
Definition is_space (c : ascii) : bool :=
  let n := nat_of_ascii c in
  ((9 <=? n) && (n <=? 13) || (n =? 32) || (n =? 160))%nat.

Fixpoint trim_start (s : string) : string :=
  match s with
  | String c s' => if is_space c then trim_start s' else s
  | EmptyString => EmptyString
  end.

(** Value of a radix-16 digit, in either case. *)
Definition digit16 (c : ascii) : option Z :=
  let n := Z.of_nat (nat_of_ascii c) in
  if (48 <=? n) && (n <=? 57) then Some (n - 48)
  else if (65 <=? n) && (n <=? 70) then Some (n - 55)
  else if (97 <=? n) && (n <=? 102) then Some (n - 87)
  else None.

(** The longest prefix of radix-16 digits, accumulated from the left;
    [seen] tells whether at least one digit was read. *)
Fixpoint parse_digits (s : string) (seen : bool) (acc : Z) : option Z :=
  match s with
  | EmptyString => if seen then Some acc else None
  | String c s' =>
      match digit16 c with
      | Some d => parse_digits s' true (acc * 16 + d)
      | None => if seen then Some acc else None
      end
  end.

(** A leading sign is removed and remembered. *)
Definition strip_sign (s : string) : Z * string :=
  match s with
  | String c s' =>
      if Ascii.eqb c "-" then (-1, s')
      else if Ascii.eqb c "+" then (1, s')
      else (1, s)
  | EmptyString => (1, s)
  end.

(** With radix 16 a leading [0x] or [0X] is removed. *)
Definition strip_0x (s : string) : string :=
  match s with
  | String c1 (String c2 s') =>
      if Ascii.eqb c1 "0" && (Ascii.eqb c2 "x" || Ascii.eqb c2 "X")
      then s' else s
  | _ => s
  end.

(** The mathematical integer read by [parseInt(s, 16)]; [None] when the
    result is [NaN]. *)
Definition parseInt16_math (s : string) : option Z :=
  let '(sign, s1) := strip_sign (trim_start s) in
  match parse_digits (strip_0x s1) false 0 with
  | Some m => Some (sign * m)
  | None => None
  end.

End JsString.

(** The value of [parseInt]: [NaN], an infinity, or a finite number. *)
Inductive number : Type :=
| NaN
| Infinity (negative : bool)
| Finite (q : Q).

(** Conversion of a mathematical integer to a number.  Integers below
    [2^53] in magnitude are binary64 values; larger ones are rounded, and
    a rounded magnitude of [2^1024] or more is an infinity. *)
Definition number_of_Z (z : Z) : number :=
  if Z.abs z <? 2 ^ 53 then Finite (inject_Z z)
  else
    let q := F64.fl (inject_Z z) in
    if Qle_bool (inject_Z (2 ^ 1024)) (Qabs q) then Infinity (z <? 0)
    else Finite q.

Definition parseInt16 (s : string) : number :=
  match JsString.parseInt16_math s with
  | Some z => number_of_Z z
  | None => NaN
  end.

(** [ToInt32], applied by [>>] and [&] to their left operand. *)
Definition ToInt32 (n : number) : Z :=
  match n with
  | Finite q =>
      let i := Z.quot (Qnum q) (Zpos (Qden q)) in
      let m := i mod 2 ^ 32 in
      if 2 ^ 31 <=? m then m - 2 ^ 32 else m
  | _ => 0
  end.

(** ** Colours and the codec *)

(** A colour object: [{r, g, b}] with an optional alpha [a]. *)
Record Color : Type := mkColor { r : Q; g : Q; b : Q; a : option Q }.

Definition Math_round (x : Q) : Z := Qfloor (x + (1 # 2)).

Definition hex2 (v : Q) : string :=
  JsString.padStart 2 "0" (JsString.toString16 (Math_round (F64.fmul v 255))).

Definition toHex (r g b : Q) : string :=
  JsString.toUpperCase (hex2 r ++ hex2 g ++ hex2 b)%string.

Definition byte_at (n : Z) (shift : Z) : Z := Z.land (Z.shiftr n shift) 255.

Definition hexToRgb (hex : string) : Color :=
  let n := ToInt32 (parseInt16 (JsString.remove_first "#" hex)) in
  {| r := F64.fdiv (inject_Z (byte_at n 16)) 255;
     g := F64.fdiv (inject_Z (byte_at n 8)) 255;
     b := F64.fdiv (inject_Z (Z.land n 255)) 255;
     a := None |}.

(** [colorDistance(a, b)]; the arguments are named [ca] and [cb] here, to
    keep the field names [a] and [b] readable. *)
Definition colorDistance (ca cb : Color) : Q :=
  let dr := F64.fmul (F64.fsub (r ca) (r cb)) 255 in
  let dg := F64.fmul (F64.fsub (g ca) (g cb)) 255 in
  let db := F64.fmul (F64.fsub (b ca) (b cb)) 255 in
  F64.fsqrt (F64.fadd (F64.fadd (F64.fmul dr dr) (F64.fmul dg dg)) (F64.fmul db db)).

(** ** The document store *)

Inductive PaintType : Type :=
| GRADIENT_LINEAR | GRADIENT_RADIAL | GRADIENT_ANGULAR | GRADIENT_DIAMOND
| IMAGE | VIDEO.

(** The properties every paint carries next to its type; an absent
    property is [None]. *)
Record PaintProps : Type :=
  { visible : option bool; opacity : option Q; blendMode : option string }.

(** A paint is a union tagged by [type]: a ["SOLID"] paint has a [color],
    the other kinds have none. *)
Inductive Paint : Type :=
| SolidPaint (color : Color) (props : PaintProps)
| OtherPaint (type : PaintType) (props : PaintProps).

(** The value of [node.fills] or [node.strokes]: the property is not in
    the node, it is [figma.mixed], or it is a list of paints. *)
Inductive Slot : Type :=
| Absent
| Mixed
| Paints (paints : list Paint).

(** A node.  [writable] is false for a node on which the host refuses the
    assignment of a paint list (a locked node, an instance that forbids
    the write): the setter throws. *)
Record Node : Type :=
  { id : string; fills : Slot; strokes : Slot; writable : bool }.

Inductive Source : Type := fill | stroke.

Record PaintRef : Type :=
  { nodeId : string; source : Source; index : nat }.

Record ColorEntry : Type :=
  { color : Color; hex : string; nodes : list PaintRef }.

Record Group : Type :=
  { representative : ColorEntry; members : list ColorEntry }.

(** ** Objects used as maps

    [colorMap] is a plain object.  Its own string keys are kept in
    insertion order; [Object.values] lists the values of the keys that are
    array indices first, in ascending numeric order, then the others in
    insertion order. *)

Module JsObject.

Definition t (V : Type) : Type := list (string * V).

Definition empty {V} : t V := [].

Fixpoint get {V} (o : t V) (k : string) : option V :=
  match o with
  | [] => None
  | (k', v) :: o' => if String.eqb k' k then Some v else get o' k
  end.

(** [o[k] = v]: in place for an existing key, appended for a new one. *)
Fixpoint set {V} (o : t V) (k : string) (v : V) : t V :=
  match o with
  | [] => [(k, v)]
  | (k', v') :: o' =>
      if String.eqb k' k then (k', v) :: o' else (k', v') :: set o' k v
  end.

(** In-place update of the object stored under [k]. *)
Fixpoint update {V} (o : t V) (k : string) (f : V -> V) : t V :=
  match o with
  | [] => []
  | (k', v') :: o' =>
      if String.eqb k' k then (k', f v') :: o' else (k', v') :: update o' k f
  end.

Fixpoint all_decimal (s : string) : bool :=
  match s with
  | EmptyString => true
  | String c s' =>
      let n := nat_of_ascii c in
      ((48 <=? n) && (n <=? 57))%nat && all_decimal s'
  end.

Fixpoint decimal_value (s : string) (acc : Z) : Z :=
  match s with
  | EmptyString => acc
  | String c s' => decimal_value s' (acc * 10 + Z.of_nat (nat_of_ascii c) - 48)
  end.

(** The array index a key denotes, if any: a canonical decimal numeral
    (no leading zero) of value at most [2^32 - 2]. *)
Definition array_index (k : string) : option Z :=
  match k with
  | EmptyString => None
  | String c rest =>
      if all_decimal k
         && (negb (Ascii.eqb c "0") || String.eqb rest EmptyString)
         && (decimal_value k 0 <=? 2 ^ 32 - 2)
      then Some (decimal_value k 0) else None
  end.

Fixpoint insert_index {V} (x : Z * V) (l : list (Z * V)) : list (Z * V) :=
  match l with
  | [] => [x]
  | y :: l' => if fst x <=? fst y then x :: l else y :: insert_index x l'
  end.

Definition index_part {V} (o : t V) : list (Z * V) :=
  omap (fun kv => match array_index (fst kv) with
                  | Some i => Some (i, snd kv)
                  | None => None
                  end) o.

Definition string_part {V} (o : t V) : list V :=
  omap (fun kv => match array_index (fst kv) with
                  | Some _ => None
                  | None => Some (snd kv)
                  end) o.

Definition values {V} (o : t V) : list V :=
  map snd (foldr insert_index [] (index_part o)) ++ string_part o.

End JsObject.

(** ** Scan *)

Definition is_solid_visible (p : Paint) : bool :=
  match p with
  | SolidPaint _ props =>
      match visible props with Some false => false | _ => true end
  | OtherPaint _ _ => false
  end.

(** [paints.filter(...).map(...)]: the colours of the solid, visible
    paints, in list order.  The filter and the map are fused because the
    mapped function reads [p.color], which only a solid paint has. *)
Definition extractPaints (paints : Slot) : list Color :=
  match paints with
  | Paints l =>
      omap (fun p =>
              match p with
              | SolidPaint c props =>
                  if is_solid_visible p
                  then Some {| r := r c; g := g c; b := b c;
                               a := Some (default 1%Q (opacity props)) |}
                  else None
              | OtherPaint _ _ => None
              end) l
  | _ => []
  end.

(** [arr.forEach((x, i) => ...)] threading the state the callback mutates. *)
Fixpoint forEach_from {A St} (f : St -> A -> nat -> St) (i : nat) (l : list A) (s : St) : St :=
  match l with
  | [] => s
  | x :: l' => forEach_from f (S i) l' (f s x i)
  end.

Definition forEach {A St} (f : St -> A -> nat -> St) (l : list A) (s : St) : St :=
  forEach_from f 0 l s.

Definition push_ref (ref : PaintRef) (e : ColorEntry) : ColorEntry :=
  {| color := color e; hex := hex e; nodes := nodes e ++ [ref] |}.

(** The body of both [forEach] callbacks of [scanColors]. *)
Definition record_paint (nid : string) (src : Source)
    (colorMap : JsObject.t ColorEntry) (c : Color) (i : nat) : JsObject.t ColorEntry :=
  let hex := toHex (r c) (g c) (b c) in
  let colorMap :=
    match JsObject.get colorMap hex with
    | None => JsObject.set colorMap hex {| color := c; hex := hex; nodes := [] |}
    | Some _ => colorMap
    end in
  JsObject.update colorMap hex
    (push_ref {| nodeId := nid; source := src; index := i |}).

Definition scan_slot (nid : string) (src : Source) (s : Slot)
    (colorMap : JsObject.t ColorEntry) : JsObject.t ColorEntry :=
  match s with
  | Absent => colorMap
  | _ => forEach (record_paint nid src) (extractPaints s) colorMap
  end.

Definition scan_node (colorMap : JsObject.t ColorEntry) (node : Node) : JsObject.t ColorEntry :=
  scan_slot (id node) stroke (strokes node)
    (scan_slot (id node) fill (fills node) colorMap).

(** [scanColors], as a function of the nodes [getAllNodes()] returns. *)
Definition scanColors (nodes : list Node) : JsObject.t ColorEntry :=
  foldl scan_node JsObject.empty nodes.

(** ** Grouping *)

Definition totalCount (gr : Group) : nat :=
  foldl (fun s m => s + length (nodes m))%nat 0%nat (members gr).

(** The inner loop over [j]: [rest] holds [entries[i+1..]]. *)
Fixpoint collect_members (rep : ColorEntry) (threshold : Q) (rest : list ColorEntry)
    (assigned : gset string) (acc : list ColorEntry) : list ColorEntry * gset string :=
  match rest with
  | [] => (acc, assigned)
  | e :: rest' =>
      if bool_decide (hex e ∈ assigned) then
        collect_members rep threshold rest' assigned acc
      else if Qle_bool (colorDistance (color rep) (color e)) threshold then
        collect_members rep threshold rest' ({[hex e]} ∪ assigned) (acc ++ [e])
      else collect_members rep threshold rest' assigned acc
  end.

(** The outer loop over [i]: [entries] holds [entries[i..]]. *)
Fixpoint build_groups (threshold : Q) (entries : list ColorEntry)
    (assigned : gset string) (groups : list Group) : list Group :=
  match entries with
  | [] => groups
  | e :: rest =>
      if bool_decide (hex e ∈ assigned) then
        build_groups threshold rest assigned groups
      else
        let '(ms, assigned') :=
          collect_members e threshold rest ({[hex e]} ∪ assigned) [e] in
        build_groups threshold rest assigned'
          (groups ++ [{| representative := e; members := ms |}])
  end.

(** The comparator handed to [sort]: [countB - countA]. *)
Definition by_usage_desc (x y : Group) : Z :=
  Z.of_nat (totalCount y) - Z.of_nat (totalCount x).

(** [Array.prototype.sort] is stable; with a consistent comparator the
    result is the stable sorted permutation, computed here by insertion. *)
Fixpoint sort_insert {A} (cmp : A -> A -> Z) (x : A) (l : list A) : list A :=
  match l with
  | [] => [x]
  | y :: l' => if cmp x y <=? 0 then x :: l else y :: sort_insert cmp x l'
  end.

Definition sort {A} (cmp : A -> A -> Z) (l : list A) : list A :=
  foldr (sort_insert cmp) [] l.

(** The groups in the order the loops push them, before the sort. *)
Definition discovered_groups (colorMap : JsObject.t ColorEntry) (threshold : Q) : list Group :=
  build_groups threshold (JsObject.values colorMap) ∅ [].

Definition groupSimilarColors (colorMap : JsObject.t ColorEntry) (threshold : Q) : list Group :=
  sort by_usage_desc (discovered_groups colorMap threshold).

(** ** The host and its effects *)

Record PaintStyle : Type :=
  { style_name : string; style_paints : list Paint }.

(** One group of a [scan-result] payload. *)
Record GroupPayload : Type :=
  { payload_representative : string;
    payload_members : list (string * nat);
    payload_totalCount : nat }.

(** A message posted to the UI. *)
Inductive Response : Type :=
| scan_result (groups : list GroupPayload) (threshold : Q)
| merge_done (changed : nat) (styleCreated : bool) (styleName : option string)
| error (message : string).

(** A message received from the UI; [msg.type] selects the constructor. *)
Inductive Message : Type :=
| scan (threshold : option Q)
| merge (threshold : option Q) (groupIndices : list Z) (targetHex : string)
        (styleName : option string)
| close
| other (type : string).

(** What the plugin can see and change: the nodes of the current page in
    [findAll] order (the document, for [getNodeByIdAsync]), the local paint
    styles, the messages posted so far and whether the plugin was closed. *)
Record Figma : Type :=
  { page : list Node;
    styles : list PaintStyle;
    posted : list Response;
    closed : bool }.

(** A thrown value: an [Error] with its [message]. *)
Record Exn : Type := Error { exn_message : string }.

(** Computations that read and write the host and may throw. *)
Definition M (A : Type) : Type := Figma -> (Exn + A) * Figma.

Definition ret {A} (x : A) : M A := fun σ => (inr x, σ).

Definition bind {A B} (m : M A) (k : A -> M B) : M B :=
  fun σ => match m σ with
           | (inr x, σ') => k x σ'
           | (inl e, σ') => (inl e, σ')
           end.

Definition throw {A} (e : Exn) : M A := fun σ => (inl e, σ).

(** [try { m } catch (e) { h e }]: effects made before the throw stay. *)
Definition try_catch {A} (m : M A) (h : Exn -> M A) : M A :=
  fun σ => match m σ with
           | (inr x, σ') => (inr x, σ')
           | (inl e, σ') => h e σ'
           end.

Declare Scope host_scope.
Delimit Scope host_scope with host.
Notation "x <- m ;; k" := (bind m (fun x => k))
  (at level 100, m at next level, right associativity) : host_scope.
Notation "m ;;; k" := (bind m (fun _ => k))
  (at level 100, right associativity) : host_scope.
Local Open Scope host_scope.

(** [for (const x of l) { ... }] around a body that updates a local. *)
Fixpoint for_of {A St} (body : St -> A -> M St) (l : list A) (s : St) : M St :=
  match l with
  | [] => ret s
  | x :: l' => s' <- body s x ;; for_of body l' s'
  end.

Definition getAllNodes : M (list Node) := fun σ => (inr (page σ), σ).

(** [figma.getNodeByIdAsync(id)]: the position and the node, or [null]. *)
Definition getNodeByIdAsync (nid : string) : M (option (nat * Node)) :=
  fun σ => (inr (list_find (fun n => id n = nid) (page σ)), σ).

Definition set_slot (src : Source) (l : list Paint) (n : Node) : Node :=
  match src with
  | fill => {| id := id n; fills := Paints l; strokes := strokes n; writable := writable n |}
  | stroke => {| id := id n; fills := fills n; strokes := Paints l; writable := writable n |}
  end.

Definition get_slot (src : Source) (n : Node) : Slot :=
  match src with fill => fills n | stroke => strokes n end.

(** [node.fills = l] or [node.strokes = l] on the node at position [ix]. *)
Definition assign_paints (ix : nat) (src : Source) (l : list Paint) : M unit :=
  fun σ =>
    match page σ !! ix with
    | Some n =>
        if writable n then
          (inr tt, {| page := <[ix := set_slot src l n]> (page σ);
                      styles := styles σ; posted := posted σ; closed := closed σ |})
        else (inl (Error "Cannot write to node"), σ)
    | None => (inl (Error "Node does not exist"), σ)
    end.

Definition postMessage (m : Response) : M unit :=
  fun σ => (inr tt, {| page := page σ; styles := styles σ;
                       posted := posted σ ++ [m]; closed := closed σ |}).

Definition closePlugin : M unit :=
  fun σ => (inr tt, {| page := page σ; styles := styles σ;
                       posted := posted σ; closed := true |}).

(** [figma.createPaintStyle()]: a new local style, returned by position.
    The name and paints the host gives it are overwritten by the caller
    before anything reads them; they are empty here. *)
Definition createPaintStyle : M nat :=
  fun σ => (inr (length (styles σ)),
            {| page := page σ;
               styles := styles σ ++ [{| style_name := ""; style_paints := [] |}];
               posted := posted σ; closed := closed σ |}).

Definition update_style (ix : nat) (f : PaintStyle -> PaintStyle) : M unit :=
  fun σ => (inr tt, {| page := page σ;
                       styles := match styles σ !! ix with
                                 | Some st => <[ix := f st]> (styles σ)
                                 | None => styles σ
                                 end;
                       posted := posted σ; closed := closed σ |}).

Definition set_style_name (ix : nat) (name : string) : M unit :=
  update_style ix (fun st => {| style_name := name; style_paints := style_paints st |}).

Definition set_style_paints (ix : nat) (l : list Paint) : M unit :=
  update_style ix (fun st => {| style_name := style_name st; style_paints := l |}).

(** ** Apply merge *)

(** [fills[ref.index].color = targetColor] on the copy of the list. *)
Definition recolor (targetColor : Color) (p : Paint) : Paint :=
  match p with
  | SolidPaint _ props => SolidPaint targetColor props
  | OtherPaint _ _ => p
  end.

(** The [try] block for one reference: both branches of the source are
    the same code at [fills] and at [strokes].  [JSON.parse(JSON.stringify(l))]
    copies the list; paints are plain data, so the copy holds the same
    paints and the assignment writes the whole list back. *)
Definition rewrite_slot (targetColor : Color) (ref : PaintRef)
    (ix : nat) (node : Node) (changed : nat) : M nat :=
  match get_slot (source ref) node with
  | Paints l =>
      match l !! index ref with
      | Some (SolidPaint c props) =>
          assign_paints ix (source ref)
            (<[index ref := recolor targetColor (SolidPaint c props)]> l) ;;;
          ret (S changed)
      | _ => ret changed
      end
  | _ => ret changed
  end.

(** The body of the innermost loop. *)
Definition merge_ref (targetColor : Color) (changed : nat) (ref : PaintRef) : M nat :=
  found <- getNodeByIdAsync (nodeId ref) ;;
  match found with
  | None => ret changed
  | Some (ix, node) =>
      try_catch (rewrite_slot targetColor ref ix node changed)
                (fun _ => ret changed)
  end.

Definition applyMerge (groups : list Group) (targetHex : string) : M nat :=
  let targetColor := hexToRgb targetHex in
  for_of (fun changed gr =>
    for_of (fun changed member =>
      for_of (merge_ref targetColor) (nodes member) changed)
      (members gr) changed)
    groups 0%nat.

(** ** Message handling *)

Definition group_payload (gr : Group) : GroupPayload :=
  {| payload_representative := hex (representative gr);
     payload_members := map (fun m => (hex m, length (nodes m))) (members gr);
     payload_totalCount := totalCount gr |}.

(** [allGroups[i]] for a number [i] that is an integer. *)
Definition nth_group (allGroups : list Group) (i : Z) : option Group :=
  if i <? 0 then None else allGroups !! Z.to_nat i.

(** [msg.groupIndices.map((i) => allGroups[i]).filter(Boolean)] *)
Definition select_groups (allGroups : list Group) (groupIndices : list Z) : list Group :=
  omap (nth_group allGroups) groupIndices.

(** Truthiness of an optional string: present and not empty. *)
Definition truthy (s : option string) : bool :=
  match s with
  | Some s' => negb (String.eqb s' "")
  | None => false
  end.

Definition on_scan (threshold : option Q) : M unit :=
  try_catch
    (nodes <- getAllNodes ;;
     let colorMap := scanColors nodes in
     let threshold := default 20%Q threshold in
     let groups := groupSimilarColors colorMap threshold in
     postMessage (scan_result (map group_payload groups) threshold))
    (fun e => postMessage (error ("Scan failed: " +:+ exn_message e))).

Definition on_merge (threshold : option Q) (groupIndices : list Z)
    (targetHex : string) (styleName : option string) : M unit :=
  try_catch
    (nodes <- getAllNodes ;;
     let colorMap := scanColors nodes in
     let threshold := default 20%Q threshold in
     let allGroups := groupSimilarColors colorMap threshold in
     let selectedGroups := select_groups allGroups groupIndices in
     changed <- applyMerge selectedGroups targetHex ;;
     styleCreated <-
       (if truthy styleName then
          style <- createPaintStyle ;;
          set_style_name style (default "" styleName) ;;;
          set_style_paints style
            [SolidPaint (hexToRgb targetHex)
               {| visible := None; opacity := None; blendMode := None |}] ;;;
          ret true
        else ret false) ;;
     postMessage (merge_done changed styleCreated styleName))
    (fun e => postMessage (error ("Merge failed: " +:+ exn_message e))).

(** [figma.ui.onmessage] *)
Definition onmessage (msg : Message) : M unit :=
  match msg with
  | scan threshold => on_scan threshold
  | merge threshold groupIndices targetHex styleName =>
      on_merge threshold groupIndices targetHex styleName
  | close => closePlugin
  | other _ => ret tt
  end.

(** ** Messages with missing fields

    [onmessage] above takes a [merge] message that carries its
    [groupIndices] and its [targetHex].  The handler itself reads the two
    fields where it needs them, and reading a property of [undefined]
    throws a [TypeError] inside the [try]: [msg.groupIndices.map] in the
    handler, and [hex.replace] in [hexToRgb], which [applyMerge] calls
    before its loops.  The text of the error is the engine's:
    [cannot_read p] is the message it gives for reading the property [p]
    of [undefined]. *)

Inductive RawMessage : Type :=
| raw_scan (threshold : option Q)
| raw_merge (threshold : option Q) (groupIndices : option (list Z))
            (targetHex : option string) (styleName : option string)
| raw_close
| raw_other (type : string).

(** A message that carries all its fields. *)
Definition typed (msg : Message) : RawMessage :=
  match msg with
  | scan threshold => raw_scan threshold
  | merge threshold groupIndices targetHex styleName =>
      raw_merge threshold (Some groupIndices) (Some targetHex) styleName
  | close => raw_close
  | other type => raw_other type
  end.

(** A [merge] message without [groupIndices] or without [targetHex]. *)
Definition incomplete (msg : RawMessage) : bool :=
  match msg with
  | raw_merge _ None _ _ => true
  | raw_merge _ _ None _ => true
  | _ => false
  end.

Section Engine.

Variable cannot_read : string -> string.

(** [v.p] for a value [v] that may be [undefined]. *)
Definition read_of {A} (p : string) (v : option A) : M A :=
  match v with
  | Some x => ret x
  | None => throw (Error (cannot_read p))
  end.

Definition on_merge_raw (threshold : option Q) (groupIndices : option (list Z))
    (targetHex : option string) (styleName : option string) : M unit :=
  try_catch
    (nodes <- getAllNodes ;;
     let colorMap := scanColors nodes in
     let threshold := default 20%Q threshold in
     let allGroups := groupSimilarColors colorMap threshold in
     indices <- read_of "map" groupIndices ;;
     let selectedGroups := select_groups allGroups indices in
     hex <- read_of "replace" targetHex ;;
     changed <- applyMerge selectedGroups hex ;;
     styleCreated <-
       (if truthy styleName then
          style <- createPaintStyle ;;
          set_style_name style (default "" styleName) ;;;
          set_style_paints style
            [SolidPaint (hexToRgb hex)
               {| visible := None; opacity := None; blendMode := None |}] ;;;
          ret true
        else ret false) ;;
     postMessage (merge_done changed styleCreated styleName))
    (fun e => postMessage (error ("Merge failed: " +:+ exn_message e))).

(** [figma.ui.onmessage], for a message whose fields may be missing. *)
Definition onmessage_raw (msg : RawMessage) : M unit :=
  match msg with
  | raw_scan threshold => on_scan threshold
  | raw_merge threshold groupIndices targetHex styleName =>
      on_merge_raw threshold groupIndices targetHex styleName
  | raw_close => closePlugin
  | raw_other _ => ret tt
  end.

End Engine.

(** ** Well-formed inputs *)

(** A colour channel as the host supplies it: a binary64 value in [0,1]. *)
Definition is_channel (v : Q) : Prop := F64.is_double v /\ (0 <= v <= 1)%Q.

Definition valid_color (c : Color) : Prop :=
  is_channel (r c) /\ is_channel (g c) /\ is_channel (b c).

(** A document whose solid paints carry valid colours. *)
Definition valid_paint (p : Paint) : Prop :=
  match p with
  | SolidPaint c _ => valid_color c
  | OtherPaint _ _ => True
  end.

Definition valid_slot (s : Slot) : Prop :=
  match s with
  | Paints l => Forall valid_paint l
  | _ => True
  end.

Definition valid_node (n : Node) : Prop :=
  valid_slot (fills n) /\ valid_slot (strokes n).

(** A colour-entry map stores every entry under the entry's own key. *)
Definition keyed_by_hex (colorMap : JsObject.t ColorEntry) : Prop :=
  NoDup (map fst colorMap) /\
  Forall (fun kv => hex (snd kv) = fst kv) colorMap.

(** The map the scanner builds from valid colours: each key is the key of
    the entry's colour. *)
Definition color_entry_map (colorMap : JsObject.t ColorEntry) : Prop :=
  keyed_by_hex colorMap /\
  Forall (fun kv =>
            hex (snd kv) = toHex (r (color (snd kv))) (g (color (snd kv)))
                             (b (color (snd kv))) /\
            valid_color (color (snd kv))) colorMap.

(** The cluster of one entry alone. *)
Definition singleton_group (e : ColorEntry) : Group :=
  {| representative := e; members := [e] |}.

(** Whether the inner loop takes entry [e] for the representative [rep],
    given the keys assigned when the loop starts. *)
Definition joins (rep : ColorEntry) (threshold : Q) (assigned : gset string)
    (e : ColorEntry) : bool :=
  negb (bool_decide (hex e ∈ assigned))
  && Qle_bool (colorDistance (color rep) (color e)) threshold.

Definition unassigned (assigned : gset string) (e : ColorEntry) : bool :=
  negb (bool_decide (hex e ∈ assigned)).

(** ** The merge batch, reference by reference

    The outcome the specification gives to one reference, stated without
    exceptions: a reference succeeds when its node exists, the paint list
    of its kind is a list, the slot holds a solid paint and the host
    accepts the write; otherwise it is skipped. *)

Definition find_node (σ : Figma) (nid : string) : option (nat * Node) :=
  list_find (fun n => id n = nid) (page σ).

Definition can_rewrite (σ : Figma) (ref : PaintRef) : bool :=
  match find_node σ (nodeId ref) with
  | Some (_, n) =>
      match get_slot (source ref) n with
      | Paints l =>
          match l !! index ref with
          | Some (SolidPaint _ _) => writable n
          | _ => false
          end
      | _ => false
      end
  | None => false
  end.

Definition with_page (σ : Figma) (nodes : list Node) : Figma :=
  {| page := nodes; styles := styles σ; posted := posted σ; closed := closed σ |}.

(** The document after the slot of [ref] took the target colour. *)
Definition rewritten (targetColor : Color) (σ : Figma) (ref : PaintRef) : Figma :=
  match find_node σ (nodeId ref) with
  | Some (ix, n) =>
      match get_slot (source ref) n with
      | Paints l =>
          match l !! index ref with
          | Some p =>
              with_page σ
                (<[ix := set_slot (source ref)
                           (<[index ref := recolor targetColor p]> l) n]> (page σ))
          | None => σ
          end
      | _ => σ
      end
  | None => σ
  end.

(** One flag per reference, in order, and the final document. *)
Fixpoint run_batch (targetColor : Color) (refs : list PaintRef) (σ : Figma)
    : list bool * Figma :=
  match refs with
  | [] => ([], σ)
  | ref :: refs' =>
      let ok := can_rewrite σ ref in
      let σ1 := if ok then rewritten targetColor σ ref else σ in
      let '(oks, σ') := run_batch targetColor refs' σ1 in
      (ok :: oks, σ')
  end.

(** The references of a selection: cluster order, then member order, then
    reference order. *)
Definition all_refs (groups : list Group) : list PaintRef :=
  concat (map (fun gr => concat (map nodes (members gr))) groups).

Definition successes (oks : list bool) : nat :=
  length (List.filter (fun ok => ok) oks).

(** The style a merge registers under [name]. *)
Definition target_style (name targetHex : string) : PaintStyle :=
  {| style_name := name;
     style_paints :=
       [SolidPaint (hexToRgb targetHex)
          {| visible := None; opacity := None; blendMode := None |}] |}.

(** The groups a merge message selects in the document [σ]. *)
Definition merge_selection (σ : Figma) (threshold : option Q) (groupIndices : list Z)
    : list Group :=
  select_groups
    (groupSimilarColors (scanColors (page σ)) (default 20%Q threshold)) groupIndices.

Definition in_range {A} (l : list A) (i : Z) : bool :=
  (0 <=? i)%Z && (i <? Z.of_nat (length l))%Z.

(** ** The specification's reading of two sentences *)

(** Exactly six hexadecimal digits. *)
Definition is_hex6 (s : string) : bool :=
  (String.length s =? 6)%nat
  && forallb (fun c => bool_decide (is_Some (JsString.digit16 c)))
       (list_ascii_of_string s).

(** What the specification asks of a malformed key: a merge that carries
    it ends with an error response. *)
Definition merge_reports_error (targetHex : string) : Prop :=
  forall σ threshold groupIndices styleName,
  exists message,
    posted (onmessage (merge threshold groupIndices targetHex styleName) σ).2 =
    posted σ ++ [error message].

(** What the specification asks when a style name is supplied: one more
    style, and [styleCreated] true. *)
Definition style_created_when_supplied (σ : Figma) (threshold : option Q)
    (groupIndices : list Z) (targetHex : string) (styleName : option string) : Prop :=
  is_Some styleName ->
  let σ' := (onmessage (merge threshold groupIndices targetHex styleName) σ).2 in
  length (styles σ') = S (length (styles σ)) /\
  exists changed, last (posted σ') = Some (merge_done changed true styleName).

(** ** What a key decodes to *)

(** The colour whose channels are the three low bytes of the integer [z],
    each divided by 255. *)
Definition color_of_bytes (z : Z) : Color :=
  {| r := F64.fdiv (inject_Z ((z / 65536) mod 256)) 255;
     g := F64.fdiv (inject_Z ((z / 256) mod 256)) 255;
     b := F64.fdiv (inject_Z (z mod 256)) 255;
     a := None |}.

(** The values of the hexadecimal digits a string starts with, as far as
    they go. *)
Fixpoint hex_prefix (s : string) : list Z :=
  match s with
  | EmptyString => []
  | String c s' =>
      match JsString.digit16 c with
      | Some d => d :: hex_prefix s'
      | None => []
      end
  end.

(** The integer a sequence of radix-16 digits denotes, the first digit
    being the most significant. *)
Fixpoint positional16 (ds : list Z) : Z :=
  match ds with
  | [] => 0
  | d :: ds' => d * 16 ^ Z.of_nat (length ds') + positional16 ds'
  end.

(** ** Auxiliary notions of the proofs *)

(** The upper-case digit of a nibble, and the two characters [toHex]
    writes for a byte. *)
Definition HEX (d : Z) : ascii := JsString.upper_char (JsString.hex_digit d).

Definition byte_string (k : Z) : string :=
  JsString.toUpperCase (JsString.padStart 2 "0" (JsString.toString16 k)).

(** An entry whose key is the key of its colour, the colour being valid. *)
Definition described (e : ColorEntry) : Prop :=
  hex e = toHex (r (color e)) (g (color e)) (b (color e)) /\ valid_color (color e).

(** A comparator of the shape the source hands to [sort]: the second key
    minus the first; the order it sorts into; the elements of one key. *)
Definition desc {A} (key : A -> nat) (x y : A) : Z :=
  Z.of_nat (key y) - Z.of_nat (key x).

Definition ge_key {A} (key : A -> nat) (x y : A) : Prop := (key y <= key x)%nat.

Definition has_key {A} (key : A -> nat) (n : nat) (x : A) : bool := (key x =? n)%nat.

(** ** Notions used by the further properties *)

(** What a hexadecimal digit character is not, and its upper case. *)
Definition hexchar_facts (c : ascii) : bool :=
  match JsString.digit16 c with
  | Some d =>
      ((0 <=? d) && (d <? 16) && Ascii.eqb (JsString.upper_char c) (HEX d)
       && negb (Ascii.eqb c "#") && negb (JsString.is_space c)
       && negb (Ascii.eqb c "-") && negb (Ascii.eqb c "+")
       && negb (Ascii.eqb c "x" || Ascii.eqb c "X"))%bool
  | None => true
  end.

(** The colour object [extractPaints] builds from a solid paint. *)
Definition extracted_from (p : Paint) (c : Color) : Prop :=
  exists col props,
    p = SolidPaint col props /\
    c = {| r := r col; g := g col; b := b col;
           a := Some (default 1%Q (opacity props)) |}.

(** The key of a colour. *)
Definition key_of (c : Color) : string := toHex (r c) (g c) (b c).

(** What the scanner visits, in order: every colour [extractPaints]
    returns, with the reference the [forEach] callback builds for it.  The
    index counts the colours returned for one paint list, from [i]. *)
Fixpoint trace_from (nid : string) (src : Source) (i : nat) (l : list Color)
    : list (Color * PaintRef) :=
  match l with
  | [] => []
  | c :: l' =>
      (c, {| nodeId := nid; source := src; index := i |}) :: trace_from nid src (S i) l'
  end.

Definition slot_trace (nid : string) (src : Source) (s : Slot) : list (Color * PaintRef) :=
  trace_from nid src 0 (extractPaints s).

Definition node_trace (n : Node) : list (Color * PaintRef) :=
  slot_trace (id n) fill (fills n) ++ slot_trace (id n) stroke (strokes n).

Definition scan_trace (nodes : list Node) : list (Color * PaintRef) :=
  concat (map node_trace nodes).

Definition with_key (k : string) (cr : Color * PaintRef) : bool :=
  String.eqb (key_of cr.1) k.

(** The number of solid, visible paints of a node. *)
Definition kept_paints (n : Node) : nat :=
  (length (extractPaints (fills n)) + length (extractPaints (strokes n)))%nat.

(** Whether member [m] is within the threshold of representative [rep]. *)
Definition within (threshold : Q) (rep m : ColorEntry) : Prop :=
  Qle_bool (colorDistance (color rep) (color m)) threshold = true.

(** A cluster led by its representative: the representative is the first
    member and every other member is within the threshold of it. *)
Definition star (threshold : Q) (entries : list ColorEntry) (gr : Group) : Prop :=
  exists rest,
    members gr = representative gr :: rest /\
    Forall (within threshold (representative gr)) rest /\
    Forall (fun m => m ∈ entries) (members gr).

(** An entry agrees with what the scanner visited: it is stored under its
    own key, it holds the references of the visited colours of that key, in
    order, and its colour is the first of them. *)
Definition entry_of_trace (T : list (Color * PaintRef)) (kv : string * ColorEntry) : Prop :=
  hex kv.2 = kv.1 /\
  nodes kv.2 = map snd (List.filter (with_key kv.1) T) /\
  head (map fst (List.filter (with_key kv.1) T)) = Some (color kv.2).

Definition scan_describes (cm : JsObject.t ColorEntry) (T : list (Color * PaintRef)) : Prop :=
  NoDup (map fst cm) /\
  (forall k, k ∈ map fst cm <-> exists cr, cr ∈ T /\ key_of cr.1 = k) /\
  Forall (entry_of_trace T) cm.

(** The number of references a map holds. *)
Definition ref_count (cm : JsObject.t ColorEntry) : nat :=
  list_sum (map (fun kv => length (nodes kv.2)) cm).

(** A paint after a merge towards [target]: as it was, or recoloured. *)
Definition recolored (target : Color) (p p' : Paint) : Prop :=
  p' = p \/ p' = recolor target p.

Definition slot_recolored (target : Color) (s s' : Slot) : Prop :=
  match s, s' with
  | Paints l, Paints l' => Forall2 (recolored target) l l'
  | _, _ => s' = s
  end.

(** A node after a merge: the same identifier and write permission, and
    paint lists of the same length whose paints are as they were or
    recoloured. *)
Definition node_recolored (target : Color) (n n' : Node) : Prop :=
  id n' = id n /\ writable n' = writable n /\
  slot_recolored target (fills n) (fills n') /\
  slot_recolored target (strokes n) (strokes n').

(** The slot [ref] points to holds a solid paint of colour [target]. *)
Definition holds_target (target : Color) (σ : Figma) (ref : PaintRef) : Prop :=
  exists ix n l props,
    find_node σ (nodeId ref) = Some (ix, n) /\
    get_slot (source ref) n = Paints l /\
    l !! index ref = Some (SolidPaint target props).

(** A paint list whose solid, visible paints come first: there the index
    among the kept paints is the index in the list. *)
Fixpoint kept_first (l : list Paint) : bool :=
  match l with
  | [] => true
  | p :: l' =>
      if is_solid_visible p then kept_first l'
      else forallb (fun q => negb (is_solid_visible q)) l'
  end.

Definition slot_kept_first (s : Slot) : bool :=
  match s with
  | Paints l => kept_first l
  | _ => true
  end.

(** A document the merge can follow: identifiers are unique, every node
    accepts writes and the kept paints of every list come first. *)
Definition clean_document (σ : Figma) : Prop :=
  NoDup (map id (page σ)) /\
  Forall (fun n => writable n && slot_kept_first (fills n)
                   && slot_kept_first (strokes n) = true) (page σ).

(** Whether a posted message is an error report. *)
Definition is_error (m : Response) : bool :=
  match m with
  | error _ => true
  | _ => false
  end.

(** A colour whose three channels lie in [0,1]. *)
Definition in_gamut (c : Color) : Prop :=
  (0 <= r c <= 1 /\ 0 <= g c <= 1 /\ 0 <= b c <= 1)%Q.

(** All entries in one cluster, led by the first. *)
Definition one_cluster (entries : list ColorEntry) : list Group :=
  match entries with
  | [] => []
  | e :: _ => [{| representative := e; members := entries |}]
  end.

(** ** Sample documents *)

Module Samples.

Definition plain : PaintProps :=
  {| visible := None; opacity := None; blendMode := None |}.

Definition hidden : PaintProps :=
  {| visible := Some false; opacity := None; blendMode := None |}.

Definition red : Color := hexToRgb "FF0000".
Definition near_red : Color := hexToRgb "FE0101".
Definition blue : Color := hexToRgb "0000FF".

Definition node (nid : string) (fs ss : Slot) : Node :=
  {| id := nid; fills := fs; strokes := ss; writable := true |}.

(** Scenario A of the specification: two nodes, one near-red fill each. *)
Definition two_reds : list Node :=
  [ node "1:1" (Paints [SolidPaint red plain]) (Paints []);
    node "1:2" (Paints [SolidPaint near_red plain]) (Paints []) ].

(** A node whose solid fill comes after an image fill. *)
Definition image_then_red : list Node :=
  [ node "2:1" (Paints [OtherPaint IMAGE plain; SolidPaint red plain]) Absent ].

(** A node whose visible fill comes after a hidden one. *)
Definition hidden_then_red : list Node :=
  [ node "3:1" (Paints [SolidPaint blue hidden; SolidPaint red plain]) Absent ].

Definition three_colors : list Node :=
  two_reds ++
  [ node "1:3" (Paints [SolidPaint blue plain]) (Paints [SolidPaint blue plain]) ].

(** A node that refuses writes, between two that accept them. *)
Definition with_locked : list Node :=
  [ node "4:1" (Paints [SolidPaint red plain]) (Paints []);
    {| id := "4:2"; fills := Paints [SolidPaint red plain]; strokes := Absent;
       writable := false |};
    node "4:3" (Paints [OtherPaint IMAGE plain]) (Paints [SolidPaint red plain]) ].

Definition document (nodes : list Node) : Figma :=
  {| page := nodes; styles := []; posted := []; closed := false |}.

(** The messages the handler posts for [msg] on a fresh document. *)
Definition reply (msg : Message) (nodes : list Node) : list Response :=
  posted (onmessage msg (document nodes)).2.

End Samples.

(** * Properties *)

(** ** Rounding to binary64 *)

Module F64Facts.
Import F64.

Local Open Scope Q_scope.

Lemma pow2_pos e : 0 < pow2 e.
Proof. unfold pow2. apply Qpower_0_lt. reflexivity. Qed.

Lemma pow2_add e1 e2 : pow2 (e1 + e2) == pow2 e1 * pow2 e2.
Proof. unfold pow2. apply Qpower_plus. discriminate. Qed.

Lemma pow2_succ e : pow2 (e + 1) == 2 * pow2 e.
Proof. rewrite pow2_add. unfold pow2 at 2. simpl. ring. Qed.

Lemma pow2_inv e : pow2 (- e) * pow2 e == 1.
Proof.
  rewrite <- pow2_add. replace (- e + e)%Z with 0%Z by lia. reflexivity.
Qed.

Lemma pow2_le e1 e2 : (e1 <= e2)%Z -> pow2 e1 <= pow2 e2.
Proof. intros H. unfold pow2. apply Qpower_le_compat_l; [exact H | discriminate]. Qed.

Lemma pow2_lt_inv e1 e2 : pow2 e1 < pow2 e2 -> (e1 < e2)%Z.
Proof.
  intros H. destruct (Z_lt_le_dec e1 e2) as [Hlt | Hge]; [exact Hlt |].
  apply pow2_le in Hge. lra.
Qed.

Lemma pow2_Z e : (0 <= e)%Z -> pow2 e == inject_Z (2 ^ e).
Proof. intros H. unfold pow2. rewrite Zpower_Qpower by exact H. reflexivity. Qed.

Lemma Q_as_fraction x : x * inject_Z (Zpos (Qden x)) == inject_Z (Qnum x).
Proof.
  destruct x as [n d]. unfold Qeq, Qmult, inject_Z. simpl. lia.
Qed.

Lemma Qnum_pos_iff x : (0 < Qnum x)%Z <-> 0 < x.
Proof. destruct x as [n d]. unfold Qlt. simpl. lia. Qed.

(** [ilog2] is the floor of the binary logarithm. *)
Lemma ilog2_spec x : 0 < x -> pow2 (ilog2 x) <= x < pow2 (ilog2 x + 1).
Proof.
  intros Hx. unfold ilog2.
  set (la := Z.log2 (Qnum x)). set (lb := Z.log2 (Zpos (Qden x))).
  assert (Hn : (0 < Qnum x)%Z) by (apply Qnum_pos_iff; exact Hx).
  assert (Ha : pow2 la <= inject_Z (Qnum x) < pow2 (la + 1)).
  { destruct (Z.log2_spec (Qnum x) Hn) as [H1 H2]. fold la in H1, H2.
    assert (0 <= la)%Z by apply Z.log2_nonneg.
    rewrite !pow2_Z by lia. rewrite <- Zle_Qle, <- Zlt_Qlt.
    replace (la + 1)%Z with (Z.succ la) by lia. lia. }
  assert (Hb : pow2 lb <= inject_Z (Zpos (Qden x)) < pow2 (lb + 1)).
  { destruct (Z.log2_spec (Zpos (Qden x)) eq_refl) as [H1 H2]. fold lb in H1, H2.
    assert (0 <= lb)%Z by apply Z.log2_nonneg.
    rewrite !pow2_Z by lia. rewrite <- Zle_Qle, <- Zlt_Qlt.
    replace (lb + 1)%Z with (Z.succ lb) by lia. lia. }
  pose proof (Q_as_fraction x) as Hf.
  pose proof (pow2_pos lb) as Hlb. pose proof (pow2_pos (la - lb)) as Hd.
  assert (E1 : pow2 la == pow2 (la - lb) * pow2 lb).
  { rewrite <- pow2_add. replace (la - lb + lb)%Z with la by lia. reflexivity. }
  pose proof (pow2_succ la) as S1. pose proof (pow2_succ lb) as S2.
  destruct (Qle_bool (pow2 (la - lb)) x) eqn:Hc.
  - apply Qle_bool_iff in Hc. split; [exact Hc |].
    rewrite pow2_succ.
    destruct (Qlt_le_dec x (2 * pow2 (la - lb))) as [Hlt | Hge]; [exact Hlt |].
    exfalso. nra.
  - assert (Hlt : x < pow2 (la - lb)).
    { apply Qnot_le_lt. intros Hle. apply Qle_bool_iff in Hle. congruence. }
    replace (la - lb - 1 + 1)%Z with (la - lb)%Z by lia. split; [| exact Hlt].
    pose proof (pow2_succ (la - lb - 1)) as S3.
    replace (la - lb - 1 + 1)%Z with (la - lb)%Z in S3 by lia.
    destruct (Qlt_le_dec x (pow2 (la - lb - 1))) as [Hlt' | Hge]; [| exact Hge].
    exfalso. pose proof (pow2_pos (la - lb - 1)). nra.
Qed.

(** The nearest integer is within one half. *)
Lemma rne_spec q : Qabs (inject_Z (rne q) - q) <= 1 # 2.
Proof.
  unfold rne. pose proof (Qfloor_le q) as H1. pose proof (Qlt_floor q) as H2.
  rewrite inject_Z_plus in H2. change (inject_Z 1) with 1 in H2.
  apply Qabs_Qle_condition.
  destruct (Qcompare_spec (q - inject_Z (Qfloor q)) (1 # 2)) as [He | Hl | Hg];
    [destruct (Z.even (Qfloor q)) | |];
    rewrite ?inject_Z_plus; change (inject_Z 1) with 1; lra.
Qed.

Lemma rne_nonneg q : 0 <= q -> (0 <= rne q)%Z.
Proof.
  intros Hq. unfold rne.
  assert (0 <= Qfloor q)%Z by (change 0%Z with (Qfloor 0); apply Qfloor_resp_le; exact Hq).
  destruct (Qcompare _ _); [destruct (Z.even _) | |]; lia.
Qed.

Lemma fl_pos_eq x :
  fl_pos x == inject_Z (rne (x * pow2 (- ulp_exp x))) * pow2 (ulp_exp x).
Proof. unfold fl_pos. apply Qred_correct. Qed.

Lemma fl_pos_error x :
  Qabs (fl_pos x - x) <= (1 # 2) * pow2 (ulp_exp x).
Proof.
  rewrite fl_pos_eq. set (e := ulp_exp x).
  pose proof (rne_spec (x * pow2 (- e))) as H.
  apply Qabs_Qle_condition in H. apply Qabs_Qle_condition.
  pose proof (pow2_pos e) as He. pose proof (pow2_inv e) as Hi.
  set (m := inject_Z (rne (x * pow2 (- e)))) in *.
  assert (Hx : x == x * pow2 (- e) * pow2 e) by (rewrite <- Qmult_assoc, Hi; ring).
  set (y := x * pow2 (- e)) in *. clearbody y m.
  clear Hi. set (p := pow2 e) in *. clearbody p. split; nra.
Qed.

Lemma ulp_exp_bound x : 0 < x ->
  pow2 (ulp_exp x) <= x * pow2 (-52) + pow2 (-1074).
Proof.
  intros Hx. unfold ulp_exp, prec, emin.
  destruct (ilog2_spec x Hx) as [H1 _].
  pose proof (pow2_pos (-52)). pose proof (pow2_pos (-1074)).
  destruct (Z.max_spec (ilog2 x - (53 - 1)) (-1074)) as [[_ ->] | [_ ->]].
  - nra.
  - replace (ilog2 x - (53 - 1))%Z with (ilog2 x + -52)%Z by lia.
    rewrite pow2_add. pose proof (pow2_pos (ilog2 x)). nra.
Qed.

Lemma fl_unfold_pos x : 0 < x -> fl x = fl_pos x.
Proof.
  intros Hx. apply Qnum_pos_iff in Hx. unfold fl.
  destruct (Qnum x); try lia. reflexivity.
Qed.

Lemma fl_unfold_neg x : x < 0 -> fl x = Qred (- fl_pos (- x)).
Proof.
  intros Hx. unfold fl. destruct x as [n d]. unfold Qlt in Hx. simpl in *.
  destruct n; try lia. reflexivity.
Qed.

Lemma fl_unfold_zero x : x == 0 -> fl x = 0.
Proof.
  intros Hx. unfold fl. destruct x as [n d]. unfold Qeq in Hx. simpl in *.
  destruct n; try lia. reflexivity.
Qed.

(** The relative and absolute error of one rounding. *)
Theorem fl_error x :
  Qabs (fl x - x) <= Qabs x * pow2 (-53) + pow2 (-1075).
Proof.
  assert (Hh : forall e, (1 # 2) * pow2 e == pow2 (e + -1)).
  { intros e. rewrite pow2_add. change (pow2 (-1)) with (1 # 2). ring. }
  assert (Hpos : forall y, 0 < y ->
            Qabs (fl_pos y - y) <= y * pow2 (-53) + pow2 (-1075)).
  { intros y Hy. eapply Qle_trans; [apply fl_pos_error |].
    pose proof (ulp_exp_bound y Hy) as Hu.
    pose proof (Hh (-52)%Z) as H52. pose proof (Hh (-1074)%Z) as H1074.
    change (-52 + -1)%Z with (-53)%Z in H52.
    change (-1074 + -1)%Z with (-1075)%Z in H1074.
    rewrite <- H52, <- H1074. lra. }
  destruct (Q_dec x 0) as [[Hneg | Hp] | Hz].
  - rewrite (fl_unfold_neg x Hneg), Qred_correct.
    assert (Hy : 0 < - x) by lra. specialize (Hpos _ Hy).
    rewrite (Qabs_neg x) by lra.
    apply Qabs_Qle_condition in Hpos. apply Qabs_Qle_condition. lra.
  - rewrite (fl_unfold_pos x Hp). rewrite (Qabs_pos x) by lra. apply Hpos, Hp.
  - rewrite (fl_unfold_zero x Hz). rewrite Hz.
    pose proof (pow2_pos (-53)). pose proof (pow2_pos (-1075)).
    apply Qabs_Qle_condition. change (Qabs 0) with 0. lra.
Qed.

Lemma fl_pos_nonneg x : 0 < x -> 0 <= fl_pos x.
Proof.
  intros Hx. rewrite fl_pos_eq.
  pose proof (pow2_pos (ulp_exp x)). pose proof (pow2_pos (- ulp_exp x)).
  assert (0 <= rne (x * pow2 (- ulp_exp x)))%Z as Hm by (apply rne_nonneg; nra).
  rewrite Zle_Qle in Hm. change (inject_Z 0) with 0 in Hm.
  set (m := inject_Z _) in *. clearbody m. nra.
Qed.

Lemma fl_nonneg x : 0 <= x -> 0 <= fl x.
Proof.
  intros Hx. destruct (Qle_lt_or_eq _ _ Hx) as [Hp | Hz].
  - rewrite (fl_unfold_pos x Hp). apply fl_pos_nonneg, Hp.
  - rewrite (fl_unfold_zero x) by (symmetry; exact Hz). lra.
Qed.

(** A rounded value is a multiple of every power of two up to its unit
    in the last place. *)
Lemma fl_pos_grid k x : (k <= ulp_exp x)%Z ->
  exists m : Z, fl_pos x == inject_Z m * pow2 k.
Proof.
  intros Hk. exists (rne (x * pow2 (- ulp_exp x)) * 2 ^ (ulp_exp x - k))%Z.
  rewrite fl_pos_eq, inject_Z_mult, <- pow2_Z by lia.
  rewrite <- Qmult_assoc, <- pow2_add.
  replace (ulp_exp x - k + k)%Z with (ulp_exp x) by lia. reflexivity.
Qed.

Lemma fl_grid x : exists m : Z, fl x == inject_Z m * pow2 (-1074).
Proof.
  assert (Hk : forall y, (-1074 <= ulp_exp y)%Z) by (intros y; unfold ulp_exp, emin; lia).
  destruct (Q_dec x 0) as [[Hneg | Hp] | Hz].
  - destruct (fl_pos_grid _ _ (Hk (- x))) as [m Hm]. exists (- m)%Z.
    rewrite (fl_unfold_neg x Hneg), Qred_correct, Hm, inject_Z_opp. ring.
  - destruct (fl_pos_grid _ _ (Hk x)) as [m Hm]. exists m.
    rewrite (fl_unfold_pos x Hp). exact Hm.
  - exists 0%Z. rewrite (fl_unfold_zero x Hz). change (inject_Z 0) with 0. ring.
Qed.

(** A non-negative rounded value below the smallest subnormal is zero. *)
Lemma fl_tiny x : 0 <= fl x -> fl x < pow2 (-1074) -> fl x == 0.
Proof.
  intros H0 H1. destruct (fl_grid x) as [m Hm]. rewrite Hm in *.
  pose proof (pow2_pos (-1074)) as Hp.
  assert (Hm0 : (0 <= m)%Z).
  { destruct (Z_lt_le_dec m 0) as [Hlt | Hge]; [| exact Hge].
    assert (inject_Z m <= inject_Z (-1)) by (rewrite <- Zle_Qle; lia).
    change (inject_Z (-1)) with (-1 # 1) in *. nra. }
  assert (Hm1 : (m < 1)%Z).
  { destruct (Z_lt_le_dec m 1) as [Hlt | Hge]; [exact Hlt |].
    assert (inject_Z 1 <= inject_Z m) by (rewrite <- Zle_Qle; lia).
    change (inject_Z 1) with 1 in *. nra. }
  replace m with 0%Z by lia. change (inject_Z 0) with 0. ring.
Qed.

Lemma fl_zero_small x : fl x == 0 -> Qabs x < pow2 (-1074).
Proof.
  intros Hz. pose proof (fl_error x) as He. rewrite Hz in He.
  assert (Ha : Qabs (0 - x) == Qabs x).
  { rewrite <- (Qabs_opp x). apply Qabs_wd. ring. }
  rewrite Ha in He. pose proof (Qabs_nonneg x) as Hn.
  assert (H53 : pow2 (-53) <= 1 # 4).
  { change (1 # 4) with (pow2 (-2)). apply pow2_le. lia. }
  assert (H75 : 2 * pow2 (-1075) == pow2 (-1074)).
  { rewrite <- pow2_succ. reflexivity. }
  pose proof (pow2_pos (-53)). pose proof (pow2_pos (-1075)).
  set (ax := Qabs x) in *. clearbody ax.
  assert (ax * pow2 (-53) <= ax * (1 # 4)) by nra. lra.
Qed.

(** A rounded value is in lowest terms. *)
Lemma fl_canonical x : Qred (fl x) = fl x.
Proof.
  assert (Hr : forall q, Qred (Qred q) = Qred q).
  { intros q. apply Qred_complete, Qred_correct. }
  unfold fl. destruct (Qnum x); [reflexivity | apply Hr .. ].
Qed.

Lemma double_canonical v : is_double v -> Qred v = v.
Proof. unfold is_double. intros H. rewrite <- H. apply fl_canonical. Qed.

Lemma double_eq v w : is_double v -> is_double w -> v == w -> v = w.
Proof.
  intros Hv Hw H. rewrite <- (double_canonical v Hv), <- (double_canonical w Hw).
  apply Qred_complete, H.
Qed.

(** A binary64 value of at least [2^k] is a multiple of [2^(k-52)]. *)
Lemma double_grid k v : is_double v -> pow2 k <= v ->
  exists m : Z, v == inject_Z m * pow2 (k - 52).
Proof.
  intros Hv Hk. pose proof (pow2_pos k) as Hp.
  assert (Hpos : 0 < v) by lra.
  unfold is_double in Hv. rewrite (fl_unfold_pos v Hpos) in Hv.
  destruct (ilog2_spec v Hpos) as [_ Hu].
  assert (k < ilog2 v + 1)%Z by (apply pow2_lt_inv; lra).
  destruct (fl_pos_grid (k - 52) v) as [m Hm].
  { unfold ulp_exp, prec. lia. }
  exists m. rewrite <- Hm, Hv. reflexivity.
Qed.

(** [Math.sqrt] of a positive number is positive. *)
Lemma fsqrt_pos s : 0 < s -> 0 < fsqrt s.
Proof.
  intros Hs. pose proof Hs as Hn. apply Qnum_pos_iff in Hn.
  unfold fsqrt. destruct (Qnum s) eqn:En; try lia. clear Hn.
  set (es := (ilog2 s / 2 - (prec - 1))%Z).
  set (q := s * pow2 (- (2 * es))).
  set (n := Z.sqrt (Qfloor q)).
  rewrite Qred_correct.
  assert (Hq : 1 <= q).
  { destruct (ilog2_spec s Hs) as [Hl _]. unfold q.
    pose proof (pow2_pos (- (2 * es))) as Hp.
    assert (pow2 0 <= pow2 (ilog2 s + - (2 * es))) as H0.
    { apply pow2_le. unfold es, prec.
      pose proof (Z.mul_div_le (ilog2 s) 2). lia. }
    rewrite pow2_add in H0. change (pow2 0) with 1 in H0.
    pose proof (pow2_pos (ilog2 s)). nra. }
  assert (Hn : (1 <= n)%Z).
  { unfold n. change 1%Z with (Z.sqrt 1). apply Z.sqrt_le_mono.
    change 1%Z with (Qfloor 1). apply Qfloor_resp_le, Hq. }
  assert (Hm : forall m : Z, (n <= m)%Z -> 0 < inject_Z m * pow2 es).
  { intros m Hle. pose proof (pow2_pos es).
    assert (inject_Z 1 <= inject_Z m) by (rewrite <- Zle_Qle; lia).
    change (inject_Z 1) with 1 in *. nra. }
  destruct (Qcompare _ _); [destruct (Z.even n) | |]; apply Hm; lia.
Qed.

(** Rounding moves a number of magnitude at most 256 by at most [2^-44]. *)
Lemma fl_error_256 x : Qabs x <= 256 -> Qabs (fl x - x) <= pow2 (-44).
Proof.
  intros Hx. eapply Qle_trans; [apply fl_error |].
  assert (H1 : 256 * pow2 (-53) == pow2 (-45)).
  { change 256 with (pow2 8). rewrite <- pow2_add. reflexivity. }
  assert (H2 : pow2 (-1075) <= pow2 (-45)) by (apply pow2_le; lia).
  assert (H3 : 2 * pow2 (-45) == pow2 (-44)) by (rewrite <- pow2_succ; reflexivity).
  pose proof (pow2_pos (-53)). pose proof (Qabs_nonneg x).
  set (ax := Qabs x) in *. clearbody ax. nra.
Qed.

End F64Facts.

(** ** The codec *)

Module CodecFacts.
Import JsString.

Local Open Scope Z_scope.

Lemma nibble_cases d : 0 <= d < 16 ->
  d = 0 \/ d = 1 \/ d = 2 \/ d = 3 \/ d = 4 \/ d = 5 \/ d = 6 \/ d = 7 \/
  d = 8 \/ d = 9 \/ d = 10 \/ d = 11 \/ d = 12 \/ d = 13 \/ d = 14 \/ d = 15.
Proof. lia. Qed.

Ltac each_nibble H :=
  apply nibble_cases in H;
  repeat (destruct H as [H | H]; [subst; try reflexivity |]);
  subst; try reflexivity.

Lemma digit16_HEX d : 0 <= d < 16 -> digit16 (HEX d) = Some d.
Proof. intros H. each_nibble H. Qed.

Lemma HEX_not_hash d : 0 <= d < 16 -> Ascii.eqb (HEX d) "#" = false.
Proof. intros H. each_nibble H. Qed.

Lemma HEX_not_space d : 0 <= d < 16 -> is_space (HEX d) = false.
Proof. intros H. each_nibble H. Qed.

Lemma HEX_not_minus d : 0 <= d < 16 -> Ascii.eqb (HEX d) "-" = false.
Proof. intros H. each_nibble H. Qed.

Lemma HEX_not_plus d : 0 <= d < 16 -> Ascii.eqb (HEX d) "+" = false.
Proof. intros H. each_nibble H. Qed.

Lemma HEX_not_x d : 0 <= d < 16 ->
  (Ascii.eqb (HEX d) "x" || Ascii.eqb (HEX d) "X")%bool = false.
Proof. intros H. each_nibble H. Qed.

Lemma byte_string_digits k : 0 <= k <= 255 ->
  byte_string k = String (HEX (k / 16)) (String (HEX (k mod 16)) EmptyString).
Proof.
  intros Hk.
  assert (Hall : forallb (fun n =>
            String.eqb (byte_string (Z.of_nat n))
              (String (HEX (Z.of_nat n / 16))
                 (String (HEX (Z.of_nat n mod 16)) EmptyString)))
            (seq 0 256) = true) by (vm_compute; reflexivity).
  rewrite forallb_forall in Hall.
  specialize (Hall (Z.to_nat k)). rewrite Z2Nat.id in Hall by lia.
  apply String.eqb_eq, Hall, in_seq. lia.
Qed.

Lemma toUpperCase_app s1 s2 :
  toUpperCase (s1 ++ s2) = (toUpperCase s1 ++ toUpperCase s2)%string.
Proof. induction s1 as [| c s1 IH]; simpl; [reflexivity | now rewrite IH]. Qed.

Lemma toHex_bytes x y z :
  toHex x y z =
  (byte_string (Math_round (F64.fmul x 255)) ++
   byte_string (Math_round (F64.fmul y 255)) ++
   byte_string (Math_round (F64.fmul z 255)))%string.
Proof. unfold toHex, hex2, byte_string. now rewrite !toUpperCase_app. Qed.

(** Reading back six upper-case digits. *)
Lemma parseInt16_digits a1 a2 a3 a4 a5 a6 :
  0 <= a1 < 16 -> 0 <= a2 < 16 -> 0 <= a3 < 16 ->
  0 <= a4 < 16 -> 0 <= a5 < 16 -> 0 <= a6 < 16 ->
  parseInt16_math
    (remove_first "#"
       (String (HEX a1) (String (HEX a2) (String (HEX a3)
          (String (HEX a4) (String (HEX a5) (String (HEX a6) EmptyString)))))))
  = Some (((((a1 * 16 + a2) * 16 + a3) * 16 + a4) * 16 + a5) * 16 + a6).
Proof.
  intros H1 H2 H3 H4 H5 H6.
  cbn [remove_first]. rewrite !HEX_not_hash by assumption.
  unfold parseInt16_math. cbn [trim_start]. rewrite HEX_not_space by assumption.
  unfold strip_sign. rewrite HEX_not_minus, HEX_not_plus by assumption.
  unfold strip_0x. rewrite (HEX_not_x a2) by assumption.
  rewrite Bool.andb_false_r.
  cbn [parse_digits]. rewrite !digit16_HEX by assumption.
  cbn [parse_digits]. f_equal. lia.
Qed.

Lemma ToInt32_small z : 0 <= z < 2 ^ 24 -> ToInt32 (number_of_Z z) = z.
Proof.
  intros Hz. unfold number_of_Z.
  assert ((Z.abs z <? 2 ^ 53) = true) as -> by (apply Z.ltb_lt; lia).
  unfold ToInt32, inject_Z. cbn [Qnum Qden]. rewrite Z.quot_1_r.
  rewrite Z.mod_small by lia.
  assert ((2 ^ 31 <=? z) = false) as -> by (apply Z.leb_gt; lia). reflexivity.
Qed.

Lemma bytes_of_rgb kr kg kb :
  0 <= kr <= 255 -> 0 <= kg <= 255 -> 0 <= kb <= 255 ->
  let n := kr * 65536 + kg * 256 + kb in
  byte_at n 16 = kr /\ byte_at n 8 = kg /\ Z.land n 255 = kb.
Proof.
  intros Hr Hg Hb n. unfold byte_at.
  change 255 with (Z.ones 8). rewrite !Z.land_ones, !Z.shiftr_div_pow2 by lia.
  change (2 ^ 16) with 65536. change (2 ^ 8) with 256. subst n.
  repeat split.
  - replace (kr * 65536 + kg * 256 + kb) with (kg * 256 + kb + kr * 65536) by lia.
    rewrite Z.div_add by lia. rewrite (Z.div_small (kg * 256 + kb)) by lia.
    apply Z.mod_small. lia.
  - replace (kr * 65536 + kg * 256 + kb) with (kb + (kr * 256 + kg) * 256) by lia.
    rewrite Z.div_add by lia. rewrite (Z.div_small kb) by lia.
    replace (0 + (kr * 256 + kg)) with (kg + kr * 256) by lia.
    rewrite Z.mod_add by lia. apply Z.mod_small. lia.
  - replace (kr * 65536 + kg * 256 + kb) with (kb + (kr * 256 + kg) * 256) by lia.
    rewrite Z.mod_add by lia. apply Z.mod_small. lia.
Qed.

(** Decoding the key of three bytes gives the three bytes over 255. *)
Lemma hexToRgb_bytes kr kg kb :
  0 <= kr <= 255 -> 0 <= kg <= 255 -> 0 <= kb <= 255 ->
  hexToRgb (byte_string kr ++ byte_string kg ++ byte_string kb) =
  {| r := F64.fdiv (inject_Z kr) 255;
     g := F64.fdiv (inject_Z kg) 255;
     b := F64.fdiv (inject_Z kb) 255;
     a := None |}.
Proof.
  intros Hr Hg Hb. unfold hexToRgb, parseInt16.
  rewrite !byte_string_digits by assumption.
  repeat (change (String ?c ?s +:+ ?t) with (String c (s +:+ t))
          || change (EmptyString +:+ ?t) with t).
  assert (Hd : forall k, 0 <= k <= 255 -> 0 <= k / 16 < 16 /\ 0 <= k mod 16 < 16).
  { intros k Hk. split; [| apply Z.mod_pos_bound; lia].
    split; [apply Z.div_pos; lia | apply Z.div_lt_upper_bound; lia]. }
  destruct (Hd kr Hr), (Hd kg Hg), (Hd kb Hb).
  rewrite parseInt16_digits by assumption.
  replace (((((kr / 16 * 16 + kr mod 16) * 16 + kg / 16) * 16 + kg mod 16) * 16
            + kb / 16) * 16 + kb mod 16)
    with (kr * 65536 + kg * 256 + kb).
  2:{ rewrite (Z.div_mod kr 16) at 1 by lia. rewrite (Z.div_mod kg 16) at 1 by lia.
      rewrite (Z.div_mod kb 16) at 1 by lia. lia. }
  rewrite ToInt32_small by lia.
  destruct (bytes_of_rgb kr kg kb Hr Hg Hb) as (-> & -> & ->). reflexivity.
Qed.

Local Open Scope Q_scope.
Import F64 F64Facts.

Lemma Qfloor_unique n y : inject_Z n <= y -> y < inject_Z n + 1 -> Qfloor y = n.
Proof.
  intros H1 H2. pose proof (Qfloor_le y) as F1. pose proof (Qlt_floor y) as F2.
  rewrite inject_Z_plus in F2. change (inject_Z 1) with 1 in F2.
  assert (inject_Z (Qfloor y) < inject_Z (n + 1)) as A1
    by (rewrite inject_Z_plus; change (inject_Z 1) with 1; lra).
  assert (inject_Z n < inject_Z (Qfloor y + 1)) as A2
    by (rewrite inject_Z_plus; change (inject_Z 1) with 1; lra).
  rewrite <- Zlt_Qlt in A1, A2. lia.
Qed.

Lemma pow2_44_small : pow2 (-44) <= 1 # 1024.
Proof. change (1 # 1024) with (pow2 (-10)). apply pow2_le. lia. Qed.

Lemma fmul_255_error v : 0 <= v <= 1 ->
  Qabs (fmul v 255 - v * 255) <= pow2 (-44).
Proof.
  intros Hv. unfold fmul. apply fl_error_256.
  apply Qabs_Qle_condition. lra.
Qed.

(** The byte [toHex] computes for a channel in [0,1]. *)
Lemma round_channel v : 0 <= v <= 1 ->
  (0 <= Math_round (fmul v 255) <= 255)%Z /\
  Qabs (inject_Z (Math_round (fmul v 255)) - v * 255) <= (1 # 2) + pow2 (-44).
Proof.
  intros Hv. pose proof (fmul_255_error v Hv) as He.
  apply Qabs_Qle_condition in He. pose proof pow2_44_small as Hs.
  pose proof (pow2_pos (-44)) as Hp.
  unfold Math_round. set (x := fmul v 255) in *.
  pose proof (Qfloor_le (x + (1 # 2))) as F1.
  pose proof (Qlt_floor (x + (1 # 2))) as F2.
  rewrite inject_Z_plus in F2. change (inject_Z 1) with 1 in F2.
  set (k := Qfloor (x + (1 # 2))) in *.
  split.
  - assert (inject_Z (-1) < inject_Z k) as A1 by (change (inject_Z (-1)) with (-1 # 1); lra).
    assert (inject_Z k < inject_Z 256) as A2 by (change (inject_Z 256) with 256; lra).
    rewrite <- Zlt_Qlt in A1, A2. lia.
  - apply Qabs_Qle_condition. lra.
Qed.

(** Dividing the byte by 255 comes back to within 1/255. *)
Lemma decode_channel k v : (0 <= k <= 255)%Z ->
  Qabs (inject_Z k - v * 255) <= (1 # 2) + pow2 (-44) ->
  Qabs (fdiv (inject_Z k) 255 - v) <= 1 # 255.
Proof.
  intros Hk Hd. apply Qabs_Qle_condition in Hd.
  assert (Hq : 0 <= inject_Z k <= 255).
  { change 0 with (inject_Z 0). change 255 with (inject_Z 255).
    rewrite <- !Zle_Qle. lia. }
  set (y := inject_Z k / 255).
  assert (Hy : y * 255 == inject_Z k) by (unfold y; field).
  assert (He : Qabs (fl y - y) <= pow2 (-44)).
  { apply fl_error_256, Qabs_Qle_condition. lra. }
  apply Qabs_Qle_condition in He. pose proof pow2_44_small.
  pose proof (pow2_pos (-44)).
  unfold fdiv. fold y. apply Qabs_Qle_condition. lra.
Qed.

Lemma Math_round_small u : is_channel u -> u < pow2 (-10) ->
  Math_round (fmul u 255) = 0%Z.
Proof.
  intros [_ Hu] Hlt. pose proof (fmul_255_error u Hu) as He.
  apply Qabs_Qle_condition in He. pose proof pow2_44_small.
  change (pow2 (-10)) with (1 # 1024) in Hlt.
  assert (0 <= fmul u 255) by (apply fl_nonneg; lra).
  unfold Math_round. apply Qfloor_unique; change (inject_Z 0) with 0; lra.
Qed.

(** Two channels whose scaled difference squares to zero are written as
    the same byte. *)
Lemma channel_close v w : is_channel v -> is_channel w ->
  fmul (fmul (fsub v w) 255) (fmul (fsub v w) 255) == 0 ->
  Math_round (fmul v 255) = Math_round (fmul w 255).
Proof.
  intros Hv Hw Hz.
  set (d := fmul (fsub v w) 255) in *.
  assert (P1 : pow2 (-537) * pow2 (-537) == pow2 (-1074))
    by (rewrite <- pow2_add; reflexivity).
  assert (P2 : pow2 (-1075) <= pow2 (-537)) by (apply pow2_le; lia).
  assert (P3 : pow2 (-53) <= 1 # 4)
    by (change (1 # 4) with (pow2 (-2)); apply pow2_le; lia).
  assert (P4 : 4 * pow2 (-537) == pow2 (-535))
    by (change 4 with (pow2 2); rewrite <- pow2_add; reflexivity).
  assert (P5 : 4 * pow2 (-535) == pow2 (-533))
    by (change 4 with (pow2 2); rewrite <- pow2_add; reflexivity).
  assert (P6 : pow2 (-533) <= pow2 (-63)) by (apply pow2_le; lia).
  assert (P7 : pow2 (-63) <= pow2 (-11)) by (apply pow2_le; lia).
  pose proof (pow2_pos (-537)) as Q1. pose proof (pow2_pos (-53)) as Q2.
  pose proof (pow2_pos (-1075)) as Q3. pose proof (pow2_pos (-63)) as Q4.
  (* the scaled difference is tiny *)
  apply fl_zero_small in Hz. rewrite <- P1 in Hz.
  assert (Hd : Qabs d < pow2 (-537)).
  { apply Qabs_Qlt_condition in Hz. apply Qabs_Qlt_condition.
    set (p := pow2 (-537)) in *. clearbody p d. split; nra. }
  (* so is the rounded difference, and the difference itself *)
  pose proof (fl_error (fsub v w * 255)) as E1. fold (fmul (fsub v w) 255) in E1.
  fold d in E1.
  assert (Hs : Qabs (fsub v w) < pow2 (-535)).
  { apply Qabs_Qle_condition in E1. apply Qabs_Qlt_condition in Hd.
    apply Qabs_Qlt_condition. rewrite <- P4.
    revert E1. apply Qabs_case; intros Ha E1;
      set (s := fsub v w) in *; clearbody s d;
      set (p := pow2 (-53)) in *; clearbody p; split; nra. }
  pose proof (fl_error (v - w)) as E2. fold (fsub v w) in E2.
  assert (Hvw : Qabs (v - w) < pow2 (-63)).
  { apply Qabs_Qle_condition in E2. apply Qabs_Qlt_condition in Hs.
    apply Qabs_Qlt_condition.
    revert E2. apply Qabs_case; intros Ha E2;
      set (s := fsub v w) in *; clearbody s;
      set (p := pow2 (-53)) in *; clearbody p; split; nra. }
  apply Qabs_Qlt_condition in Hvw.
  destruct (Qlt_le_dec v (pow2 (-11))) as [Lv | Gv].
  { assert (w < pow2 (-10)).
    { assert (2 * pow2 (-11) == pow2 (-10)) by (rewrite <- pow2_succ; reflexivity). lra. }
    assert (v < pow2 (-10)).
    { assert (pow2 (-11) <= pow2 (-10)) by (apply pow2_le; lia). lra. }
    rewrite !Math_round_small by assumption. reflexivity. }
  destruct (Qlt_le_dec w (pow2 (-11))) as [Lw | Gw].
  { assert (v < pow2 (-10)).
    { assert (2 * pow2 (-11) == pow2 (-10)) by (rewrite <- pow2_succ; reflexivity). lra. }
    assert (w < pow2 (-10)).
    { assert (pow2 (-11) <= pow2 (-10)) by (apply pow2_le; lia). lra. }
    rewrite !Math_round_small by assumption. reflexivity. }
  destruct Hv as [Dv _], Hw as [Dw _].
  destruct (double_grid (-11) v Dv Gv) as [m1 M1].
  destruct (double_grid (-11) w Dw Gw) as [m2 M2].
  change (-11 - 52)%Z with (-63)%Z in M1, M2.
  assert (m1 = m2).
  { rewrite M1, M2 in Hvw.
    assert (inject_Z (m1 - m2) < inject_Z 1 /\ inject_Z (-1) < inject_Z (m1 - m2)) as [A1 A2].
    { unfold Zminus. rewrite inject_Z_plus, inject_Z_opp.
      change (inject_Z 1) with 1. change (inject_Z (-1)) with (-1 # 1).
      set (p := pow2 (-63)) in *. clearbody p.
      set (a := inject_Z m1) in *. set (c := inject_Z m2) in *. clearbody a c.
      split; nra. }
    rewrite <- Zlt_Qlt in A1, A2. lia. }
  subst m2. assert (v = w) as -> by (apply double_eq; [assumption .. | rewrite M1, M2; reflexivity]).
  reflexivity.
Qed.

(** A sum of three rounded squares has a positive root unless every
    square rounds to zero. *)
Lemma root_of_squares_zero x y z :
  fsqrt (fadd (fadd (fmul x x) (fmul y y)) (fmul z z)) <= 0 ->
  fmul x x == 0 /\ fmul y y == 0 /\ fmul z z == 0.
Proof.
  intros Hd. unfold fadd, fmul in *.
  assert (Hsq : forall d, 0 <= fl (d * d)) by (intros d; apply fl_nonneg; nra).
  pose proof (Hsq x) as Hx. pose proof (Hsq y) as Hy. pose proof (Hsq z) as Hz.
  assert (Hxy : 0 <= fl (fl (x * x) + fl (y * y))) by (apply fl_nonneg; lra).
  set (S := fl (fl (fl (x * x) + fl (y * y)) + fl (z * z))) in *.
  assert (HS0 : 0 <= S) by (apply fl_nonneg; lra).
  assert (HS : S == 0).
  { destruct (Qlt_le_dec 0 S) as [Hp | Hn]; [| lra].
    pose proof (fsqrt_pos S Hp). lra. }
  pose proof (pow2_pos (-1074)) as Pp.
  apply fl_zero_small, Qabs_Qlt_condition in HS.
  assert (Zxy : fl (fl (x * x) + fl (y * y)) == 0)
    by (apply fl_tiny; [exact Hxy | lra]).
  apply fl_zero_small, Qabs_Qlt_condition in Zxy.
  repeat split; apply fl_tiny; first [assumption | lra].
Qed.

Lemma colorDistance_unfold ca cb :
  colorDistance ca cb =
  fsqrt (fadd (fadd (fmul (fmul (fsub (r ca) (r cb)) 255) (fmul (fsub (r ca) (r cb)) 255))
                    (fmul (fmul (fsub (g ca) (g cb)) 255) (fmul (fsub (g ca) (g cb)) 255)))
              (fmul (fmul (fsub (b ca) (b cb)) 255) (fmul (fsub (b ca) (b cb)) 255))).
Proof. reflexivity. Qed.

(** Colours at distance zero have the same key. *)
Lemma distance_zero_same_key c1 c2 : valid_color c1 -> valid_color c2 ->
  colorDistance c1 c2 <= 0 ->
  toHex (r c1) (g c1) (b c1) = toHex (r c2) (g c2) (b c2).
Proof.
  intros (R1 & G1 & B1) (R2 & G2 & B2) Hd. rewrite colorDistance_unfold in Hd.
  apply root_of_squares_zero in Hd as (Zr & Zg & Zb).
  unfold toHex, hex2.
  rewrite (channel_close _ _ R1 R2 Zr), (channel_close _ _ G1 G2 Zg),
    (channel_close _ _ B1 B2 Zb).
  reflexivity.
Qed.

End CodecFacts.

(** ** Objects as maps *)

Module JsObjectFacts.
Import JsObject.

Section Values.
Context {V : Type}.

Lemma insert_index_perm (x : Z * V) l : insert_index x l ≡ₚ x :: l.
Proof.
  induction l as [| y l IH]; simpl; [reflexivity |].
  destruct (fst x <=? fst y)%Z; [reflexivity |].
  rewrite IH. apply perm_swap.
Qed.

Lemma sorted_index_perm (l : list (Z * V)) : foldr insert_index [] l ≡ₚ l.
Proof.
  induction l as [| x l IH]; simpl; [reflexivity |].
  rewrite insert_index_perm, IH. reflexivity.
Qed.

Lemma parts_perm (o : t V) :
  map snd (index_part o) ++ string_part o ≡ₚ map snd o.
Proof.
  unfold index_part, string_part.
  induction o as [| [k v] o IH]; simpl; [reflexivity |].
  destruct (array_index k); simpl.
  - rewrite IH. reflexivity.
  - rewrite <- Permutation_middle, IH. reflexivity.
Qed.

(** [Object.values] lists every value once. *)
Lemma values_perm (o : t V) : values o ≡ₚ map snd o.
Proof.
  unfold values. rewrite sorted_index_perm. apply parts_perm.
Qed.

End Values.

Lemma keyed_values_NoDup (colorMap : t ColorEntry) :
  keyed_by_hex colorMap -> NoDup (map hex (values colorMap)).
Proof.
  intros [Hnd Hk]. rewrite values_perm.
  replace (map hex (map snd colorMap)) with (map fst colorMap); [exact Hnd |].
  clear Hnd. induction Hk as [| [k e] o Hke _ IH]; simpl in *; [reflexivity |].
  rewrite Hke. f_equal. exact IH.
Qed.

End JsObjectFacts.

(** ** Scan *)

Module ScanFacts.
Import JsObject.

Section Invariant.
Context {V : Type}.

Lemma get_None (o : t V) k : get o k = None <-> k ∉ map fst o.
Proof.
  induction o as [| [k' v] o IH]; cbn [get map fst].
  - split; [intros _; apply not_elem_of_nil | reflexivity].
  - rewrite not_elem_of_cons. destruct (String.eqb_spec k' k) as [-> | Hne].
    + split; [discriminate | intros [H _]; congruence].
    + rewrite IH. split; [intros H; split; [congruence | exact H] | intros [_ H]; exact H].
Qed.

Lemma set_absent (o : t V) k v : get o k = None -> set o k v = o ++ [(k, v)].
Proof.
  induction o as [| [k' v'] o IH]; cbn [get set app]; [reflexivity |].
  destruct (String.eqb k' k); [discriminate |]. intros H. now rewrite IH.
Qed.

Lemma update_keys (o : t V) k f : map fst (update o k f) = map fst o.
Proof.
  induction o as [| [k' v'] o IH]; cbn [update map fst]; [reflexivity |].
  destruct (String.eqb k' k); cbn [map fst]; [reflexivity | now rewrite IH].
Qed.

Lemma update_Forall (Q : string -> V -> Prop) (o : t V) k f :
  (forall k' v, Q k' v -> Q k' (f v)) ->
  Forall (fun kv => Q kv.1 kv.2) o ->
  Forall (fun kv => Q kv.1 kv.2) (update o k f).
Proof.
  intros Hf. induction 1 as [| [k' v'] o Hkv Ho IH]; cbn [update]; [constructor |].
  destruct (String.eqb k' k); constructor; cbn [fst snd] in *; auto.
Qed.

End Invariant.

(** An invariant of the map under construction: the keys are distinct and
    every binding satisfies [Q]. *)
Definition scan_inv (Q : string -> ColorEntry -> Prop) (cm : t ColorEntry) : Prop :=
  NoDup (map fst cm) /\ Forall (fun kv => Q kv.1 kv.2) cm.

Section Preservation.
Context (Q : string -> ColorEntry -> Prop) (good : Color -> Prop).
Hypothesis Q_push : forall k e ref, Q k e -> Q k (push_ref ref e).
Hypothesis Q_new : forall c, good c ->
  Q (toHex (r c) (g c) (b c))
    {| color := c; hex := toHex (r c) (g c) (b c); nodes := [] |}.

Lemma record_paint_inv nid src cm c i :
  good c -> scan_inv Q cm -> scan_inv Q (record_paint nid src cm c i).
Proof.
  intros Hc [Hnd Hq]. unfold record_paint, scan_inv.
  rewrite update_keys.
  destruct (get cm (toHex (r c) (g c) (b c))) as [e |] eqn:Hg.
  - split; [exact Hnd |]. apply update_Forall; [intros; now apply Q_push | exact Hq].
  - rewrite set_absent by exact Hg. split.
    + rewrite map_app. cbn [map fst]. apply NoDup_app. split; [exact Hnd |].
      split; [| apply NoDup_singleton].
      intros k Hk Hk'. apply list_elem_of_singleton in Hk'. subst k.
      apply get_None in Hg. contradiction.
    + apply update_Forall; [intros; now apply Q_push |].
      apply Forall_app. split; [exact Hq |]. constructor; [| constructor].
      apply Q_new, Hc.
Qed.

Lemma forEach_from_inv nid src l i cm :
  Forall good l -> scan_inv Q cm ->
  scan_inv Q (forEach_from (record_paint nid src) i l cm).
Proof.
  intros Hl. revert i cm. induction Hl as [| c l Hc _ IH]; intros i cm Hcm;
    cbn [forEach_from]; [exact Hcm |].
  apply IH, record_paint_inv; assumption.
Qed.

Lemma scan_slot_inv nid src s cm :
  Forall good (extractPaints s) -> scan_inv Q cm -> scan_inv Q (scan_slot nid src s cm).
Proof.
  intros Hs Hcm. unfold scan_slot, forEach.
  destruct s; [exact Hcm | |]; apply forEach_from_inv; assumption.
Qed.

Lemma scanColors_inv nodes :
  Forall (fun n => Forall good (extractPaints (fills n)) /\
                   Forall good (extractPaints (strokes n))) nodes ->
  scan_inv Q (scanColors nodes).
Proof.
  unfold scanColors. intros Hn.
  assert (H0 : scan_inv Q empty) by (split; constructor).
  revert H0. generalize (@empty ColorEntry).
  induction Hn as [| n nodes [Hf Hs] _ IH]; intros cm Hcm; cbn [foldl]; [exact Hcm |].
  apply IH. unfold scan_node. apply scan_slot_inv; [exact Hs |].
  apply scan_slot_inv; assumption.
Qed.

End Preservation.

(** Whatever the document, the scanner stores every entry under the
    entry's own key. *)
Lemma scanColors_keyed nodes : keyed_by_hex (scanColors nodes).
Proof.
  apply (scanColors_inv (fun k e => hex e = k) (fun _ => True)).
  - intros k e ref H. exact H.
  - reflexivity.
  - apply Forall_forall. intros n _. split; apply Forall_forall; intros; exact I.
Qed.

Lemma extractPaints_valid s : valid_slot s -> Forall valid_color (extractPaints s).
Proof.
  destruct s as [| | l]; cbn [extractPaints valid_slot]; [constructor .. |].
  induction 1 as [| p l Hp _ IH]; simpl; [constructor |].
  destruct p as [c props | ty props]; [| exact IH].
  destruct (is_solid_visible (SolidPaint c props)); [| exact IH].
  constructor; [exact Hp | exact IH].
Qed.

(** On a document of valid colours the scanner builds a colour-entry map. *)
Lemma scanColors_color_entry_map nodes :
  Forall valid_node nodes -> color_entry_map (scanColors nodes).
Proof.
  intros Hn. split; [apply scanColors_keyed |].
  apply (scanColors_inv
           (fun k e => hex e = toHex (r (color e)) (g (color e)) (b (color e)) /\
                       valid_color (color e)) valid_color).
  - intros k e ref H. exact H.
  - intros c Hc. split; [reflexivity | exact Hc].
  - eapply Forall_impl; [exact Hn |]. intros n [Hf Hs].
    split; apply extractPaints_valid; assumption.
Qed.

End ScanFacts.

(** ** Grouping *)

Module GroupFacts.

Lemma filter_ext_In {A} (f h : A -> bool) (l : list A) :
  (forall x, In x l -> f x = h x) -> List.filter f l = List.filter h l.
Proof.
  induction l as [| x l IH]; simpl; intros H; [reflexivity |].
  rewrite (H x) by now left. rewrite IH by (intros; apply H; now right).
  reflexivity.
Qed.

Lemma filter_split {A} (f h : A -> bool) (l : list A) :
  List.filter (fun x => f x && h x) l ++ List.filter (fun x => f x && negb (h x)) l
  ≡ₚ List.filter f l.
Proof.
  induction l as [| x l IH]; simpl; [reflexivity |].
  destruct (f x), (h x); simpl; rewrite <- ?Permutation_middle, IH; reflexivity.
Qed.

(** The inner loop appends the entries that join, in order, and assigns
    their keys. *)
Lemma collect_members_spec rep t rest (assigned : gset string) acc :
  NoDup (map hex rest) ->
  collect_members rep t rest assigned acc =
  (acc ++ List.filter (joins rep t assigned) rest,
   assigned ∪ list_to_set (map hex (List.filter (joins rep t assigned) rest))).
Proof.
  revert assigned acc.
  induction rest as [| e rest IH]; intros assigned acc Hnd;
    cbn [collect_members List.filter map].
  - rewrite app_nil_r. f_equal. cbn [map list_to_set]. now rewrite (right_id_L ∅ (∪)).
  - apply NoDup_cons in Hnd as [Hne Hnd'].
    destruct (bool_decide (hex e ∈ assigned)) eqn:Hin.
    + assert (joins rep t assigned e = false) as ->
        by (unfold joins; rewrite Hin; reflexivity).
      apply IH, Hnd'.
    + assert (Hext : List.filter (joins rep t ({[hex e]} ∪ assigned)) rest
                     = List.filter (joins rep t assigned) rest).
      { apply filter_ext_In. intros x Hx. unfold joins. f_equal. f_equal.
        apply bool_decide_ext. split; [| set_solver].
        intros [Heq%elem_of_singleton | ?]%elem_of_union; [| assumption].
        exfalso. apply Hne. rewrite <- Heq. apply list_elem_of_In, in_map, Hx. }
      destruct (Qle_bool (colorDistance (color rep) (color e)) t) eqn:Hw.
      * assert (joins rep t assigned e = true) as ->
          by (unfold joins; rewrite Hin, Hw; reflexivity).
        rewrite IH by exact Hnd'. rewrite Hext, <- app_assoc. cbn [map app].
        f_equal. rewrite list_to_set_cons, (comm_L (∪) {[hex e]} assigned).
        now rewrite (assoc_L (∪)).
      * assert (joins rep t assigned e = false) as ->
          by (unfold joins; rewrite Hin, Hw; reflexivity).
        apply IH, Hnd'.
Qed.

(** The outer loop: the groups built so far, followed by the groups of
    the entries not yet assigned, hold those entries once each. *)
Lemma build_groups_members t entries (assigned : gset string) groups :
  NoDup (map hex entries) ->
  concat (map members (build_groups t entries assigned groups))
  ≡ₚ concat (map members groups) ++ List.filter (unassigned assigned) entries.
Proof.
  revert assigned groups.
  induction entries as [| e rest IH]; intros assigned groups Hnd;
    cbn [build_groups List.filter map].
  - now rewrite app_nil_r.
  - apply NoDup_cons in Hnd as [Hne Hnd'].
    assert (Hfresh : forall x, In x rest -> hex x ≠ hex e).
    { intros x Hx Heq. apply Hne. rewrite <- Heq. apply list_elem_of_In, in_map, Hx. }
    unfold unassigned at 1. destruct (bool_decide (hex e ∈ assigned)) eqn:Hin; cbn [negb].
    + apply IH, Hnd'.
    + rewrite collect_members_spec by exact Hnd'.
      rewrite IH by exact Hnd'.
      rewrite map_app, concat_app. cbn [map concat members].
      rewrite app_nil_r, <- app_assoc. cbn [app].
      apply Permutation_app_head. constructor.
      set (A0 := {[hex e]} ∪ assigned).
      set (F := List.filter (joins e t A0) rest).
      assert (H1 : F = List.filter (fun x => unassigned assigned x
                     && Qle_bool (colorDistance (color e) (color x)) t) rest).
      { apply filter_ext_In. intros x Hx. unfold joins, unassigned. f_equal. f_equal.
        apply bool_decide_ext. unfold A0. split; [| set_solver].
        intros [Heq%elem_of_singleton | ?]%elem_of_union; [| assumption].
        exfalso. exact (Hfresh x Hx Heq). }
      assert (H2 : List.filter (unassigned (A0 ∪ list_to_set (map hex F))) rest
                   = List.filter (fun x => unassigned assigned x
                       && negb (Qle_bool (colorDistance (color e) (color x)) t)) rest).
      { apply filter_ext_In. intros x Hx. unfold unassigned.
        destruct (bool_decide (hex x ∈ assigned)) eqn:Hxa; cbn [negb andb].
        - apply bool_decide_eq_true in Hxa.
          apply negb_false_iff, bool_decide_eq_true. unfold A0. set_solver.
        - apply bool_decide_eq_false in Hxa.
          destruct (Qle_bool (colorDistance (color e) (color x)) t) eqn:Hw; cbn [negb].
          + apply negb_false_iff, bool_decide_eq_true.
            apply elem_of_union_r, elem_of_list_to_set, list_elem_of_In, in_map.
            rewrite H1. apply filter_In. split; [exact Hx |].
            unfold unassigned. rewrite Hw, andb_true_r.
            apply negb_true_iff, bool_decide_eq_false, Hxa.
          + apply negb_true_iff, bool_decide_eq_false.
            intros [[Heq%elem_of_singleton | ?]%elem_of_union | Hin']%elem_of_union;
              [exact (Hfresh x Hx Heq) | contradiction |].
            apply elem_of_list_to_set, list_elem_of_In, in_map_iff in Hin'.
            destruct Hin' as (y & Hy & Hyin). rewrite H1 in Hyin.
            apply filter_In in Hyin. destruct Hyin as [Hyin Hyw].
            assert (y = x) as ->.
            { clear - Hnd' Hy Hyin Hx.
              induction rest as [| z rest IH]; [contradiction |].
              apply NoDup_cons in Hnd' as [Hz Hnd''].
              destruct Hyin as [-> | Hyin], Hx as [-> | Hx]; try reflexivity.
              - exfalso. apply Hz. rewrite Hy. apply list_elem_of_In, in_map, Hx.
              - exfalso. apply Hz. rewrite <- Hy. apply list_elem_of_In, in_map, Hyin.
              - now apply IH. }
            apply andb_true_iff in Hyw. destruct Hyw as [_ Hyw]. congruence. }
      rewrite H1 at 1. rewrite H2. apply filter_split.
Qed.

(** With threshold 0 no entry of another key joins a representative. *)
Lemma joins_zero_false rep e (assigned : gset string) :
  valid_color (color rep) -> valid_color (color e) ->
  hex rep = toHex (r (color rep)) (g (color rep)) (b (color rep)) ->
  hex e = toHex (r (color e)) (g (color e)) (b (color e)) ->
  hex rep ∈ assigned ->
  joins rep 0 assigned e = false.
Proof.
  intros Vr Ve Hr He Hin. unfold joins.
  destruct (bool_decide (hex e ∈ assigned)) eqn:Hd; [reflexivity |]. cbn [negb andb].
  destruct (Qle_bool (colorDistance (color rep) (color e)) 0) eqn:Hw; [| reflexivity].
  apply Qle_bool_iff in Hw.
  pose proof (CodecFacts.distance_zero_same_key _ _ Vr Ve Hw) as Hk.
  rewrite <- Hr, <- He in Hk. apply bool_decide_eq_false in Hd.
  exfalso. apply Hd. rewrite <- Hk. exact Hin.
Qed.

Lemma build_groups_zero entries (assigned : gset string) groups :
  NoDup (map hex entries) ->
  Forall described entries ->
  (forall e, In e entries -> hex e ∉ assigned) ->
  build_groups 0 entries assigned groups = groups ++ map singleton_group entries.
Proof.
  revert assigned groups.
  induction entries as [| e rest IH]; intros assigned groups Hnd Hd Hfr;
    cbn [build_groups map].
  - now rewrite app_nil_r.
  - apply NoDup_cons in Hnd as [Hne Hnd']. apply Forall_cons in Hd as [[He Ve] Hd'].
    rewrite bool_decide_eq_false_2 by (apply Hfr; now left).
    rewrite collect_members_spec by exact Hnd'.
    assert (List.filter (joins e 0 ({[hex e]} ∪ assigned)) rest = []) as ->.
    { rewrite (filter_ext_In _ (fun _ => false)).
      - clear. induction rest; [reflexivity | assumption].
      - intros x Hx. rewrite Forall_forall in Hd'.
        destruct (Hd' x) as [Hxh Hxv]; [apply list_elem_of_In, Hx |].
        apply joins_zero_false; try assumption. set_solver. }
    cbn [map list_to_set app]. rewrite IH; [| exact Hnd' | exact Hd' |].
    + rewrite <- app_assoc. reflexivity.
    + intros x Hx.
      assert (hex x ≠ hex e).
      { intros Heq. apply Hne. rewrite <- Heq. apply list_elem_of_In, in_map, Hx. }
      assert (hex x ∉ assigned) by (apply Hfr; now right).
      intros Hin. apply elem_of_union in Hin as [Hin | Hin];
        [| exact (not_elem_of_empty _ Hin)].
      apply elem_of_union in Hin as [Hs | Ha]; [| contradiction].
      apply elem_of_singleton in Hs. contradiction.
Qed.

End GroupFacts.

(** ** Sorting *)

Module SortFacts.

Section ByKey.
Context {A : Type} (key : A -> nat).

Lemma sort_insert_perm x l : sort_insert (desc key) x l ≡ₚ x :: l.
Proof.
  induction l as [| y l IH]; cbn [sort_insert]; [reflexivity |].
  destruct (desc key x y <=? 0)%Z; [reflexivity |].
  rewrite IH. apply perm_swap.
Qed.

Lemma sort_perm l : sort (desc key) l ≡ₚ l.
Proof.
  unfold sort. induction l as [| x l IH]; cbn [foldr]; [reflexivity |].
  rewrite sort_insert_perm, IH. reflexivity.
Qed.

Lemma sort_insert_sorted x l :
  StronglySorted (ge_key key) l -> StronglySorted (ge_key key) (sort_insert (desc key) x l).
Proof.
  induction 1 as [| y l Hs IH Hy]; cbn [sort_insert].
  - repeat constructor.
  - destruct (desc key x y <=? 0)%Z eqn:Hc.
    + apply Z.leb_le in Hc. unfold desc in Hc.
      constructor; [constructor; assumption |].
      constructor; [unfold ge_key; lia |].
      eapply Forall_impl; [exact Hy |]. unfold ge_key. intros z Hz. lia.
    + apply Z.leb_gt in Hc. unfold desc in Hc.
      constructor; [exact IH |].
      rewrite sort_insert_perm. constructor; [unfold ge_key; lia | exact Hy].
Qed.

Lemma sort_sorted l : StronglySorted (ge_key key) (sort (desc key) l).
Proof.
  unfold sort. induction l as [| x l IH]; cbn [foldr]; [constructor |].
  apply sort_insert_sorted, IH.
Qed.

Lemma sort_insert_stable n x l :
  List.filter (has_key key n) (sort_insert (desc key) x l) = List.filter (has_key key n) (x :: l).
Proof.
  induction l as [| y l IH]; cbn [sort_insert]; [reflexivity |].
  destruct (desc key x y <=? 0)%Z eqn:Hc; [reflexivity |].
  apply Z.leb_gt in Hc. unfold desc in Hc.
  cbn [List.filter] in *. rewrite IH. unfold has_key.
  destruct (key x =? n)%nat eqn:Hx, (key y =? n)%nat eqn:Hy; try reflexivity.
  apply Nat.eqb_eq in Hx, Hy. lia.
Qed.

(** Elements of equal key keep their relative order. *)
Lemma sort_stable n l :
  List.filter (has_key key n) (sort (desc key) l) = List.filter (has_key key n) l.
Proof.
  unfold sort. induction l as [| x l IH]; cbn [foldr]; [reflexivity |].
  rewrite sort_insert_stable. cbn [List.filter]. now rewrite IH.
Qed.

End ByKey.

End SortFacts.


(** ** The merge applier *)

Module MergeFacts.

Local Open Scope host_scope.

Lemma for_of_app {A St} (body : St -> A -> M St) l1 l2 s σ :
  for_of body (l1 ++ l2) s σ =
  (s' <- for_of body l1 s ;; for_of body l2 s') σ.
Proof.
  revert s σ. induction l1 as [| x l1 IH]; intros s σ; cbn [for_of app].
  - reflexivity.
  - unfold bind in *. destruct (body s x σ) as [[e | s1] σ1]; [reflexivity |].
    apply IH.
Qed.

(** A loop whose body is a loop is a loop over the concatenation. *)
Lemma for_of_nested {A B St} (body : St -> B -> M St) (f : A -> list B) l s σ :
  for_of (fun s x => for_of body (f x) s) l s σ =
  for_of body (concat (map f l)) s σ.
Proof.
  revert s σ. induction l as [| x l IH]; intros s σ; cbn [for_of map concat].
  - reflexivity.
  - rewrite for_of_app. unfold bind.
    destruct (for_of body (f x) s σ) as [[e | s1] σ1]; [reflexivity | apply IH].
Qed.

Lemma for_of_ext {A St} (body1 body2 : St -> A -> M St) l s σ :
  (forall s x σ, body1 s x σ = body2 s x σ) ->
  for_of body1 l s σ = for_of body2 l s σ.
Proof.
  intros H. revert s σ. induction l as [| x l IH]; intros s σ; cbn [for_of].
  - reflexivity.
  - unfold bind. rewrite H. destruct (body2 s x σ) as [[e | s1] σ1]; [reflexivity | apply IH].
Qed.

(** One reference: the counter moves exactly when the slot can be
    rewritten, and nothing is thrown. *)
Lemma merge_ref_outcome targetColor changed ref σ :
  merge_ref targetColor changed ref σ =
  if can_rewrite σ ref
  then (inr (S changed), rewritten targetColor σ ref)
  else (inr changed, σ).
Proof.
  unfold merge_ref, can_rewrite, rewritten, bind, getNodeByIdAsync, find_node.
  destruct (list_find (fun n => id n = nodeId ref) (page σ)) as [[ix n] |] eqn:Hf;
    [| reflexivity].
  apply list_find_Some in Hf as (Hix & _ & _).
  unfold try_catch, rewrite_slot.
  destruct (get_slot (source ref) n) as [| | l]; try reflexivity.
  destruct (l !! index ref) as [[c props | ty props] |]; try reflexivity.
  unfold bind, assign_paints. rewrite Hix.
  destruct (writable n); reflexivity.
Qed.

Lemma for_of_refs targetColor refs changed σ :
  for_of (merge_ref targetColor) refs changed σ =
  (inr (changed + successes (run_batch targetColor refs σ).1)%nat,
   (run_batch targetColor refs σ).2).
Proof.
  revert changed σ. induction refs as [| ref refs IH]; intros changed σ;
    cbn [for_of run_batch].
  - unfold ret, successes. cbn. f_equal. f_equal. lia.
  - unfold bind. rewrite merge_ref_outcome.
    destruct (can_rewrite σ ref); rewrite IH;
      destruct (run_batch targetColor refs _) as [oks σ'];
      unfold successes; cbn; f_equal; f_equal; lia.
Qed.

Lemma applyMerge_run groups targetHex σ :
  applyMerge groups targetHex σ =
  (inr (successes (run_batch (hexToRgb targetHex) (all_refs groups) σ).1),
   (run_batch (hexToRgb targetHex) (all_refs groups) σ).2).
Proof.
  unfold applyMerge, all_refs.
  rewrite (for_of_ext _ (fun s gr =>
             for_of (merge_ref (hexToRgb targetHex))
               (concat (map nodes (members gr))) s))
    by (intros; apply for_of_nested).
  rewrite for_of_nested, for_of_refs. reflexivity.
Qed.

Lemma run_batch_length targetColor refs σ :
  length (run_batch targetColor refs σ).1 = length refs.
Proof.
  revert σ. induction refs as [| ref refs IH]; intros σ; cbn [run_batch].
  - reflexivity.
  - specialize (IH (if can_rewrite σ ref then rewritten targetColor σ ref else σ)).
    destruct (run_batch targetColor refs _) as [oks σ']. cbn in *. now rewrite IH.
Qed.

Lemma rewritten_frame targetColor σ ref :
  styles (rewritten targetColor σ ref) = styles σ /\
  posted (rewritten targetColor σ ref) = posted σ /\
  closed (rewritten targetColor σ ref) = closed σ.
Proof.
  unfold rewritten. destruct (find_node σ (nodeId ref)) as [[ix n] |]; [| easy].
  destruct (get_slot (source ref) n) as [| | l]; try easy.
  destruct (l !! index ref); easy.
Qed.

(** The batch touches the page only. *)
Lemma run_batch_frame targetColor refs σ :
  styles (run_batch targetColor refs σ).2 = styles σ /\
  posted (run_batch targetColor refs σ).2 = posted σ /\
  closed (run_batch targetColor refs σ).2 = closed σ.
Proof.
  revert σ. induction refs as [| ref refs IH]; intros σ; cbn [run_batch]; [easy |].
  specialize (IH (if can_rewrite σ ref then rewritten targetColor σ ref else σ)).
  destruct (run_batch targetColor refs _) as [oks σ']. cbn in *.
  destruct (can_rewrite σ ref); [| exact IH].
  destruct (rewritten_frame targetColor σ ref) as (E1 & E2 & E3).
  rewrite E1, E2, E3 in IH. exact IH.
Qed.

Lemma run_batch_nil targetColor σ : run_batch targetColor [] σ = ([], σ).
Proof. reflexivity. Qed.

End MergeFacts.

(** ** The message handler *)

Module HandlerFacts.

Local Open Scope host_scope.

Lemma insert_last {A} (l : list A) x y : <[length l := y]> (l ++ [x]) = l ++ [y].
Proof. induction l as [| z l IH]; simpl; [reflexivity | f_equal; exact IH]. Qed.

Lemma lookup_last {A} (l : list A) x : (l ++ [x]) !! length l = Some x.
Proof. induction l as [| z l IH]; simpl; [reflexivity | exact IH]. Qed.

(** A merge message always ends with [merge-done]: the page is the one
    the batch leaves, a style is appended when the name is truthy. *)
Lemma on_merge_result threshold groupIndices targetHex styleName σ :
  let run := run_batch (hexToRgb targetHex)
               (all_refs (merge_selection σ threshold groupIndices)) σ in
  on_merge threshold groupIndices targetHex styleName σ =
  (inr tt,
   {| page := page run.2;
      styles := styles σ ++
                (if truthy styleName
                 then [target_style (default "" styleName) targetHex] else []);
      posted := posted σ ++
                [merge_done (successes run.1) (truthy styleName) styleName];
      closed := closed σ |}).
Proof.
  intros run. unfold on_merge, try_catch, bind at 1, getAllNodes.
  unfold bind at 1. rewrite MergeFacts.applyMerge_run.
  fold (merge_selection σ threshold groupIndices). fold run.
  destruct (MergeFacts.run_batch_frame (hexToRgb targetHex)
              (all_refs (merge_selection σ threshold groupIndices)) σ)
    as (E1 & E2 & E3).
  fold run in E1, E2, E3. destruct run as [oks σ1]. cbn [fst snd] in *.
  destruct (truthy styleName).
  - unfold bind, createPaintStyle, set_style_name, set_style_paints, update_style,
      postMessage, ret. cbn [styles page posted closed].
    rewrite lookup_last, insert_last, lookup_last, insert_last.
    cbn [style_name style_paints]. rewrite E1, E2, E3. reflexivity.
  - unfold bind, postMessage, ret. rewrite app_nil_r, E1, E2, E3. reflexivity.
Qed.

(** An index outside the cluster sequence selects nothing. *)
Lemma nth_group_out_of_range allGroups i :
  in_range allGroups i = false -> nth_group allGroups i = None.
Proof.
  unfold in_range, nth_group. intros H.
  destruct (i <? 0)%Z eqn:Hneg; [reflexivity |].
  apply Z.ltb_ge in Hneg. apply lookup_ge_None.
  apply andb_false_iff in H as [H | H]; [apply Z.leb_gt in H | apply Z.ltb_ge in H]; lia.
Qed.

Lemma select_groups_app allGroups l1 l2 :
  select_groups allGroups (l1 ++ l2) =
  select_groups allGroups l1 ++ select_groups allGroups l2.
Proof. unfold select_groups. apply omap_app. Qed.

Lemma select_groups_drop allGroups l1 i l2 :
  in_range allGroups i = false ->
  select_groups allGroups (l1 ++ i :: l2) = select_groups allGroups (l1 ++ l2).
Proof.
  intros H. rewrite !select_groups_app. f_equal.
  unfold select_groups. simpl. now rewrite nth_group_out_of_range.
Qed.

End HandlerFacts.

(** ** Decoding, byte by byte *)

Module DecodeFacts.
Import JsString.

Local Open Scope Z_scope.

Lemma byte_at_div n sh : 0 <= sh -> byte_at n sh = (n / 2 ^ sh) mod 256.
Proof.
  intros Hsh. unfold byte_at. change 255 with (Z.ones 8).
  rewrite Z.land_ones, Z.shiftr_div_pow2 by lia. reflexivity.
Qed.

(** Adding a multiple of [2^32] leaves the three low bytes as they are. *)
Lemma low_bytes_wrap i k :
  ((i + 4294967296 * k) / 65536) mod 256 = (i / 65536) mod 256 /\
  ((i + 4294967296 * k) / 256) mod 256 = (i / 256) mod 256 /\
  (i + 4294967296 * k) mod 256 = i mod 256.
Proof.
  repeat split.
  - replace (i + 4294967296 * k) with (i + (65536 * k) * 65536) by lia.
    rewrite Z.div_add by lia.
    replace (i / 65536 + 65536 * k) with (i / 65536 + (256 * k) * 256) by lia.
    apply Z_mod_plus_full.
  - replace (i + 4294967296 * k) with (i + (16777216 * k) * 256) by lia.
    rewrite Z.div_add by lia.
    replace (i / 256 + 16777216 * k) with (i / 256 + (65536 * k) * 256) by lia.
    apply Z_mod_plus_full.
  - replace (i + 4294967296 * k) with (i + (16777216 * k) * 256) by lia.
    apply Z_mod_plus_full.
Qed.

(** [ToInt32] keeps the three low bytes of the integer part. *)
Lemma ToInt32_wrap q :
  exists k, ToInt32 (Finite q) = Z.quot (Qnum q) (Zpos (Qden q)) + 4294967296 * k.
Proof.
  unfold ToInt32. set (i := Z.quot (Qnum q) (Zpos (Qden q))).
  change (2 ^ 32) with 4294967296. change (2 ^ 31) with 2147483648.
  pose proof (Z.div_mod i 4294967296 ltac:(lia)) as Hd.
  destruct (2147483648 <=? i mod 4294967296).
  - exists (- (i / 4294967296) - 1). lia.
  - exists (- (i / 4294967296)). lia.
Qed.

(** The channels are the bytes of the number [parseInt] returned. *)
Lemma hexToRgb_Finite hex q :
  parseInt16 (remove_first "#" hex) = Finite q ->
  hexToRgb hex = color_of_bytes (Z.quot (Qnum q) (Zpos (Qden q))).
Proof.
  intros H. unfold hexToRgb. rewrite H.
  destruct (ToInt32_wrap q) as [k ->].
  set (i := Z.quot (Qnum q) (Zpos (Qden q))).
  destruct (low_bytes_wrap i k) as (B1 & B2 & B3).
  unfold color_of_bytes. rewrite !byte_at_div by lia.
  change (2 ^ 16) with 65536. change (2 ^ 8) with 256.
  change (Z.land (i + 4294967296 * k) 255) with (Z.land (i + 4294967296 * k) (Z.ones 8)).
  rewrite Z.land_ones by lia. change (2 ^ 8) with 256.
  rewrite B1, B2, B3. reflexivity.
Qed.

Lemma hexToRgb_not_Finite hex :
  (forall q, parseInt16 (remove_first "#" hex) <> Finite q) ->
  hexToRgb hex = {| r := 0; g := 0; b := 0; a := None |}.
Proof.
  intros H. unfold hexToRgb.
  destruct (parseInt16 (remove_first "#" hex)) as [| neg | q];
    [reflexivity | reflexivity | now destruct (H q)].
Qed.

Lemma number_of_small N : Z.abs N < 2 ^ 53 -> number_of_Z N = Finite (inject_Z N).
Proof.
  intros H. unfold number_of_Z.
  assert ((Z.abs N <? 2 ^ 53) = true) as -> by (apply Z.ltb_lt; exact H). reflexivity.
Qed.

(** An integer below [2^53] is decoded to its own bytes. *)
Lemma hexToRgb_parsed hex N :
  parseInt16_math (remove_first "#" hex) = Some N -> Z.abs N < 2 ^ 53 ->
  hexToRgb hex = color_of_bytes N.
Proof.
  intros HN Hlt.
  rewrite (hexToRgb_Finite hex (inject_Z N)).
  - unfold inject_Z. cbn [Qnum Qden]. now rewrite Z.quot_1_r.
  - unfold parseInt16. rewrite HN. apply number_of_small, Hlt.
Qed.

(** What a hexadecimal digit character is not. *)
Lemma digit_char c d : digit16 c = Some d ->
  0 <= d < 16 /\ is_space c = false /\
  Ascii.eqb c "-" = false /\ Ascii.eqb c "+" = false.
Proof.
  destruct c as [[] [] [] [] [] [] [] []]; vm_compute; intros H;
    first [discriminate H | injection H as <-; repeat split; discriminate].
Qed.

Lemma positional16_bound s :
  0 <= positional16 (hex_prefix s) < 16 ^ Z.of_nat (length (hex_prefix s)).
Proof.
  induction s as [| c s IH]; cbn [hex_prefix]; [cbn; lia |].
  destruct (digit16 c) as [d |] eqn:Hd; [| cbn; lia].
  destruct (digit_char c d Hd) as (Hr & _).
  cbn [positional16 length]. rewrite Nat2Z.inj_succ, Z.pow_succ_r by lia.
  set (p := 16 ^ Z.of_nat (length (hex_prefix s))) in *. nia.
Qed.

(** [parseInt] accumulates the digits of the longest prefix. *)
Lemma parse_digits_prefix s seen acc :
  parse_digits s seen acc =
  match hex_prefix s with
  | [] => if seen then Some acc else None
  | ds => Some (acc * 16 ^ Z.of_nat (length ds) + positional16 ds)
  end.
Proof.
  revert seen acc. induction s as [| c s IH]; intros seen acc;
    cbn [parse_digits hex_prefix]; [reflexivity |].
  destruct (digit16 c) as [d |]; [| reflexivity].
  rewrite IH. destruct (hex_prefix s) as [| d' ds].
  - cbn. f_equal. lia.
  - f_equal. cbn [positional16 length].
    rewrite !Nat2Z.inj_succ, !Z.pow_succ_r by lia. ring.
Qed.

Lemma prefix2 c1 c2 s a1 a2 :
  String.prefix (String a1 (String a2 EmptyString)) (String c1 (String c2 s)) =
  (Ascii.eqb c1 a1 && Ascii.eqb c2 a2)%bool.
Proof.
  cbn [String.prefix].
  destruct (ascii_dec a1 c1) as [<- | H1].
  - rewrite Ascii.eqb_refl. destruct (ascii_dec a2 c2) as [<- | H2].
    + rewrite Ascii.eqb_refl. now destruct s.
    + destruct (Ascii.eqb_spec c2 a2); [congruence | reflexivity].
  - destruct (Ascii.eqb_spec c1 a1); [congruence | reflexivity].
Qed.

Lemma strip_0x_none s :
  String.prefix "0x" s = false -> String.prefix "0X" s = false -> strip_0x s = s.
Proof.
  destruct s as [| c1 [| c2 s']]; try reflexivity.
  rewrite !prefix2. cbn [strip_0x]. intros H1 H2.
  destruct (Ascii.eqb c1 "0"); [| reflexivity]. cbn [andb] in *.
  now rewrite H1, H2.
Qed.

(** A string that starts with a digit, and not with [0x], is read as the
    integer its leading digits denote. *)
Lemma parseInt16_led c rest :
  is_Some (digit16 c) ->
  String.prefix "0x" (String c rest) = false ->
  String.prefix "0X" (String c rest) = false ->
  parseInt16_math (String c rest) = Some (positional16 (hex_prefix (String c rest))).
Proof.
  intros [d Hd] H1 H2. destruct (digit_char c d Hd) as (_ & Hs & Hm & Hp).
  unfold parseInt16_math. cbn [trim_start]. rewrite Hs.
  unfold strip_sign. rewrite Hm, Hp. rewrite (strip_0x_none _ H1 H2).
  rewrite parse_digits_prefix. cbn [hex_prefix]. rewrite Hd.
  f_equal. lia.
Qed.

End DecodeFacts.

(** ** The scenarios of the specification, evaluated *)

Module Scenarios.
Import Samples.

(** Scenario A: two near-reds, threshold 20: one group of total count 2. *)
Example scenario_A :
  reply (scan (Some 20%Q)) two_reds =
  [scan_result
     [{| payload_representative := "FF0000";
         payload_members := [("FF0000", 1%nat); ("FE0101", 1%nat)];
         payload_totalCount := 2 |}] 20].
Proof. vm_compute. reflexivity. Qed.

(** Scenario B: the same document, threshold 0: two groups of count 1. *)
Example scenario_B :
  reply (scan (Some 0%Q)) two_reds =
  [scan_result
     [{| payload_representative := "FF0000";
         payload_members := [("FF0000", 1%nat)]; payload_totalCount := 1 |};
      {| payload_representative := "FE0101";
         payload_members := [("FE0101", 1%nat)]; payload_totalCount := 1 |}] 0].
Proof. vm_compute. reflexivity. Qed.

(** Scenario C: merging group 0 into green changes both fills. *)
Example scenario_C :
  onmessage (merge None [0%Z] "#00FF00" None) (document two_reds) =
  (inr tt,
   {| page := [ node "1:1" (Paints [SolidPaint (hexToRgb "00FF00") plain]) (Paints []);
                node "1:2" (Paints [SolidPaint (hexToRgb "00FF00") plain]) (Paints []) ];
      styles := []; posted := [merge_done 2 false None]; closed := false |}).
Proof. vm_compute. reflexivity. Qed.

(** Scenario E: an empty document has no groups. *)
Example scenario_E : reply (scan None) [] = [scan_result [] 20].
Proof. vm_compute. reflexivity. Qed.

(** Scenario F: a mixed fill list contributes nothing. *)
Example scenario_F :
  scanColors [node "5:1" Mixed Absent] = JsObject.empty.
Proof. reflexivity. Qed.

(** A batch over a missing node, a node that refuses the write, a slot
    that holds an image and two slots that can be rewritten: the two are
    rewritten and counted, the others are skipped. *)
Example batch_with_failures :
  let refs := [ {| nodeId := "9:9"; source := fill; index := 0 |};
                {| nodeId := "4:2"; source := fill; index := 0 |};
                {| nodeId := "4:3"; source := fill; index := 0 |};
                {| nodeId := "4:1"; source := fill; index := 0 |};
                {| nodeId := "4:3"; source := stroke; index := 0 |} ] in
  let entry := {| color := red; hex := "FF0000"; nodes := refs |} in
  let '(result, σ) :=
    applyMerge [{| representative := entry; members := [entry] |}] "0000FF"
      (document with_locked) in
  result = inr 2%nat /\
  (run_batch blue refs (document with_locked)).1 = [false; false; false; true; true] /\
  page σ =
    [ node "4:1" (Paints [SolidPaint blue plain]) (Paints []);
      {| id := "4:2"; fills := Paints [SolidPaint red plain]; strokes := Absent;
         writable := false |};
      node "4:3" (Paints [OtherPaint IMAGE plain]) (Paints [SolidPaint blue plain]) ].
Proof. vm_compute. repeat split. Qed.

(** Keys that are array indices come first in [Object.values]. *)
Example values_order :
  map hex (JsObject.values
             (scanColors [node "6:1" (Paints [SolidPaint red plain;
                                               SolidPaint (hexToRgb "123456") plain])
                            Absent])) =
  ["123456"; "FF0000"]%string.
Proof. vm_compute. reflexivity. Qed.

(** Malformed keys decode without an error. *)
Example malformed_keys :
  hexToRgb "zz" = {| r := 0; g := 0; b := 0; a := None |} /\
  hexToRgb "FFF" = {| r := 0; g := F64.fdiv 15 255; b := 1; a := None |} /\
  hexToRgb "#ff0000ff" = {| r := 0; g := 0; b := 1; a := None |}.
Proof. vm_compute. repeat split. Qed.

End Scenarios.

(** * The properties of the specification *)

Local Open Scope Q_scope.

(** C10.  For every colour whose channels lie in [0,1], each channel of
    [hexToRgb (toHex c)] differs from the channel of [c] by at most 1/255. *)
Theorem decode_encode_within (c : Color) :
  0 <= r c <= 1 -> 0 <= g c <= 1 -> 0 <= b c <= 1 ->
  let c' := hexToRgb (toHex (r c) (g c) (b c)) in
  Qabs (r c' - r c) <= 1 # 255 /\
  Qabs (g c' - g c) <= 1 # 255 /\
  Qabs (b c' - b c) <= 1 # 255.
Proof.
  intros Hr Hg Hb.
  destruct (CodecFacts.round_channel _ Hr) as [Kr Er].
  destruct (CodecFacts.round_channel _ Hg) as [Kg Eg].
  destruct (CodecFacts.round_channel _ Hb) as [Kb Eb].
  rewrite CodecFacts.toHex_bytes, CodecFacts.hexToRgb_bytes by assumption.
  cbn [r g b].
  repeat split; apply CodecFacts.decode_channel; assumption.
Qed.

Lemma decode_encode_within_witness :
  let c := {| r := 1 # 2; g := 1 # 3; b := 1; a := None |} in
  let c' := hexToRgb (toHex (r c) (g c) (b c)) in
  Qabs (r c' - r c) <= 1 # 255 /\
  Qabs (g c' - g c) <= 1 # 255 /\
  Qabs (b c' - b c) <= 1 # 255.
Proof.
  apply (decode_encode_within {| r := 1 # 2; g := 1 # 3; b := 1; a := None |});
    cbn [r g b]; split; discriminate.
Defined.

Local Close Scope Q_scope.

Lemma concat_NoDup_unique {A} (ls : list (list A)) x i j li lj :
  NoDup (concat ls) -> ls !! i = Some li -> ls !! j = Some lj ->
  x ∈ li -> x ∈ lj -> i = j.
Proof.
  revert i j. induction ls as [| l ls IH]; intros i j Hnd Hi Hj Hxi Hxj.
  - discriminate.
  - cbn [concat] in Hnd. apply NoDup_app in Hnd as (_ & Hdis & Hnd').
    assert (Hin : forall k lk, ls !! k = Some lk -> x ∈ lk -> x ∈ concat ls).
    { intros k lk Hk Hx. apply list_elem_of_In, in_concat. exists lk.
      split; apply list_elem_of_In; [eapply list_elem_of_lookup_2, Hk | exact Hx]. }
    destruct i as [| i], j as [| j]; cbn in Hi, Hj.
    + reflexivity.
    + injection Hi as <-. exfalso. eapply Hdis; [exact Hxi | eapply Hin; eassumption].
    + injection Hj as <-. exfalso. eapply Hdis; [exact Hxj | eapply Hin; eassumption].
    + f_equal. eapply IH; eassumption.
Qed.

(** C4.  For every colour-entry map and threshold, [groupSimilarColors]
    partitions the entries: the members of all clusters together are the
    input entries, each once, and no entry is in two clusters. *)
Theorem groups_partition_entries (colorMap : JsObject.t ColorEntry) (threshold : Q) :
  keyed_by_hex colorMap ->
  let gs := groupSimilarColors colorMap threshold in
  concat (map members gs) ≡ₚ map snd colorMap /\
  NoDup (concat (map members gs)) /\
  (forall e i j gi gj,
      gs !! i = Some gi -> gs !! j = Some gj ->
      e ∈ members gi -> e ∈ members gj -> i = j).
Proof.
  intros Hk gs.
  pose proof (JsObjectFacts.keyed_values_NoDup colorMap Hk) as Hnd.
  assert (Hp : concat (map members gs) ≡ₚ map snd colorMap).
  { unfold gs, groupSimilarColors, discovered_groups.
    rewrite (SortFacts.sort_perm totalCount).
    rewrite GroupFacts.build_groups_members by exact Hnd.
    cbn [map concat app]. rewrite <- JsObjectFacts.values_perm.
    rewrite (GroupFacts.filter_ext_In _ (fun _ => true)).
    - clear. induction (JsObject.values colorMap) as [| x l IH]; [reflexivity |].
      cbn [List.filter]. now rewrite IH.
    - intros x _. unfold unassigned. rewrite bool_decide_eq_false_2 by set_solver.
      reflexivity. }
  assert (Hn : NoDup (concat (map members gs))).
  { rewrite Hp, <- JsObjectFacts.values_perm. eapply NoDup_fmap_1, Hnd. }
  split; [exact Hp |]. split; [exact Hn |].
  intros e i j gi gj Hi Hj Hei Hej.
  apply (concat_NoDup_unique (map members gs) e i j (members gi) (members gj) Hn);
    [| | exact Hei | exact Hej].
  - rewrite list_lookup_fmap, Hi. reflexivity.
  - rewrite list_lookup_fmap, Hj. reflexivity.
Qed.

Lemma groups_partition_entries_witness :
  let colorMap := scanColors Samples.three_colors in
  let gs := groupSimilarColors colorMap 20 in
  concat (map members gs) ≡ₚ map snd colorMap /\
  NoDup (concat (map members gs)) /\
  (forall e i j gi gj,
      gs !! i = Some gi -> gs !! j = Some gj ->
      e ∈ members gi -> e ∈ members gj -> i = j).
Proof.
  apply (groups_partition_entries (scanColors Samples.three_colors) 20).
  split.
  - apply (bool_decide_unpack _). vm_compute. exact I.
  - vm_compute. repeat constructor.
Defined.

(** C8.  For every input map and threshold, the clusters come out sorted
    by descending [totalCount], the sum of the members' reference counts,
    and clusters of equal [totalCount] keep the order in which the loops
    discovered them. *)
Theorem groups_sorted_stable (colorMap : JsObject.t ColorEntry) (threshold : Q) :
  let gs := groupSimilarColors colorMap threshold in
  StronglySorted (fun g1 g2 => (totalCount g2 <= totalCount g1)%nat) gs /\
  gs ≡ₚ discovered_groups colorMap threshold /\
  (forall n,
      List.filter (fun gr => (totalCount gr =? n)%nat) gs =
      List.filter (fun gr => (totalCount gr =? n)%nat)
        (discovered_groups colorMap threshold)) /\
  Forall (fun gr =>
            totalCount gr = list_sum (map (fun m => length (nodes m)) (members gr))) gs.
Proof.
  intros gs. unfold gs, groupSimilarColors.
  split; [apply (SortFacts.sort_sorted totalCount) |].
  split; [apply (SortFacts.sort_perm totalCount) |].
  split; [intros n; apply (SortFacts.sort_stable totalCount) |].
  apply Forall_forall. intros gr _. unfold totalCount.
  assert (H : forall l acc,
             foldl (fun s m => (s + length (nodes m))%nat) acc l =
             (acc + list_sum (map (fun m => length (nodes m)) l))%nat).
  { induction l as [| m l IH]; intros acc; simpl; [lia | rewrite IH; lia]. }
  apply H.
Qed.

(** C9.  For every colour-entry map, clustering with threshold 0 gives one
    cluster per key: as many clusters as entries, each holding its
    representative alone. *)
Theorem threshold_zero_one_cluster_per_key (colorMap : JsObject.t ColorEntry) :
  color_entry_map colorMap ->
  let gs := groupSimilarColors colorMap 0 in
  length gs = length colorMap /\
  Forall (fun gr => members gr = [representative gr]) gs /\
  map representative gs ≡ₚ map snd colorMap.
Proof.
  intros [Hk Hd] gs.
  pose proof (JsObjectFacts.keyed_values_NoDup colorMap Hk) as Hnd.
  assert (Hdesc : Forall described (JsObject.values colorMap)).
  { rewrite JsObjectFacts.values_perm. apply Forall_fmap.
    eapply Forall_impl; [exact Hd |]. intros kv H. exact H. }
  assert (Hgs : gs ≡ₚ map singleton_group (JsObject.values colorMap)).
  { unfold gs, groupSimilarColors, discovered_groups.
    rewrite (SortFacts.sort_perm totalCount).
    rewrite GroupFacts.build_groups_zero; [reflexivity | exact Hnd | exact Hdesc |].
    intros e _. set_solver. }
  split; [| split].
  - rewrite Hgs, length_map, JsObjectFacts.values_perm, length_map. reflexivity.
  - rewrite Hgs. apply Forall_fmap, Forall_forall. intros e _. reflexivity.
  - rewrite Hgs, <- JsObjectFacts.values_perm.
    rewrite <- list_fmap_compose.
    clear. induction (JsObject.values colorMap) as [| x l IH]; [reflexivity |].
    cbn. now rewrite IH.
Qed.

Lemma threshold_zero_one_cluster_per_key_witness :
  let colorMap := scanColors Samples.two_reds in
  let gs := groupSimilarColors colorMap 0 in
  length gs = length colorMap /\
  Forall (fun gr => members gr = [representative gr]) gs /\
  map representative gs ≡ₚ map snd colorMap.
Proof.
  apply (threshold_zero_one_cluster_per_key (scanColors Samples.two_reds)).
  let v := eval vm_compute in (scanColors Samples.two_reds) in
  change (scanColors Samples.two_reds) with v.
  split; [split |].
  - apply (bool_decide_unpack _). vm_compute. exact I.
  - repeat constructor.
  - repeat (apply List.Forall_cons;
            [split; [vm_compute; reflexivity
                    | repeat split; vm_compute; try reflexivity; discriminate] |]).
    apply List.Forall_nil.
Defined.

(** C3.  For every merge batch, a reference that fails (its node is gone,
    its slot no longer holds a solid paint, or the write throws) is skipped
    and nothing else: [applyMerge] returns normally, every reference is
    visited in order, and the count returned is the number of references
    whose rewrite succeeded. *)
Theorem merge_skips_failed_references (groups : list Group) (targetHex : string)
    (σ : Figma) :
  let run := run_batch (hexToRgb targetHex) (all_refs groups) σ in
  applyMerge groups targetHex σ = (inr (successes run.1), run.2) /\
  length run.1 = length (all_refs groups) /\
  (successes run.1 <= length (all_refs groups))%nat.
Proof.
  intros run. split; [apply MergeFacts.applyMerge_run |].
  pose proof (MergeFacts.run_batch_length (hexToRgb targetHex) (all_refs groups) σ) as Hl.
  fold run in Hl. split; [exact Hl |].
  rewrite <- Hl. unfold successes.
  pose proof (List.filter_length (fun ok : bool => ok) run.1) as Hf.
  clearbody run. cbv beta in Hf. lia.
Qed.

(** C5.  For every slot the merge rewrites, only the colour of that slot
    changes: the paint keeps its other properties, the other entries of
    the list, its order and its length stay, and so does the rest of the
    document. *)
Theorem rewrite_changes_only_color (targetColor : Color) (changed : nat)
    (ref : PaintRef) (σ σ' : Figma) :
  merge_ref targetColor changed ref σ = (inr (S changed), σ') ->
  exists ix n l c props n' l',
    find_node σ (nodeId ref) = Some (ix, n) /\
    get_slot (source ref) n = Paints l /\
    l !! index ref = Some (SolidPaint c props) /\
    page σ' !! ix = Some n' /\
    get_slot (source ref) n' = Paints l' /\
    l' !! index ref = Some (SolidPaint targetColor props) /\
    length l' = length l /\
    (forall j, j <> index ref -> l' !! j = l !! j) /\
    id n' = id n /\ writable n' = writable n /\
    (forall src, src <> source ref -> get_slot src n' = get_slot src n) /\
    length (page σ') = length (page σ) /\
    (forall k, k <> ix -> page σ' !! k = page σ !! k) /\
    styles σ' = styles σ /\ posted σ' = posted σ /\ closed σ' = closed σ.
Proof.
  rewrite MergeFacts.merge_ref_outcome. unfold can_rewrite, rewritten.
  destruct (find_node σ (nodeId ref)) as [[ix n] |] eqn:Hf;
    [| intros [= Hc _]; lia].
  destruct (get_slot (source ref) n) as [| | l] eqn:Hs; try (intros [= Hc _]; lia).
  destruct (l !! index ref) as [[c props | ty props] |] eqn:Hl;
    try (intros [= Hc _]; lia).
  destruct (writable n) eqn:Hw; [| intros [= Hc _]; lia].
  intros [= <-]. cbn [recolor].
  set (l' := <[index ref := SolidPaint targetColor props]> l).
  exists ix, n, l, c, props, (set_slot (source ref) l' n), l'.
  pose proof Hf as Hix. unfold find_node in Hix.
  apply list_find_Some in Hix as (Hix & _ & _).
  pose proof (lookup_lt_Some _ _ _ Hix) as Hlt.
  pose proof (lookup_lt_Some _ _ _ Hl) as Hlt'.
  assert (Hget : get_slot (source ref) (set_slot (source ref) l' n) = Paints l')
    by (destruct (source ref); reflexivity).
  assert (Hother : forall src, src <> source ref ->
            get_slot src (set_slot (source ref) l' n) = get_slot src n)
    by (intros src Hsrc; destruct src, (source ref); try congruence; reflexivity).
  assert (Hid : id (set_slot (source ref) l' n) = id n /\
                writable (set_slot (source ref) l' n) = writable n)
    by (destruct (source ref); split; reflexivity).
  destruct Hid as [Hid Hwr]. cbn [page styles posted closed with_page].
  split; [reflexivity |]. split; [exact Hs |]. split; [exact Hl |].
  split; [apply list_lookup_insert_eq, Hlt |]. split; [exact Hget |].
  split; [apply list_lookup_insert_eq, Hlt' |]. split; [apply length_insert |].
  split; [intros j Hj; apply list_lookup_insert_ne; congruence |].
  split; [exact Hid |]. split; [exact Hwr |]. split; [exact Hother |].
  split; [apply length_insert |].
  split; [intros k Hk; apply list_lookup_insert_ne; congruence |].
  repeat split.
Qed.

Lemma rewrite_changes_only_color_witness :
  let ref := {| nodeId := "1:1"; source := fill; index := 0 |} in
  let σ := Samples.document Samples.two_reds in
  let σ' := (merge_ref (hexToRgb "00FF00") 0 ref σ).2 in
  exists ix n l c props n' l',
    find_node σ (nodeId ref) = Some (ix, n) /\
    get_slot (source ref) n = Paints l /\
    l !! index ref = Some (SolidPaint c props) /\
    page σ' !! ix = Some n' /\
    get_slot (source ref) n' = Paints l' /\
    l' !! index ref = Some (SolidPaint (hexToRgb "00FF00") props) /\
    length l' = length l /\
    (forall j, j <> index ref -> l' !! j = l !! j) /\
    id n' = id n /\ writable n' = writable n /\
    (forall src, src <> source ref -> get_slot src n' = get_slot src n) /\
    length (page σ') = length (page σ) /\
    (forall k, k <> ix -> page σ' !! k = page σ !! k) /\
    styles σ' = styles σ /\ posted σ' = posted σ /\ closed σ' = closed σ.
Proof.
  apply (rewrite_changes_only_color (hexToRgb "00FF00") 0
           {| nodeId := "1:1"; source := fill; index := 0 |}
           (Samples.document Samples.two_reds)).
  vm_compute. reflexivity.
Defined.

(** C2, as the code has it.  [hexToRgb] never fails: for every string it
    returns a colour whose channels are the three low bytes of the number
    [parseInt] read after the first [#] was removed, each divided by 255,
    and black when that number is [NaN] or infinite.  A parsed integer
    below [2^53] is that number; a string that starts with a hexadecimal
    digit (and not with [0x]) is read as the integer its longest prefix
    of digits denotes.  A merge that carries the string ends with
    [merge-done]. *)
Theorem hexToRgb_never_fails (hex : string) :
  match parseInt16 (JsString.remove_first "#" hex) with
  | Finite q => hexToRgb hex = color_of_bytes (Z.quot (Qnum q) (Zpos (Qden q)))
  | _ => hexToRgb hex = {| r := 0; g := 0; b := 0; a := None |}
  end /\
  (forall N,
      JsString.parseInt16_math (JsString.remove_first "#" hex) = Some N ->
      (Z.abs N < 2 ^ 53)%Z ->
      hexToRgb hex = color_of_bytes N) /\
  (forall c rest,
      JsString.remove_first "#" hex = String c rest ->
      is_Some (JsString.digit16 c) ->
      String.prefix "0x" (String c rest) = false ->
      String.prefix "0X" (String c rest) = false ->
      JsString.parseInt16_math (String c rest) =
        Some (positional16 (hex_prefix (String c rest))) /\
      ((length (hex_prefix (String c rest)) <= 13)%nat ->
       hexToRgb hex = color_of_bytes (positional16 (hex_prefix (String c rest))))) /\
  (exists kr kg kb,
      (0 <= kr <= 255)%Z /\ (0 <= kg <= 255)%Z /\ (0 <= kb <= 255)%Z /\
      hexToRgb hex = {| r := F64.fdiv (inject_Z kr) 255;
                        g := F64.fdiv (inject_Z kg) 255;
                        b := F64.fdiv (inject_Z kb) 255;
                        a := None |}) /\
  match JsString.parseInt16_math (JsString.remove_first "#" hex) with
  | None => hexToRgb hex = {| r := 0; g := 0; b := 0; a := None |}
  | Some _ => True
  end /\
  (forall σ threshold groupIndices styleName,
      exists changed,
        posted (onmessage (merge threshold groupIndices hex styleName) σ).2 =
        posted σ ++ [merge_done changed (truthy styleName) styleName]).
Proof.
  split; [| split; [| split; [| split; [| split]]]].
  - destruct (parseInt16 (JsString.remove_first "#" hex)) as [| neg | q] eqn:Hp.
    + apply DecodeFacts.hexToRgb_not_Finite. rewrite Hp. discriminate.
    + apply DecodeFacts.hexToRgb_not_Finite. rewrite Hp. discriminate.
    + apply DecodeFacts.hexToRgb_Finite, Hp.
  - intros N HN Hlt. apply DecodeFacts.hexToRgb_parsed; assumption.
  - intros c rest Hs Hd H1 H2.
    pose proof (DecodeFacts.parseInt16_led c rest Hd H1 H2) as Hparse.
    split; [exact Hparse |]. intros Hlen.
    apply DecodeFacts.hexToRgb_parsed; [rewrite Hs; exact Hparse |].
    pose proof (DecodeFacts.positional16_bound (String c rest)) as Hb.
    assert (Hpow : (16 ^ Z.of_nat (length (hex_prefix (String c rest))) <= 16 ^ 13)%Z)
      by (apply Z.pow_le_mono_r; lia).
    change (16 ^ 13)%Z with 4503599627370496%Z in Hpow.
    change (2 ^ 53)%Z with 9007199254740992%Z. lia.
  - assert (Hb : forall x, (0 <= Z.land x 255 <= 255)%Z).
    { intros x. change (Z.land x 255) with (Z.land x (Z.ones 8)).
      rewrite Z.land_ones by lia.
      change (2 ^ 8)%Z with 256%Z. pose proof (Z.mod_pos_bound x 256). lia. }
    unfold hexToRgb, byte_at. eexists _, _, _.
    repeat split; try apply Hb.
  - unfold hexToRgb, parseInt16.
    destruct (JsString.parseInt16_math _); [exact I | reflexivity].
  - intros σ threshold groupIndices styleName. cbn [onmessage].
    rewrite HandlerFacts.on_merge_result. cbn [snd posted]. eexists. reflexivity.
Qed.

(** The shorthand ["#F00"] is read as [0xF00]: no red, green 15, no blue. *)
Lemma hexToRgb_never_fails_witness :
  hexToRgb "#F00" = color_of_bytes 3840 /\
  hexToRgb "#F00" = {| r := 0; g := F64.fdiv 15 255; b := 0; a := None |}.
Proof.
  destruct (hexToRgb_never_fails "#F00") as (_ & _ & H & _).
  destruct (H "F"%char "00") as [_ Hc];
    [reflexivity | eexists; reflexivity | reflexivity | reflexivity |].
  split; [apply Hc; vm_compute; lia |]. rewrite Hc by (vm_compute; lia). reflexivity.
Defined.

(** C2, as the specification states it, fails: ["zz"] is not six
    hexadecimal digits, and a merge that carries it reports no error. *)
Lemma malformed_key_is_not_rejected :
  is_hex6 "zz" = false /\ ~ merge_reports_error "zz".
Proof.
  split; [reflexivity |]. intros H.
  destruct (H (Samples.document Samples.two_reds) None [] None) as [message Hm].
  vm_compute in Hm. discriminate Hm.
Qed.

(** C6, as the code has it.  A merge appends exactly one new style, a
    single solid paint of the target colour under the given name, when the
    style name is a non-empty string, whatever the selection and the
    number of slots changed; the styles already there are left as they
    are; otherwise no style is created.  [styleCreated] tells which. *)
Theorem style_created_iff_name_truthy (σ : Figma) (threshold : option Q)
    (groupIndices : list Z) (targetHex : string) (styleName : option string) :
  let σ' := (onmessage (merge threshold groupIndices targetHex styleName) σ).2 in
  styles σ' =
    styles σ ++
    (if truthy styleName then [target_style (default "" styleName) targetHex] else []) /\
  exists changed,
    posted σ' = posted σ ++ [merge_done changed (truthy styleName) styleName].
Proof.
  cbn [onmessage]. rewrite HandlerFacts.on_merge_result. cbn [snd styles posted].
  split; [reflexivity | eexists; reflexivity].
Qed.

(** C6, as the specification states it, fails for the empty name: the
    name is supplied, no style is created and [styleCreated] is false. *)
Lemma empty_style_name_creates_nothing :
  ~ style_created_when_supplied (Samples.document Samples.two_reds)
      None [0%Z] "00FF00" (Some "").
Proof.
  intros H. destruct (H (ltac:(eexists; reflexivity))) as [Hlen _].
  vm_compute in Hlen. discriminate Hlen.
Qed.

(** C7.  A group index outside the rebuilt cluster sequence is dropped:
    the merge behaves as if the index were not in the list, it answers
    [merge-done] and never an error, and a merge of that index alone with
    no style name answers [changed = 0], [styleCreated = false] and leaves
    the document as it was. *)
Theorem out_of_range_index_dropped (σ : Figma) (threshold : option Q)
    (before after : list Z) (i : Z) (targetHex : string) (styleName : option string) :
  in_range (groupSimilarColors (scanColors (page σ)) (default 20%Q threshold)) i = false ->
  onmessage (merge threshold (before ++ i :: after) targetHex styleName) σ =
  onmessage (merge threshold (before ++ after) targetHex styleName) σ /\
  (exists changed,
      posted (onmessage (merge threshold (before ++ i :: after) targetHex styleName) σ).2 =
      posted σ ++ [merge_done changed (truthy styleName) styleName]) /\
  onmessage (merge threshold [i] targetHex None) σ =
  (inr tt,
   {| page := page σ; styles := styles σ;
      posted := posted σ ++ [merge_done 0 false None]; closed := closed σ |}).
Proof.
  intros Hi. cbn [onmessage]. rewrite !HandlerFacts.on_merge_result.
  unfold merge_selection.
  rewrite (HandlerFacts.select_groups_drop _ before i after Hi).
  split; [reflexivity |]. split; [eexists; reflexivity |].
  pose proof (HandlerFacts.select_groups_drop _ [] i [] Hi) as Hd.
  cbn [app] in Hd. rewrite Hd.
  cbn. rewrite app_nil_r. reflexivity.
Qed.

Lemma out_of_range_index_dropped_witness :
  let σ := Samples.document Samples.two_reds in
  onmessage (merge None ([] ++ 5%Z :: []) "00FF00" None) σ =
  onmessage (merge None ([] ++ []) "00FF00" None) σ /\
  (exists changed,
      posted (onmessage (merge None ([] ++ 5%Z :: []) "00FF00" None) σ).2 =
      posted σ ++ [merge_done changed (truthy None) None]) /\
  onmessage (merge None [5%Z] "00FF00" None) σ =
  (inr tt,
   {| page := page σ; styles := styles σ;
      posted := posted σ ++ [merge_done 0 false None]; closed := closed σ |}).
Proof.
  apply (out_of_range_index_dropped (Samples.document Samples.two_reds)
           None [] [] 5%Z "00FF00" None).
  vm_compute. reflexivity.
Defined.

(** C1, evaluated where the code departs from it.  In a fill list that
    has an image before the solid paint, the solid paint is at position 1
    and the scanner records index 0; the merge then finds the image in
    slot 0 and changes nothing.  With a hidden solid paint before the
    visible one, the merge recolours the hidden paint instead. *)
Theorem scanned_index_counts_kept_paints_only :
  map nodes (JsObject.values (scanColors Samples.image_then_red)) =
    [[{| nodeId := "2:1"; source := fill; index := 0 |}]] /\
  onmessage (merge None [0%Z] "00FF00" None) (Samples.document Samples.image_then_red) =
    (inr tt,
     {| page := Samples.image_then_red; styles := [];
        posted := [merge_done 0 false None]; closed := false |}) /\
  map nodes (JsObject.values (scanColors Samples.hidden_then_red)) =
    [[{| nodeId := "3:1"; source := fill; index := 0 |}]] /\
  onmessage (merge None [0%Z] "00FF00" None) (Samples.document Samples.hidden_then_red) =
    (inr tt,
     {| page := [Samples.node "3:1"
                   (Paints [SolidPaint (hexToRgb "00FF00") Samples.hidden;
                            SolidPaint Samples.red Samples.plain]) Absent];
        styles := [];
        posted := [merge_done 1 false None]; closed := false |}).
Proof. vm_compute. repeat split. Qed.


(** * Further properties of the code *)

(** ** More on rounding *)

Module F64More.
Import F64 F64Facts.

Local Open Scope Q_scope.

Lemma ilog2_unique x E : 0 < x -> pow2 E <= x < pow2 (E + 1) -> ilog2 x = E.
Proof.
  intros Hx [H1 H2]. destruct (ilog2_spec x Hx) as [S1 S2].
  assert (E < ilog2 x + 1)%Z by (apply pow2_lt_inv; lra).
  assert (ilog2 x < E + 1)%Z by (apply pow2_lt_inv; lra).
  lia.
Qed.

Lemma ilog2_proper x y : 0 < x -> x == y -> ilog2 x = ilog2 y.
Proof.
  intros Hx Hxy. assert (Hy : 0 < y) by (rewrite <- Hxy; exact Hx).
  apply ilog2_unique; [exact Hx |]. rewrite Hxy. apply ilog2_spec, Hy.
Qed.

Lemma rne_proper p q : p == q -> rne p = rne q.
Proof.
  intros H. unfold rne. rewrite (Qfloor_comp _ _ H).
  assert (Hc : (p - inject_Z (Qfloor q) ?= 1 # 2) = (q - inject_Z (Qfloor q) ?= 1 # 2))
    by (apply Qcompare_comp; [rewrite H |]; reflexivity).
  rewrite Hc. reflexivity.
Qed.

Lemma fl_pos_proper x y : 0 < x -> x == y -> fl_pos x = fl_pos y.
Proof.
  intros Hx Hxy. unfold fl_pos, ulp_exp. rewrite (ilog2_proper x y Hx Hxy).
  apply Qred_complete.
  rewrite (rne_proper (x * _) (y * _)) by (rewrite Hxy; reflexivity).
  reflexivity.
Qed.

(** Rounding gives the same number, in the same terms, on equal rationals. *)
Lemma fl_proper x y : x == y -> fl x = fl y.
Proof.
  intros Hxy. destruct (Q_dec x 0) as [[Hneg | Hp] | Hz].
  - rewrite (fl_unfold_neg x Hneg), (fl_unfold_neg y) by (rewrite <- Hxy; exact Hneg).
    rewrite (fl_pos_proper (- x) (- y)); [reflexivity | lra | rewrite Hxy; reflexivity].
  - rewrite (fl_unfold_pos x Hp), (fl_unfold_pos y) by (rewrite <- Hxy; exact Hp).
    apply fl_pos_proper; assumption.
  - rewrite (fl_unfold_zero x Hz), (fl_unfold_zero y) by (rewrite <- Hxy; exact Hz).
    reflexivity.
Qed.

(** Rounding commutes with negation. *)
Lemma fl_opp x : fl (- x) == - fl x.
Proof.
  destruct (Q_dec x 0) as [[Hneg | Hp] | Hz].
  - rewrite (fl_unfold_pos (- x)) by lra. rewrite (fl_unfold_neg x Hneg), Qred_correct.
    ring.
  - rewrite (fl_unfold_neg (- x)) by lra. rewrite (fl_unfold_pos x Hp), Qred_correct.
    rewrite (fl_pos_proper (- - x) x); [reflexivity | lra | ring].
  - rewrite (fl_unfold_zero x Hz), (fl_unfold_zero (- x)) by (rewrite Hz; reflexivity).
    reflexivity.
Qed.

Lemma fsqrt_nonneg s : 0 <= fsqrt s.
Proof.
  destruct (Qlt_le_dec 0 s) as [Hp | Hn].
  - apply Qlt_le_weak, fsqrt_pos, Hp.
  - unfold fsqrt. destruct s as [n d]. unfold Qle in Hn. cbn in *.
    destruct n; try lia; apply Qle_refl.
Qed.

End F64More.

(** ** The distance *)

Module DistanceFacts.
Import F64 F64Facts F64More.

Local Open Scope Q_scope.

(** The squared, scaled difference of two channels does not depend on
    their order. *)
Lemma square_diff_sym v w :
  fmul (fmul (fsub v w) 255) (fmul (fsub v w) 255) =
  fmul (fmul (fsub w v) 255) (fmul (fsub w v) 255).
Proof.
  assert (Hs : fsub w v == - fsub v w).
  { unfold fsub. rewrite <- fl_opp. rewrite (fl_proper (w - v) (- (v - w))) by ring.
    reflexivity. }
  assert (Hd : fmul (fsub w v) 255 == - fmul (fsub v w) 255).
  { unfold fmul. rewrite <- fl_opp.
    rewrite (fl_proper (fsub w v * 255) (- (fsub v w * 255))) by (rewrite Hs; ring).
    reflexivity. }
  unfold fmul at 1 4. apply fl_proper. rewrite Hd. ring.
Qed.

Lemma square_diff_zero v w : v == w ->
  fmul (fmul (fsub v w) 255) (fmul (fsub v w) 255) = 0.
Proof.
  intros H. assert (fsub v w = 0) as -> by (apply fl_unfold_zero; rewrite H; ring).
  assert (fmul 0 255 = 0) as -> by (apply fl_unfold_zero; ring).
  apply fl_unfold_zero. ring.
Qed.

End DistanceFacts.

(** X1.  [colorDistance] is symmetric and never negative. *)
Theorem colorDistance_symmetric (ca cb : Color) :
  colorDistance ca cb = colorDistance cb ca /\ (0 <= colorDistance ca cb)%Q.
Proof.
  rewrite !CodecFacts.colorDistance_unfold. split.
  - rewrite (DistanceFacts.square_diff_sym (r ca)), (DistanceFacts.square_diff_sym (g ca)),
      (DistanceFacts.square_diff_sym (b ca)).
    reflexivity.
  - apply F64More.fsqrt_nonneg.
Qed.

(** X2.  Two colours with the same three channels are at distance 0,
    whatever their alpha: the distance of a colour to itself is 0. *)
Theorem colorDistance_same_channels (ca cb : Color) :
  (r ca == r cb)%Q -> (g ca == g cb)%Q -> (b ca == b cb)%Q ->
  colorDistance ca cb = 0%Q.
Proof.
  intros Hr Hg Hb. rewrite CodecFacts.colorDistance_unfold.
  rewrite (DistanceFacts.square_diff_zero _ _ Hr), (DistanceFacts.square_diff_zero _ _ Hg),
    (DistanceFacts.square_diff_zero _ _ Hb).
  reflexivity.
Qed.

Lemma colorDistance_same_channels_witness :
  colorDistance {| r := (1 # 3)%Q; g := 1%Q; b := 0%Q; a := Some (1 # 2)%Q |}
                {| r := (2 # 6)%Q; g := 1%Q; b := 0%Q; a := None |} = 0%Q.
Proof.
  apply (colorDistance_same_channels
           {| r := (1 # 3)%Q; g := 1%Q; b := 0%Q; a := Some (1 # 2)%Q |}
           {| r := (2 # 6)%Q; g := 1%Q; b := 0%Q; a := None |}); reflexivity.
Defined.

(** X3.  Two valid colours at distance 0 (or less) have the same hex key:
    with threshold 0 only colours of one key are grouped. *)
Theorem distance_zero_same_hex (ca cb : Color) :
  valid_color ca -> valid_color cb -> (colorDistance ca cb <= 0)%Q ->
  toHex (r ca) (g ca) (b ca) = toHex (r cb) (g cb) (b cb).
Proof. apply CodecFacts.distance_zero_same_key. Qed.

Lemma distance_zero_same_hex_witness :
  let tiny := {| r := (1 # 2 ^ 1074)%Q; g := 0%Q; b := 0%Q; a := None |} in
  let black := {| r := 0%Q; g := 0%Q; b := 0%Q; a := None |} in
  toHex (r tiny) (g tiny) (b tiny) = toHex (r black) (g black) (b black).
Proof.
  apply (distance_zero_same_hex
           {| r := (1 # 2 ^ 1074)%Q; g := 0%Q; b := 0%Q; a := None |}
           {| r := 0%Q; g := 0%Q; b := 0%Q; a := None |});
    [repeat split; vm_compute; try reflexivity; discriminate ..
    | vm_compute; discriminate].
Defined.

(** ** More on the codec *)

Module CodecMore.
Import JsString F64 F64Facts.

Local Open Scope Z_scope.

(** Syntactic equality of two rationals, as a boolean. *)
Lemma same_terms (p q : Q) :
  ((Qnum p =? Qnum q) && (Qden p =? Qden q)%positive)%bool = true -> p = q.
Proof.
  destruct p as [n d], q as [n' d']. cbn. intros H.
  apply andb_true_iff in H as [H1 H2].
  apply Z.eqb_eq in H1. apply Pos.eqb_eq in H2. now subst.
Qed.

Lemma bytes_checked (chk : Z -> bool) :
  forallb (fun n => chk (Z.of_nat n)) (seq 0 256) = true ->
  forall k, 0 <= k <= 255 -> chk k = true.
Proof.
  intros Hall k Hk. rewrite forallb_forall in Hall.
  specialize (Hall (Z.to_nat k)). rewrite Z2Nat.id in Hall by lia.
  apply Hall, in_seq. lia.
Qed.

(** A byte over 255 is a binary64 value in [0,1]. *)
Lemma byte_channel_valid k : 0 <= k <= 255 -> is_channel (fdiv (inject_Z k) 255).
Proof.
  intros Hk.
  pose (chk := fun k : Z =>
    let v := fdiv (inject_Z k) 255 in
    ((Qnum (fl v) =? Qnum v) && (Qden (fl v) =? Qden v)%positive
     && Qle_bool 0 v && Qle_bool v 1)%bool).
  assert (H : chk k = true).
  { apply bytes_checked; [vm_compute; reflexivity | exact Hk]. }
  unfold chk in H. cbv zeta in H.
  apply andb_true_iff in H as [H H3]. apply andb_true_iff in H as [H1 H2].
  split; [apply same_terms, H1 |].
  split; apply Qle_bool_iff; assumption.
Qed.

(** Encoding the channel a byte decodes to gives the byte back. *)
Lemma requantize k : 0 <= k <= 255 ->
  Math_round (fmul (fdiv (inject_Z k) 255) 255) = k.
Proof.
  intros Hk.
  pose (chk := fun k : Z => Math_round (fmul (fdiv (inject_Z k) 255) 255) =? k).
  assert (H : chk k = true).
  { apply bytes_checked; [vm_compute; reflexivity | exact Hk]. }
  apply Z.eqb_eq, H.
Qed.

Lemma land_byte x : 0 <= Z.land x 255 <= 255.
Proof.
  change (Z.land x 255) with (Z.land x (Z.ones 8)). rewrite Z.land_ones by lia.
  change (2 ^ 8) with 256. pose proof (Z.mod_pos_bound x 256). lia.
Qed.

(** Whatever the string, the decoded channels are bytes over 255. *)
Lemma hexToRgb_as_bytes s :
  exists kr kg kb,
    0 <= kr <= 255 /\ 0 <= kg <= 255 /\ 0 <= kb <= 255 /\
    hexToRgb s = {| r := fdiv (inject_Z kr) 255;
                    g := fdiv (inject_Z kg) 255;
                    b := fdiv (inject_Z kb) 255;
                    a := None |}.
Proof.
  unfold hexToRgb, byte_at. eexists _, _, _.
  repeat split; try apply land_byte.
Qed.

Lemma hexchar_facts_hold c : hexchar_facts c = true.
Proof.
  destruct c as [[] [] [] [] [] [] [] []]; vm_compute; reflexivity.
Qed.

Lemma hexchar c d : digit16 c = Some d ->
  0 <= d < 16 /\ upper_char c = HEX d /\ Ascii.eqb c "#" = false /\
  is_space c = false /\ Ascii.eqb c "-" = false /\ Ascii.eqb c "+" = false /\
  (Ascii.eqb c "x" || Ascii.eqb c "X")%bool = false.
Proof.
  intros Hd. pose proof (hexchar_facts_hold c) as H. unfold hexchar_facts in H.
  rewrite Hd in H.
  repeat (apply andb_true_iff in H as [H ?]).
  repeat match goal with
         | X : negb _ = true |- _ => apply negb_true_iff in X
         end.
  apply Z.leb_le in H. apply Z.ltb_lt in H6. apply Ascii.eqb_eq in H5.
  repeat split; assumption || lia.
Qed.

(** Reading six hexadecimal digits of either case. *)
Lemma parseInt16_six c1 c2 c3 c4 c5 c6 d1 d2 d3 d4 d5 d6 :
  digit16 c1 = Some d1 -> digit16 c2 = Some d2 -> digit16 c3 = Some d3 ->
  digit16 c4 = Some d4 -> digit16 c5 = Some d5 -> digit16 c6 = Some d6 ->
  let s := String c1 (String c2 (String c3 (String c4 (String c5 (String c6 EmptyString))))) in
  remove_first "#" s = s /\
  parseInt16_math s =
  Some (((((d1 * 16 + d2) * 16 + d3) * 16 + d4) * 16 + d5) * 16 + d6).
Proof.
  intros H1 H2 H3 H4 H5 H6 s.
  destruct (hexchar _ _ H1) as (_ & _ & N1 & S1 & M1 & P1 & _).
  destruct (hexchar _ _ H2) as (_ & _ & N2 & _ & _ & _ & X2).
  destruct (hexchar _ _ H3) as (_ & _ & N3 & _).
  destruct (hexchar _ _ H4) as (_ & _ & N4 & _).
  destruct (hexchar _ _ H5) as (_ & _ & N5 & _).
  destruct (hexchar _ _ H6) as (_ & _ & N6 & _).
  split.
  - unfold s. cbn [remove_first]. now rewrite N1, N2, N3, N4, N5, N6.
  - unfold s, parseInt16_math. cbn [trim_start]. rewrite S1.
    unfold strip_sign. rewrite M1, P1. unfold strip_0x. rewrite X2, Bool.andb_false_r.
    cbn [parse_digits]. rewrite H1, H2, H3, H4, H5, H6. f_equal. lia.
Qed.

Lemma length_append s1 s2 :
  String.length (s1 ++ s2) = (String.length s1 + String.length s2)%nat.
Proof. induction s1 as [| c s1 IH]; simpl; [reflexivity | now rewrite IH]. Qed.

Lemma length_toUpperCase s : String.length (toUpperCase s) = String.length s.
Proof. induction s as [| c s IH]; cbn; [reflexivity | now rewrite IH]. Qed.

Lemma length_padStart n c s :
  (String.length s <= String.length (padStart n c s))%nat /\
  (n <= String.length (padStart n c s))%nat.
Proof.
  unfold padStart. rewrite length_append.
  assert (H : forall k, String.length (repeat_char c k) = k)
    by (induction k as [| k IH]; cbn; [reflexivity | now rewrite IH]).
  rewrite H. lia.
Qed.

Lemma length_hex_digits fuel n acc :
  (String.length acc <= String.length (hex_digits fuel n acc))%nat.
Proof.
  revert n acc. induction fuel as [| fuel IH]; intros n acc; cbn [hex_digits]; [lia |].
  destruct (n / 16 =? 0); [cbn; lia |].
  etransitivity; [| apply IH]. cbn. lia.
Qed.

(** A number of 256 or more is written with three digits or more. *)
Lemma length_toString16 k : 256 <= k -> (3 <= String.length (toString16 k))%nat.
Proof.
  intros Hk. unfold toString16.
  assert ((k <? 0) = false) as -> by (apply Z.ltb_ge; lia).
  assert (8 <= Z.log2 (Z.abs k)) as Hl.
  { rewrite Z.abs_eq by lia. change 8 with (Z.log2 256). apply Z.log2_le_mono, Hk. }
  destruct (Z.to_nat (Z.log2 (Z.abs k))) as [| [| f]] eqn:Hf; try lia.
  cbn [hex_digits].
  assert ((k / 16 =? 0) = false) as ->.
  { apply Z.eqb_neq. pose proof (Z.div_le_mono 256 k 16 ltac:(lia) Hk) as H.
    change (256 / 16) with 16 in H. lia. }
  assert ((k / 16 / 16 =? 0) = false) as ->.
  { apply Z.eqb_neq. rewrite Z.div_div by lia.
    pose proof (Z.div_le_mono 256 k (16 * 16) ltac:(lia) Hk) as H.
    change (256 / (16 * 16)) with 1 in H. lia. }
  destruct (k / 16 / 16 / 16 =? 0); [cbn; lia |].
  etransitivity; [| apply length_hex_digits]. cbn. lia.
Qed.

Lemma length_hex2_ge v : (2 <= String.length (hex2 v))%nat.
Proof. unfold hex2. apply length_padStart. Qed.

Local Open Scope Q_scope.

(** A channel of 1.01 or more is written with three digits or more. *)
Lemma length_hex2_large v : 101 # 100 <= v -> (3 <= String.length (hex2 v))%nat.
Proof.
  intros Hv. unfold hex2.
  destruct (length_padStart 2 "0" (toString16 (Math_round (fmul v 255)))) as [Hp _].
  etransitivity; [| exact Hp]. clear Hp. apply length_toString16.
  pose proof (fl_error (v * 255)) as He.
  rewrite (Qabs_pos (v * 255)) in He by lra.
  apply Qabs_Qle_condition in He.
  assert (P1 : pow2 (-53) <= 1 # 1024)
    by (change (1 # 1024) with (pow2 (-10)); apply pow2_le; lia).
  assert (P2 : pow2 (-1075) <= 1 # 1024)
    by (change (1 # 1024) with (pow2 (-10)); apply pow2_le; lia).
  pose proof (pow2_pos (-53)). pose proof (pow2_pos (-1075)).
  unfold Math_round, fmul.
  change 256%Z with (Qfloor 256). apply Qfloor_resp_le.
  set (x := v * 255) in *. assert (Hx : 257 <= x) by (unfold x; lra).
  set (p := pow2 (-53)) in *. set (q := pow2 (-1075)) in *.
  clearbody x p q. nra.
Qed.

End CodecMore.

(** X4.  Whatever string it is given, [hexToRgb] returns a colour without
    alpha whose three channels are binary64 values in [0,1]. *)
Theorem hexToRgb_valid (s : string) :
  valid_color (hexToRgb s) /\ a (hexToRgb s) = None.
Proof.
  destruct (CodecMore.hexToRgb_as_bytes s) as (kr & kg & kb & Hr & Hg & Hb & ->).
  cbn [r g b a valid_color].
  repeat split; try apply CodecMore.byte_channel_valid; try assumption;
    apply (CodecMore.byte_channel_valid _ ltac:(eassumption)).
Qed.

(** X5.  For channels in [0,1], [toHex] writes exactly six hexadecimal
    digits, in upper case. *)
Theorem toHex_six_upper_digits (x y z : Q) :
  (0 <= x <= 1)%Q -> (0 <= y <= 1)%Q -> (0 <= z <= 1)%Q ->
  is_hex6 (toHex x y z) = true /\
  JsString.toUpperCase (toHex x y z) = toHex x y z.
Proof.
  intros Hx Hy Hz.
  destruct (CodecFacts.round_channel _ Hx) as [Kx _].
  destruct (CodecFacts.round_channel _ Hy) as [Ky _].
  destruct (CodecFacts.round_channel _ Hz) as [Kz _].
  rewrite CodecFacts.toHex_bytes, !CodecFacts.byte_string_digits by assumption.
  assert (Hd : forall k, (0 <= k <= 255)%Z ->
            (0 <= k / 16 < 16)%Z /\ (0 <= k mod 16 < 16)%Z).
  { intros k Hk. split; [| apply Z.mod_pos_bound; lia].
    split; [apply Z.div_pos; lia | apply Z.div_lt_upper_bound; lia]. }
  assert (Hu : forall d, (0 <= d < 16)%Z ->
            JsString.upper_char (HEX d) = HEX d /\
            bool_decide (is_Some (JsString.digit16 (HEX d))) = true).
  { intros d H. split.
    - CodecFacts.each_nibble H.
    - rewrite CodecFacts.digit16_HEX by exact H. reflexivity. }
  destruct (Hd _ Kx) as [X1 X2], (Hd _ Ky) as [Y1 Y2], (Hd _ Kz) as [Z1 Z2].
  destruct (Hu _ X1) as [U1 D1], (Hu _ X2) as [U2 D2], (Hu _ Y1) as [U3 D3],
    (Hu _ Y2) as [U4 D4], (Hu _ Z1) as [U5 D5], (Hu _ Z2) as [U6 D6].
  split.
  - unfold is_hex6. simpl. now rewrite D1, D2, D3, D4, D5, D6.
  - simpl. now rewrite U1, U2, U3, U4, U5, U6.
Qed.

Lemma toHex_six_upper_digits_witness :
  is_hex6 (toHex (1 # 2) (1 # 3) 1) = true /\
  JsString.toUpperCase (toHex (1 # 2) (1 # 3) 1) = toHex (1 # 2) (1 # 3) 1.
Proof.
  apply (toHex_six_upper_digits (1 # 2) (1 # 3) 1); split; discriminate.
Defined.

(** X6.  A key of six hexadecimal digits survives decoding and encoding:
    [toHex] of [hexToRgb s] is [s] in upper case, and a leading [#] does
    not change what [hexToRgb] returns. *)
Theorem key_round_trip (s : string) :
  is_hex6 s = true ->
  hexToRgb (String "#" s) = hexToRgb s /\
  toHex (r (hexToRgb s)) (g (hexToRgb s)) (b (hexToRgb s)) = JsString.toUpperCase s.
Proof.
  unfold is_hex6. intros H. apply andb_true_iff in H as [Hlen Hall].
  destruct s as [| c1 [| c2 [| c3 [| c4 [| c5 [| c6 [| c7 s]]]]]]]; try discriminate Hlen.
  cbn [list_ascii_of_string forallb] in Hall.
  repeat (apply andb_true_iff in Hall as [?%bool_decide_eq_true Hall]).
  repeat match goal with
         | X : is_Some _ |- _ => destruct X as [? X]
         end.
  match goal with
  | H1 : JsString.digit16 c1 = Some ?d1, H2 : JsString.digit16 c2 = Some ?d2,
    H3 : JsString.digit16 c3 = Some ?d3, H4 : JsString.digit16 c4 = Some ?d4,
    H5 : JsString.digit16 c5 = Some ?d5, H6 : JsString.digit16 c6 = Some ?d6 |- _ =>
      destruct (CodecMore.parseInt16_six _ _ _ _ _ _ _ _ _ _ _ _ H1 H2 H3 H4 H5 H6)
        as [Hrem Hparse];
      destruct (CodecMore.hexchar _ _ H1) as (B1 & U1 & _);
      destruct (CodecMore.hexchar _ _ H2) as (B2 & U2 & _);
      destruct (CodecMore.hexchar _ _ H3) as (B3 & U3 & _);
      destruct (CodecMore.hexchar _ _ H4) as (B4 & U4 & _);
      destruct (CodecMore.hexchar _ _ H5) as (B5 & U5 & _);
      destruct (CodecMore.hexchar _ _ H6) as (B6 & U6 & _);
      set (kr := (d1 * 16 + d2)%Z); set (kg := (d3 * 16 + d4)%Z);
      set (kb := (d5 * 16 + d6)%Z);
      assert (Hn : ((((((d1 * 16 + d2) * 16 + d3) * 16 + d4) * 16 + d5) * 16 + d6)
                    = kr * 65536 + kg * 256 + kb)%Z) by (unfold kr, kg, kb; lia);
      assert (Kr : (0 <= kr <= 255)%Z) by (unfold kr; lia);
      assert (Kg : (0 <= kg <= 255)%Z) by (unfold kg; lia);
      assert (Kb : (0 <= kb <= 255)%Z) by (unfold kb; lia);
      assert (Qr : (kr / 16 = d1 /\ kr mod 16 = d2)%Z)
        by (unfold kr; rewrite Z.add_comm, Z.div_add, Z.mod_add, Z.div_small,
              Z.mod_small by lia; lia);
      assert (Qg : (kg / 16 = d3 /\ kg mod 16 = d4)%Z)
        by (unfold kg; rewrite Z.add_comm, Z.div_add, Z.mod_add, Z.div_small,
              Z.mod_small by lia; lia);
      assert (Qb : (kb / 16 = d5 /\ kb mod 16 = d6)%Z)
        by (unfold kb; rewrite Z.add_comm, Z.div_add, Z.mod_add, Z.div_small,
              Z.mod_small by lia; lia)
  end.
  cbv zeta in Hrem, Hparse.
  assert (Hdec : hexToRgb (String c1 (String c2 (String c3 (String c4
                   (String c5 (String c6 EmptyString)))))) =
                 {| r := F64.fdiv (inject_Z kr) 255; g := F64.fdiv (inject_Z kg) 255;
                    b := F64.fdiv (inject_Z kb) 255; a := None |}).
  { unfold hexToRgb, parseInt16. rewrite Hrem, Hparse, Hn.
    rewrite CodecFacts.ToInt32_small by lia.
    destruct (CodecFacts.bytes_of_rgb kr kg kb Kr Kg Kb) as (-> & -> & ->).
    reflexivity. }
  split.
  - unfold hexToRgb at 1. cbn [JsString.remove_first].
    change (Ascii.eqb "#" "#") with true. cbv iota.
    unfold hexToRgb. now rewrite Hrem.
  - rewrite Hdec. cbn [r g b]. rewrite CodecFacts.toHex_bytes.
    rewrite !CodecMore.requantize, !CodecFacts.byte_string_digits by assumption.
    destruct Qr as [-> ->], Qg as [-> ->], Qb as [-> ->].
    simpl. now rewrite U1, U2, U3, U4, U5, U6.
Qed.

Lemma key_round_trip_witness :
  hexToRgb (String "#" "a1b2c3") = hexToRgb "a1b2c3" /\
  toHex (r (hexToRgb "a1b2c3")) (g (hexToRgb "a1b2c3")) (b (hexToRgb "a1b2c3")) =
  JsString.toUpperCase "a1b2c3".
Proof. apply (key_round_trip "a1b2c3"). reflexivity. Defined.

(** X7.  [toHex] does not clamp: when a channel is 1.01 or more its
    component has three digits or more, and the key is longer than six
    characters. *)
Theorem toHex_does_not_clamp (x y z : Q) :
  (101 # 100 <= x)%Q \/ (101 # 100 <= y)%Q \/ (101 # 100 <= z)%Q ->
  (6 < String.length (toHex x y z))%nat /\ is_hex6 (toHex x y z) = false.
Proof.
  intros H.
  assert (Hlen : (6 < String.length (toHex x y z))%nat).
  { unfold toHex. rewrite CodecMore.length_toUpperCase, !CodecMore.length_append.
    pose proof (CodecMore.length_hex2_ge x). pose proof (CodecMore.length_hex2_ge y).
    pose proof (CodecMore.length_hex2_ge z).
    destruct H as [H | [H | H]]; apply CodecMore.length_hex2_large in H; lia. }
  split; [exact Hlen |]. unfold is_hex6.
  assert ((String.length (toHex x y z) =? 6)%nat = false) as ->
    by (apply Nat.eqb_neq; lia).
  reflexivity.
Qed.

Lemma toHex_does_not_clamp_witness :
  (6 < String.length (toHex 2 0 0))%nat /\ is_hex6 (toHex 2 0 0) = false.
Proof. apply (toHex_does_not_clamp 2 0 0). left. discriminate. Defined.

(** ** More on scanning and grouping *)

Module GroupMore.

Lemma collect_members_adds rep t rest (assigned : gset string) acc :
  exists added,
    (collect_members rep t rest assigned acc).1 = acc ++ added /\
    Forall (within t rep) added /\
    Forall (fun m => m ∈ rest) added.
Proof.
  revert assigned acc. induction rest as [| e rest IH]; intros assigned acc;
    cbn [collect_members].
  - exists []. rewrite app_nil_r. repeat split; constructor.
  - assert (Hweak : forall l : list ColorEntry,
              Forall (fun m => m ∈ rest) l -> Forall (fun m => m ∈ e :: rest) l).
    { intros l Hl. eapply Forall_impl; [exact Hl |].
      intros m Hm. now apply list_elem_of_further. }
    destruct (bool_decide (hex e ∈ assigned)).
    + destruct (IH assigned acc) as (added & E & W & I).
      exists added. repeat split; auto.
    + destruct (Qle_bool (colorDistance (color rep) (color e)) t) eqn:Hw.
      * destruct (IH ({[hex e]} ∪ assigned) (acc ++ [e])) as (added & E & W & I).
        exists (e :: added). rewrite E, <- app_assoc. repeat split.
        -- constructor; [exact Hw | exact W].
        -- constructor; [apply list_elem_of_here | auto].
      * destruct (IH assigned acc) as (added & E & W & I).
        exists added. repeat split; auto.
Qed.

Lemma star_weaken t e rest gr : star t rest gr -> star t (e :: rest) gr.
Proof.
  intros (l & Hm & Hw & Hi). exists l. repeat split; try assumption.
  eapply Forall_impl; [exact Hi |]. intros m Hm'. now apply list_elem_of_further.
Qed.

Lemma build_groups_stars t entries (assigned : gset string) groups all :
  (forall m, m ∈ entries -> m ∈ all) ->
  Forall (star t all) groups ->
  Forall (star t all) (build_groups t entries assigned groups).
Proof.
  revert assigned groups. induction entries as [| e rest IH];
    intros assigned groups Hsub Hg; cbn [build_groups]; [exact Hg |].
  assert (Hsub' : forall m, m ∈ rest -> m ∈ all)
    by (intros m Hm; apply Hsub; now apply list_elem_of_further).
  destruct (bool_decide (hex e ∈ assigned)); [now apply IH |].
  destruct (collect_members_adds e t rest ({[hex e]} ∪ assigned) [e])
    as (added & E & W & I).
  destruct (collect_members e t rest ({[hex e]} ∪ assigned) [e]) as [ms assigned'].
  cbn [fst] in E. subst ms. apply IH; [exact Hsub' |].
  apply Forall_app. split; [exact Hg |]. constructor; [| constructor].
  exists added. cbn [members representative app]. repeat split; [exact W |].
  constructor; [apply Hsub, list_elem_of_here |].
  eapply Forall_impl; [exact I |]. intros m Hm. now apply Hsub'.
Qed.

(** [totalCount] is the sum of the members' reference counts. *)
Lemma totalCount_sum gr :
  totalCount gr = list_sum (map (fun m => length (nodes m)) (members gr)).
Proof.
  unfold totalCount.
  assert (H : forall l acc,
             foldl (fun s m => (s + length (nodes m))%nat) acc l =
             (acc + list_sum (map (fun m => length (nodes m)) l))%nat).
  { induction l as [| m l IH]; intros acc; simpl; [lia | rewrite IH; lia]. }
  apply H.
Qed.

(** The members of all groups are the entries of the map, each once. *)
Lemma grouped_members colorMap t :
  keyed_by_hex colorMap ->
  concat (map members (groupSimilarColors colorMap t)) ≡ₚ map snd colorMap.
Proof.
  intros Hk. pose proof (JsObjectFacts.keyed_values_NoDup colorMap Hk) as Hnd.
  unfold groupSimilarColors, discovered_groups.
  rewrite (SortFacts.sort_perm totalCount).
  rewrite GroupFacts.build_groups_members by exact Hnd.
  cbn [map concat app]. rewrite <- JsObjectFacts.values_perm.
  rewrite (GroupFacts.filter_ext_In _ (fun _ => true)).
  - clear. induction (JsObject.values colorMap) as [| x l IH]; [reflexivity |].
    cbn [List.filter]. now rewrite IH.
  - intros x _. unfold unassigned. rewrite bool_decide_eq_false_2; [reflexivity |].
    apply not_elem_of_empty.
Qed.

End GroupMore.

(** X8.  What [extractPaints] returns, paint by paint: the colours of a
    list are those of its parts, in order; a solid paint gives its colour
    with alpha [opacity ?? 1] unless its [visible] is [false], whatever
    its blend mode; a paint of another type gives nothing; a mixed or
    missing list gives no colour. *)
Theorem extractPaints_keeps_solid_visible :
  (forall l1 l2,
      extractPaints (Paints (l1 ++ l2)) =
      extractPaints (Paints l1) ++ extractPaints (Paints l2)) /\
  (forall c o bm,
      extractPaints
        (Paints [SolidPaint c {| visible := Some false; opacity := o; blendMode := bm |}])
      = []) /\
  (forall c v o bm, v <> Some false ->
      extractPaints
        (Paints [SolidPaint c {| visible := v; opacity := o; blendMode := bm |}])
      = [{| r := r c; g := g c; b := b c; a := Some (default 1%Q o) |}]) /\
  (forall ty props, extractPaints (Paints [OtherPaint ty props]) = []) /\
  extractPaints (Paints []) = [] /\ extractPaints Mixed = [] /\ extractPaints Absent = [].
Proof.
  split; [| split; [| split; [| repeat split]]].
  - intros l1 l2. unfold extractPaints. apply omap_app.
  - reflexivity.
  - intros c v o bm Hv. destruct v as [[] |]; [reflexivity | congruence | reflexivity].
Qed.

(** X9.  Every cluster is led by its representative: the representative is
    its first member, every other member is within the threshold of the
    representative, and every member is an entry of the input map. *)
Theorem groups_are_stars (colorMap : JsObject.t ColorEntry) (threshold : Q) :
  Forall (star threshold (JsObject.values colorMap))
    (groupSimilarColors colorMap threshold).
Proof.
  unfold groupSimilarColors, discovered_groups.
  rewrite (SortFacts.sort_perm totalCount).
  apply GroupMore.build_groups_stars; [auto | constructor].
Qed.

Module ScanMore.
Import JsObject.

(** The scanner is a fold of [record_paint] over what it visits. *)
Lemma scan_trace_ind (I : t ColorEntry -> list (Color * PaintRef) -> Prop) :
  I empty [] ->
  (forall cm T nid src c i,
      I cm T ->
      I (record_paint nid src cm c i)
        (T ++ [(c, {| nodeId := nid; source := src; index := i |})])) ->
  forall ns, I (scanColors ns) (scan_trace ns).
Proof.
  intros H0 Hstep.
  assert (Hfor : forall nid src l i cm T, I cm T ->
            I (forEach_from (record_paint nid src) i l cm) (T ++ trace_from nid src i l)).
  { induction l as [| c l IH]; intros i cm T H; cbn [forEach_from trace_from].
    - now rewrite app_nil_r.
    - rewrite (app_assoc T [_] _ : T ++ _ :: _ = (T ++ [_]) ++ _). apply IH, Hstep, H. }
  assert (Hslot : forall nid src s cm T, I cm T ->
            I (scan_slot nid src s cm) (T ++ slot_trace nid src s)).
  { intros nid src s cm T H. unfold scan_slot, slot_trace, forEach.
    destruct s; [cbn; now rewrite app_nil_r | |]; apply Hfor, H. }
  assert (Hall : forall ns cm T, I cm T ->
            I (foldl scan_node cm ns) (T ++ scan_trace ns)).
  { induction ns as [| n ns IH]; intros cm T H; cbn [foldl].
    - unfold scan_trace. cbn. now rewrite app_nil_r.
    - unfold scan_trace. cbn [map concat]. fold (scan_trace ns).
      rewrite app_assoc. apply IH. unfold scan_node, node_trace.
      rewrite app_assoc. apply Hslot, Hslot, H. }
  intros ns. apply (Hall ns empty [] H0).
Qed.

Section Updates.
Context {V : Type}.

Lemma update_absent (o : t V) k f : k ∉ map fst o -> update o k f = o.
Proof.
  induction o as [| [k' v] o IH]; cbn [update map fst]; [reflexivity |].
  rewrite not_elem_of_cons. intros [Hne Hk].
  destruct (String.eqb_spec k' k) as [-> | _]; [congruence | now rewrite IH].
Qed.

Lemma update_unique (o : t V) k f :
  NoDup (map fst o) ->
  update o k f = map (fun kv => if String.eqb kv.1 k then (kv.1, f kv.2) else kv) o.
Proof.
  induction o as [| [k' v] o IH]; cbn [update map fst snd]; [reflexivity |].
  intros [Hk Hnd]%NoDup_cons. destruct (String.eqb_spec k' k) as [-> | Hne].
  - f_equal. rewrite <- (update_absent o k f Hk) at 1. clear IH.
    induction o as [| [k'' v''] o IHo]; cbn [update map fst snd]; [reflexivity |].
    cbn [map fst] in Hk, Hnd. apply not_elem_of_cons in Hk as [Hne Hk].
    apply NoDup_cons in Hnd as [_ Hnd].
    destruct (String.eqb_spec k'' k) as [-> | _]; [congruence |].
    f_equal. now apply IHo.
  - f_equal. now apply IH.
Qed.

Lemma update_new (o : t V) k v f :
  get o k = None -> update (set o k v) k f = o ++ [(k, f v)].
Proof.
  intros Hg. rewrite ScanFacts.set_absent by exact Hg.
  apply ScanFacts.get_None in Hg.
  induction o as [| [k' v'] o IH]; cbn [update app map fst] in *.
  - now rewrite String.eqb_refl.
  - apply not_elem_of_cons in Hg as [Hne Hg].
    destruct (String.eqb_spec k' k) as [-> | _]; [congruence | now rewrite IH].
Qed.

Lemma get_Some_key (o : t V) k v : get o k = Some v -> k ∈ map fst o.
Proof.
  intros Hg. destruct (decide (k ∈ map fst o)) as [H | H]; [exact H |].
  apply ScanFacts.get_None in H. congruence.
Qed.

End Updates.

Lemma filter_snoc {A} (f : A -> bool) l x :
  List.filter f (l ++ [x]) = List.filter f l ++ (if f x then [x] else []).
Proof. rewrite List.filter_app. reflexivity. Qed.

(** One more visited colour keeps the description. *)
Lemma record_paint_describes cm T nid src c i :
  scan_describes cm T ->
  scan_describes (record_paint nid src cm c i)
    (T ++ [(c, {| nodeId := nid; source := src; index := i |})]).
Proof.
  intros (Hnd & Hkeys & Hall). unfold record_paint. fold (key_of c).
  set (k := key_of c). set (ref := {| nodeId := nid; source := src; index := i |}).
  assert (Hother : forall kv, kv.1 <> k -> entry_of_trace T kv ->
            entry_of_trace (T ++ [(c, ref)]) kv).
  { intros kv Hne (E1 & E2 & E3). unfold entry_of_trace.
    rewrite !filter_snoc. unfold with_key at 2 4. cbn [fst].
    fold k. destruct (String.eqb_spec k kv.1) as [Heq | _]; [congruence |].
    rewrite !app_nil_r. auto. }
  destruct (get cm k) as [e |] eqn:Hg.
  - (* the key is there: the reference is appended to its entry *)
    pose proof (get_Some_key _ _ _ Hg) as Hin.
    rewrite update_unique by exact Hnd.
    split; [| split].
    + rewrite map_map. erewrite map_ext; [exact Hnd |].
      intros [k' v']. cbn [fst snd]. now destruct (String.eqb k' k).
    + intros k'. rewrite map_map.
      erewrite (map_ext _ fst) by (intros [k'' v'']; cbn [fst snd];
                                   now destruct (String.eqb k'' k)).
      rewrite Hkeys. split.
      * intros (cr & Hcr & Hk). exists cr. split; [| exact Hk].
        apply elem_of_app. now left.
      * intros (cr & Hcr & Hk). apply elem_of_app in Hcr as [Hcr | Hcr].
        -- now exists cr.
        -- apply list_elem_of_singleton in Hcr. subst cr. cbn [fst] in Hk.
           apply Hkeys. subst k'. exact Hin.
    + apply Forall_fmap. eapply Forall_impl; [exact Hall |].
      intros [k' e'] He. cbn [fst snd compose].
      destruct (String.eqb_spec k' k) as [-> | Hne]; [| now apply Hother].
      destruct He as (E1 & E2 & E3). cbn [fst snd] in *. unfold entry_of_trace.
      cbn [fst snd push_ref hex nodes color]. rewrite !filter_snoc.
      unfold with_key at 2 4. cbn [fst]. fold k. rewrite String.eqb_refl.
      rewrite !map_app. cbn [map fst snd]. split; [exact E1 |]. split.
      * now rewrite E2.
      * destruct (map fst (List.filter (with_key k) T)); [discriminate | exact E3].
  - (* a new key: a new entry, with the reference alone *)
    rewrite update_new by exact Hg. apply ScanFacts.get_None in Hg.
    assert (Hnone : List.filter (with_key k) T = []).
    { destruct (List.filter (with_key k) T) as [| cr l] eqn:Hf; [reflexivity |].
      exfalso. apply Hg, Hkeys. exists cr.
      assert (Hcr : In cr (List.filter (with_key k) T)) by (rewrite Hf; now left).
      apply filter_In in Hcr as [Hcr Hk]. split; [now apply list_elem_of_In |].
      now apply String.eqb_eq in Hk. }
    split; [| split].
    + rewrite map_app. cbn [map fst]. apply NoDup_app. split; [exact Hnd |].
      split; [| apply NoDup_singleton].
      intros k' Hk' Hk''. apply list_elem_of_singleton in Hk''. now subst k'.
    + intros k'. rewrite map_app, elem_of_app, Hkeys. cbn [map fst].
      rewrite list_elem_of_singleton. split.
      * intros [(cr & Hcr & Hk) | ->].
        -- exists cr. split; [apply elem_of_app; now left | exact Hk].
        -- exists (c, ref). split; [| reflexivity].
           apply elem_of_app. right. now apply list_elem_of_singleton.
      * intros (cr & Hcr & Hk). apply elem_of_app in Hcr as [Hcr | Hcr].
        -- left. now exists cr.
        -- right. apply list_elem_of_singleton in Hcr. now subst cr.
    + apply Forall_app. split.
      * rewrite Forall_forall in Hall. apply Forall_forall. intros kv Hkv.
        apply Hother; [| now apply Hall].
        intros Heq. apply Hg. rewrite <- Heq. now apply list_elem_of_fmap_2.
      * constructor; [| constructor]. unfold entry_of_trace.
        cbn [fst snd push_ref hex nodes color]. rewrite !filter_snoc, Hnone.
        unfold with_key. cbn [fst]. fold k. rewrite String.eqb_refl.
        repeat split.
Qed.

Lemma ref_count_app cm1 cm2 : ref_count (cm1 ++ cm2) = (ref_count cm1 + ref_count cm2)%nat.
Proof.
  unfold ref_count. now rewrite map_app, list_sum_app.
Qed.

Lemma ref_count_update cm k e ref :
  get cm k = Some e -> ref_count (update cm k (push_ref ref)) = S (ref_count cm).
Proof.
  induction cm as [| [k' e'] cm IH]; cbn [get update]; [discriminate |].
  destruct (String.eqb k' k).
  - intros _. unfold ref_count, list_sum. cbn [map snd push_ref nodes foldr].
    rewrite length_app. cbn [length]. lia.
  - intros H. specialize (IH H). unfold ref_count, list_sum in *.
    cbn [map snd foldr]. lia.
Qed.

(** Every visited colour adds one reference. *)
Lemma record_paint_count cm nid src c i :
  ref_count (record_paint nid src cm c i) = S (ref_count cm).
Proof.
  unfold record_paint. destruct (get cm _) as [e |] eqn:Hg.
  - eapply ref_count_update, Hg.
  - rewrite update_new by exact Hg. rewrite ref_count_app. unfold ref_count. cbn. lia.
Qed.

Lemma length_trace_from nid src i l : length (trace_from nid src i l) = length l.
Proof. revert i. induction l as [| c l IH]; intros i; cbn; [reflexivity | now rewrite IH]. Qed.

Lemma length_scan_trace ns :
  length (scan_trace ns) = list_sum (map kept_paints ns).
Proof.
  unfold scan_trace. induction ns as [| n ns IH]; cbn [map concat]; [reflexivity |].
  rewrite length_app, IH. unfold node_trace, slot_trace, kept_paints at 2.
  rewrite length_app, !length_trace_from. reflexivity.
Qed.

End ScanMore.

(** X10.  What [scanColors] builds: the keys are distinct and are the keys
    of the colours [extractPaints] returned; every entry is stored under
    its own key, holds the references of the colours of that key in scan
    order, and has the first of those colours as its colour.  The index of
    a reference counts the solid, visible paints before it in its list. *)
Theorem scanColors_describes_scan (ns : list Node) :
  scan_describes (scanColors ns) (scan_trace ns).
Proof.
  apply (ScanMore.scan_trace_ind scan_describes).
  - split; [constructor |]. split; [| constructor].
    intros k. split.
    + intros H. apply not_elem_of_nil in H. contradiction.
    + intros (cr & H & _). apply not_elem_of_nil in H. contradiction.
  - intros. now apply ScanMore.record_paint_describes.
Qed.

(** X11.  The total counts of the groups of a scan add up to the number of
    solid, visible paints of the scanned nodes, whatever the threshold. *)
Theorem scan_counts_every_kept_paint (ns : list Node) (threshold : Q) :
  list_sum (map totalCount (groupSimilarColors (scanColors ns) threshold)) =
  list_sum (map kept_paints ns).
Proof.
  rewrite <- ScanMore.length_scan_trace.
  assert (Hc : ref_count (scanColors ns) = length (scan_trace ns)).
  { apply (ScanMore.scan_trace_ind (fun cm T => ref_count cm = length T)).
    - reflexivity.
    - intros cm T nid src c i H. rewrite ScanMore.record_paint_count, length_app, H.
      cbn. lia. }
  rewrite <- Hc. unfold ref_count.
  pose proof (GroupMore.grouped_members (scanColors ns) threshold
                (ScanFacts.scanColors_keyed ns)) as Hp.
  assert (Hs : forall gs : list Group,
            list_sum (map totalCount gs) =
            list_sum (map (fun m => length (nodes m)) (concat (map members gs)))).
  { induction gs as [| gr gs IH]; cbn [map concat]; [reflexivity |].
    rewrite map_app, list_sum_app. cbn [list_sum foldr].
    rewrite <- IH, <- GroupMore.totalCount_sum. reflexivity. }
  rewrite Hs, Hp, map_map. reflexivity.
Qed.

(** ** More on merging *)

Module MergeMore.

Lemma recolor_twice t p : recolor t (recolor t p) = recolor t p.
Proof. now destruct p. Qed.

Lemma recolored_trans t p q s : recolored t p q -> recolored t q s -> recolored t p s.
Proof.
  intros [-> | ->] [-> | ->]; [now left | now right | now right |].
  right. apply recolor_twice.
Qed.

Lemma paints_recolored_refl t (l : list Paint) : Forall2 (recolored t) l l.
Proof. apply Forall_Forall2_diag, Forall_forall. intros p _. now left. Qed.

Lemma slot_recolored_refl t s : slot_recolored t s s.
Proof. destruct s; cbn; try reflexivity. apply paints_recolored_refl. Qed.

Lemma slot_recolored_trans t s1 s2 s3 :
  slot_recolored t s1 s2 -> slot_recolored t s2 s3 -> slot_recolored t s1 s3.
Proof.
  destruct s1, s2, s3; cbn; intros H1 H2; try discriminate; try reflexivity.
  eapply Forall2_trans; [| exact H1 | exact H2]. apply recolored_trans.
Qed.

Lemma node_recolored_refl t n : node_recolored t n n.
Proof. repeat split; apply slot_recolored_refl. Qed.

Lemma node_recolored_trans t n1 n2 n3 :
  node_recolored t n1 n2 -> node_recolored t n2 n3 -> node_recolored t n1 n3.
Proof.
  intros (I1 & W1 & F1 & S1) (I2 & W2 & F2 & S2).
  repeat split; try congruence; eapply slot_recolored_trans; eassumption.
Qed.

Lemma page_recolored_refl t (l : list Node) : Forall2 (node_recolored t) l l.
Proof. apply Forall_Forall2_diag, Forall_forall. intros n _. apply node_recolored_refl. Qed.

Lemma page_recolored_trans t (l1 l2 l3 : list Node) :
  Forall2 (node_recolored t) l1 l2 -> Forall2 (node_recolored t) l2 l3 ->
  Forall2 (node_recolored t) l1 l3.
Proof. apply Forall2_trans, node_recolored_trans. Qed.

Lemma insert_related {A} (R : A -> A -> Prop) (l : list A) i x y :
  (forall z, R z z) -> l !! i = Some x -> R x y -> Forall2 R l (<[i := y]> l).
Proof.
  intros Hrefl Hi Hxy. rewrite <- (list_insert_id l i x Hi) at 1.
  apply Forall2_insert; [| exact Hxy].
  apply Forall_Forall2_diag, Forall_forall. intros z _. apply Hrefl.
Qed.

(** One rewrite recolours one paint of one node. *)
Lemma rewritten_recolors t σ ref :
  Forall2 (node_recolored t) (page σ) (page (rewritten t σ ref)).
Proof.
  unfold rewritten.
  destruct (find_node σ (nodeId ref)) as [[ix n] |] eqn:Hf; [| apply page_recolored_refl].
  destruct (get_slot (source ref) n) as [| | l] eqn:Hs; try apply page_recolored_refl.
  destruct (l !! index ref) as [p |] eqn:Hp; [| apply page_recolored_refl].
  cbn [with_page page]. apply list_find_Some in Hf as (Hix & _ & _).
  apply (insert_related _ _ _ n); [apply node_recolored_refl | exact Hix |].
  assert (Hl : Forall2 (recolored t) l (<[index ref := recolor t p]> l)).
  { apply (insert_related _ _ _ p); [now left | exact Hp | now right]. }
  unfold node_recolored.
  destruct (source ref); cbn [set_slot get_slot id writable fills strokes] in *;
    rewrite Hs; repeat split; first [exact Hl | apply slot_recolored_refl].
Qed.

(** The whole batch only recolours. *)
Lemma run_batch_recolors t refs σ :
  Forall2 (node_recolored t) (page σ) (page (run_batch t refs σ).2).
Proof.
  revert σ. induction refs as [| ref refs IH]; intros σ; cbn [run_batch];
    [apply page_recolored_refl |].
  specialize (IH (if can_rewrite σ ref then rewritten t σ ref else σ)).
  destruct (run_batch t refs _) as [oks σ']. cbn [snd] in *.
  destruct (can_rewrite σ ref); [| exact IH].
  eapply page_recolored_trans; [apply rewritten_recolors | exact IH].
Qed.

(** Looking a node up by identifier finds the same position after a
    recolouring. *)
Lemma find_node_recolored t σ σ' nid ix n :
  Forall2 (node_recolored t) (page σ) (page σ') ->
  find_node σ nid = Some (ix, n) ->
  exists n', find_node σ' nid = Some (ix, n') /\ node_recolored t n n'.
Proof.
  unfold find_node. intros HF Hf. apply list_find_Some in Hf as (Hix & Hid & Hmin).
  destruct (Forall2_lookup_l _ _ _ _ _ HF Hix) as (n' & Hix' & Hn).
  exists n'. split; [| exact Hn]. apply list_find_Some. split; [exact Hix' |].
  split; [destruct Hn as (E & _); congruence |].
  intros j y Hj Hlt Hy.
  destruct (Forall2_lookup_r _ _ _ _ _ HF Hj) as (x & Hx & Hxy).
  apply (Hmin j x Hx Hlt). destruct Hxy as (E & _). congruence.
Qed.

Lemma get_slot_recolored t src n n' :
  node_recolored t n n' -> slot_recolored t (get_slot src n) (get_slot src n').
Proof. intros (_ & _ & Hf & Hs). now destruct src. Qed.

(** A slot that can be rewritten can still be rewritten after other slots
    were recoloured. *)
Lemma can_rewrite_recolored t σ σ' ref :
  Forall2 (node_recolored t) (page σ) (page σ') ->
  can_rewrite σ ref = true -> can_rewrite σ' ref = true.
Proof.
  intros HF. unfold can_rewrite.
  destruct (find_node σ (nodeId ref)) as [[ix n] |] eqn:Hf; [| discriminate].
  destruct (find_node_recolored _ _ _ _ _ _ HF Hf) as (n' & -> & Hn).
  pose proof (get_slot_recolored t (source ref) n n' Hn) as Hs.
  destruct Hn as (_ & Ew & _).
  destruct (get_slot (source ref) n) as [| | l]; try discriminate.
  destruct (get_slot (source ref) n') as [| | l']; try discriminate Hs.
  cbn in Hs. destruct (l !! index ref) as [[c props | ? ?] |] eqn:Hl; try discriminate.
  destruct (Forall2_lookup_l _ _ _ _ _ Hs Hl) as (p' & -> & [-> | ->]);
    cbn [recolor]; congruence.
Qed.

Lemma holds_target_recolored t σ σ' ref :
  Forall2 (node_recolored t) (page σ) (page σ') ->
  holds_target t σ ref -> holds_target t σ' ref.
Proof.
  intros HF (ix & n & l & props & Hf & Hs & Hl).
  destruct (find_node_recolored _ _ _ _ _ _ HF Hf) as (n' & Hf' & Hn).
  pose proof (get_slot_recolored t (source ref) n n' Hn) as Hsl.
  rewrite Hs in Hsl.
  destruct (get_slot (source ref) n') as [| | l'] eqn:Hs'; try discriminate Hsl.
  cbn in Hsl. destruct (Forall2_lookup_l _ _ _ _ _ Hsl Hl) as (p' & Hl' & Hp).
  exists ix, n', l', props. repeat split; try assumption.
  destruct Hp as [-> | ->]; exact Hl'.
Qed.

Lemma lookup_insert_here {A} (l : list A) i x y :
  l !! i = Some x -> <[i := y]> l !! i = Some y.
Proof.
  intros Hi. rewrite list_lookup_insert, decide_True; [reflexivity |].
  split; [reflexivity | eapply lookup_lt_Some, Hi].
Qed.

(** After a rewrite the slot of the reference holds the target colour. *)
Lemma rewritten_holds t σ ref :
  can_rewrite σ ref = true -> holds_target t (rewritten t σ ref) ref.
Proof.
  unfold can_rewrite, rewritten, holds_target.
  destruct (find_node σ (nodeId ref)) as [[ix n] |] eqn:Hf; [| discriminate].
  destruct (get_slot (source ref) n) as [| | l] eqn:Hs; try discriminate.
  destruct (l !! index ref) as [[c props | ? ?] |] eqn:Hl; try discriminate.
  intros _. cbn [recolor].
  exists ix, (set_slot (source ref) (<[index ref := SolidPaint t props]> l) n),
    (<[index ref := SolidPaint t props]> l), props.
  split; [| split].
  - unfold find_node in *. cbn [with_page page].
    apply list_find_Some in Hf as (Hix & Hid & Hmin).
    apply list_find_Some. split; [| split].
    + eapply lookup_insert_here, Hix.
    + destruct (source ref); exact Hid.
    + intros j y Hj Hlt. rewrite list_lookup_insert_ne in Hj by lia. now apply (Hmin j y).
  - destruct (source ref); reflexivity.
  - eapply lookup_insert_here, Hl.
Qed.

(** When every reference can be rewritten at the start, every one is
    rewritten, and the slots keep the target colour to the end. *)
Lemma run_batch_complete t refs σ :
  Forall (fun ref => can_rewrite σ ref = true) refs ->
  successes (run_batch t refs σ).1 = length refs /\
  Forall (holds_target t (run_batch t refs σ).2) refs.
Proof.
  revert σ. induction refs as [| ref refs IH]; intros σ H; cbn [run_batch].
  - split; [reflexivity | constructor].
  - apply Forall_cons in H as [Hr Hrest]. rewrite Hr.
    specialize (IH (rewritten t σ ref)).
    pose proof (run_batch_recolors t refs (rewritten t σ ref)) as HF.
    destruct (run_batch t refs (rewritten t σ ref)) as [oks σ']. cbn [fst snd] in *.
    destruct IH as [IH1 IH2].
    { eapply Forall_impl; [exact Hrest |]. intros r'.
      apply (can_rewrite_recolored t), rewritten_recolors. }
    split.
    + unfold successes in *. cbn [List.filter length]. now rewrite IH1.
    + constructor; [| exact IH2].
      eapply holds_target_recolored; [exact HF | apply rewritten_holds, Hr].
Qed.

Lemma length_all_refs gs : length (all_refs gs) = list_sum (map totalCount gs).
Proof.
  unfold all_refs. induction gs as [| gr gs IH]; cbn [map concat]; [reflexivity |].
  rewrite length_app, IH, GroupMore.totalCount_sum, length_concat, map_map.
  reflexivity.
Qed.

Lemma hexToRgb_valid_color s : valid_color (hexToRgb s).
Proof.
  destruct (CodecMore.hexToRgb_as_bytes s) as (kr & kg & kb & Hr & Hg & Hb & ->).
  cbn [r g b valid_color]. repeat split; now apply CodecMore.byte_channel_valid.
Qed.

Lemma recolored_valid t p p' : valid_color t -> recolored t p p' ->
  valid_paint p -> valid_paint p'.
Proof. intros Ht [-> | ->] Hp; [exact Hp |]. destruct p; [exact Ht | exact Hp]. Qed.

Lemma slot_recolored_valid t s s' : valid_color t -> slot_recolored t s s' ->
  valid_slot s -> valid_slot s'.
Proof.
  intros Ht. destruct s, s'; cbn; intros H Hv; try discriminate; try exact I.
  eapply Forall2_Forall_r; [exact H |].
  eapply Forall_impl; [exact Hv |]. intros p Hp p' Hpp'.
  now apply (recolored_valid t p).
Qed.

Lemma page_recolored_valid t (l l' : list Node) : valid_color t ->
  Forall2 (node_recolored t) l l' -> Forall valid_node l -> Forall valid_node l'.
Proof.
  intros Ht HF Hv. eapply Forall2_Forall_r; [exact HF |].
  eapply Forall_impl; [exact Hv |]. intros n [Hf Hs] n' (_ & _ & Rf & Rs).
  split; eapply slot_recolored_valid; eassumption.
Qed.

End MergeMore.

(** X12.  A merge only recolours: the page keeps its nodes, in order, with
    their identifiers and write permissions; every paint list keeps its
    length, a missing or mixed list stays as it is, and every paint is
    either unchanged or the same solid paint with the decoded target
    colour. *)
Theorem merge_only_recolors (σ : Figma) (threshold : option Q) (groupIndices : list Z)
    (targetHex : string) (styleName : option string) :
  Forall2 (node_recolored (hexToRgb targetHex)) (page σ)
    (page (onmessage (merge threshold groupIndices targetHex styleName) σ).2).
Proof.
  cbn [onmessage]. rewrite HandlerFacts.on_merge_result. cbn [snd page].
  apply MergeMore.run_batch_recolors.
Qed.

(** X13.  A merge keeps a valid document valid, whatever the target string:
    every solid paint still carries binary64 channels in [0,1]. *)
Theorem merge_keeps_document_valid (σ : Figma) (threshold : option Q)
    (groupIndices : list Z) (targetHex : string) (styleName : option string) :
  Forall valid_node (page σ) ->
  Forall valid_node
    (page (onmessage (merge threshold groupIndices targetHex styleName) σ).2).
Proof.
  intros Hv. apply (MergeMore.page_recolored_valid (hexToRgb targetHex) (page σ));
    [apply MergeMore.hexToRgb_valid_color | | exact Hv].
  cbn [onmessage]. rewrite HandlerFacts.on_merge_result. cbn [snd page].
  apply MergeMore.run_batch_recolors.
Qed.

(** X14.  If every reference of the selection can be rewritten when
    [applyMerge] starts, none is lost on the way: the count returned is the
    number of references, duplicates included, and afterwards the slot of
    every reference holds a solid paint of the target colour. *)
Theorem applyMerge_complete (groups : list Group) (targetHex : string) (σ : Figma) :
  Forall (fun ref => can_rewrite σ ref = true) (all_refs groups) ->
  (applyMerge groups targetHex σ).1 = inr (length (all_refs groups)) /\
  Forall (holds_target (hexToRgb targetHex) (applyMerge groups targetHex σ).2)
    (all_refs groups).
Proof.
  intros H. rewrite MergeFacts.applyMerge_run. cbn [fst snd].
  destruct (MergeMore.run_batch_complete (hexToRgb targetHex) _ _ H) as [Hn Hh].
  split; [now rewrite Hn | exact Hh].
Qed.

Lemma merge_keeps_document_valid_witness :
  Forall valid_node
    (page (onmessage (merge None [0%Z] "00FF00" None)
             (Samples.document Samples.two_reds)).2).
Proof.
  apply (merge_keeps_document_valid (Samples.document Samples.two_reds)
           None [0%Z] "00FF00" None).
  cbn [Samples.document page Samples.two_reds Samples.node].
  repeat (apply List.Forall_cons;
          [split; cbn [valid_slot fills strokes];
           repeat first [apply List.Forall_nil | apply List.Forall_cons
                        | (repeat split; vm_compute; try reflexivity; discriminate)] |]).
  apply List.Forall_nil.
Defined.

Lemma applyMerge_complete_witness :
  let σ := Samples.document Samples.three_colors in
  let groups := groupSimilarColors (scanColors Samples.three_colors) 20 in
  (applyMerge groups "00FF00" σ).1 = inr (length (all_refs groups)) /\
  Forall (holds_target (hexToRgb "00FF00") (applyMerge groups "00FF00" σ).2)
    (all_refs groups).
Proof.
  apply (applyMerge_complete (groupSimilarColors (scanColors Samples.three_colors) 20)
           "00FF00" (Samples.document Samples.three_colors)).
  let v := eval vm_compute in
    (all_refs (groupSimilarColors (scanColors Samples.three_colors) 20)) in
  change (all_refs (groupSimilarColors (scanColors Samples.three_colors) 20)) with v.
  repeat (apply List.Forall_cons; [vm_compute; reflexivity |]). apply List.Forall_nil.
Defined.

(** ** Clean documents *)

Module CleanFacts.

Lemma length_extractPaints l :
  length (extractPaints (Paints l)) = length (List.filter is_solid_visible l).
Proof.
  induction l as [| p l IH]; [reflexivity |].
  cbn [List.filter]. simpl. destruct p as [c props | ty props].
  - destruct (is_solid_visible (SolidPaint c props)); cbn [length]; now rewrite <- IH.
  - cbn [is_solid_visible]. exact IH.
Qed.

Lemma none_kept l :
  forallb (fun q => negb (is_solid_visible q)) l = true ->
  List.filter is_solid_visible l = [].
Proof.
  induction l as [| p l IH]; cbn [forallb List.filter]; [reflexivity |].
  intros [Hp Hl]%andb_true_iff. apply negb_true_iff in Hp. rewrite Hp. now apply IH.
Qed.

(** Where the kept paints come first, the [i]-th kept paint is the [i]-th
    paint. *)
Lemma kept_first_lookup l i :
  kept_first l = true -> (i < length (extractPaints (Paints l)))%nat ->
  exists c props, l !! i = Some (SolidPaint c props).
Proof.
  rewrite length_extractPaints. revert i.
  induction l as [| p l IH]; intros i Hk Hi; cbn [List.filter kept_first] in *;
    [cbn in Hi; lia |].
  destruct (is_solid_visible p) eqn:Hp.
  - destruct i as [| i].
    + destruct p as [c props | ty props]; [| discriminate]. now exists c, props.
    + cbn [length] in Hi. apply IH; [exact Hk | lia].
  - rewrite (none_kept l Hk) in Hi. cbn in Hi. lia.
Qed.

Lemma trace_from_refs nid src i l cr :
  cr ∈ trace_from nid src i l ->
  nodeId cr.2 = nid /\ source cr.2 = src /\ (index cr.2 < i + length l)%nat.
Proof.
  revert i. induction l as [| c l IH]; intros i; cbn [trace_from length].
  - intros H. now apply not_elem_of_nil in H.
  - intros [-> | H]%elem_of_cons.
    + cbn. repeat split; lia.
    + destruct (IH _ H) as (E1 & E2 & E3). repeat split; try assumption. lia.
Qed.

(** Every reference of a scan names a scanned node and an index among the
    kept paints of the list it names. *)
Lemma scan_trace_refs ns cr :
  cr ∈ scan_trace ns ->
  exists n, n ∈ ns /\ nodeId cr.2 = id n /\
            (index cr.2 < length (extractPaints (get_slot (source cr.2) n)))%nat.
Proof.
  unfold scan_trace. intros H.
  apply list_elem_of_In, in_concat in H as (tr & Htr & Hcr).
  apply in_map_iff in Htr as (n & <- & Hn).
  exists n. split; [now apply list_elem_of_In |].
  unfold node_trace, slot_trace in Hcr.
  apply in_app_or in Hcr as [Hcr | Hcr];
    apply list_elem_of_In, trace_from_refs in Hcr as (E1 & E2 & E3);
    rewrite E2; cbn [get_slot]; split; [exact E1 | lia | exact E1 | lia].
Qed.

Lemma scan_is_described ns : scan_describes (scanColors ns) (scan_trace ns).
Proof.
  apply (ScanMore.scan_trace_ind scan_describes).
  - split; [constructor |]. split; [| constructor].
    intros k. split.
    + intros H. apply not_elem_of_nil in H. contradiction.
    + intros (cr & H & _). apply not_elem_of_nil in H. contradiction.
  - intros. now apply ScanMore.record_paint_describes.
Qed.

(** The references a merge follows are references of the scan. *)
Lemma selection_refs ns th gi ref :
  ref ∈ all_refs (select_groups (groupSimilarColors (scanColors ns) th) gi) ->
  exists cr, cr ∈ scan_trace ns /\ cr.2 = ref.
Proof.
  intros H. unfold all_refs in H.
  apply list_elem_of_In, in_concat in H as (rs & Hrs & Href).
  apply in_map_iff in Hrs as (gr & <- & Hgr).
  apply in_concat in Href as (rs & Hrs & Href).
  apply in_map_iff in Hrs as (m & <- & Hm).
  apply list_elem_of_In, list_elem_of_omap in Hgr as (i & _ & Hi).
  unfold nth_group in Hi. destruct (i <? 0)%Z; [discriminate |].
  apply list_elem_of_lookup_2 in Hi.
  assert (Hst : Forall (star th (JsObject.values (scanColors ns)))
                  (groupSimilarColors (scanColors ns) th)).
  { unfold groupSimilarColors, discovered_groups.
    rewrite (SortFacts.sort_perm totalCount).
    apply GroupMore.build_groups_stars; [auto | constructor]. }
  rewrite Forall_forall in Hst. destruct (Hst gr Hi) as (rest & _ & _ & Hall).
  rewrite Forall_forall in Hall. apply list_elem_of_In in Hm.
  specialize (Hall m Hm). rewrite JsObjectFacts.values_perm in Hall.
  apply list_elem_of_fmap in Hall as (kv & -> & Hkv).
  destruct (scan_is_described ns) as (_ & _ & Hent).
  rewrite Forall_forall in Hent. destruct (Hent kv Hkv) as (_ & En & _).
  rewrite En in Href. apply in_map_iff in Href as (cr & <- & Hcr).
  apply filter_In in Hcr as [Hcr _].
  exists cr. split; [now apply list_elem_of_In | reflexivity].
Qed.

Lemma find_node_unique σ n :
  NoDup (map id (page σ)) -> n ∈ page σ -> exists ix, find_node σ (id n) = Some (ix, n).
Proof.
  intros Hnd Hin. apply list_elem_of_lookup_1 in Hin as [ix Hix]. exists ix.
  apply list_find_Some. split; [exact Hix |]. split; [reflexivity |].
  intros j y Hj Hlt Hy. assert (j = ix); [| lia].
  eapply NoDup_lookup; [exact Hnd | |]; rewrite list_lookup_fmap.
  - rewrite Hj. cbn. now rewrite Hy.
  - now rewrite Hix.
Qed.

(** In a clean document every reference of a selection can be rewritten. *)
Lemma clean_refs_rewritable σ th gi :
  clean_document σ ->
  Forall (fun ref => can_rewrite σ ref = true) (all_refs (merge_selection σ th gi)).
Proof.
  intros [Hnd Hc]. apply Forall_forall. intros ref Href. unfold merge_selection in Href.
  apply selection_refs in Href as (cr & Hcr & <-).
  apply scan_trace_refs in Hcr as (n & Hn & Eid & Hi).
  rewrite Forall_forall in Hc. specialize (Hc n Hn).
  apply andb_true_iff in Hc as [[Hw Hf]%andb_true_iff Hs].
  destruct (find_node_unique σ n Hnd Hn) as [ix Hfind].
  unfold can_rewrite. rewrite Eid, Hfind.
  assert (Hk : slot_kept_first (get_slot (source cr.2) n) = true)
    by (destruct (source cr.2); assumption).
  destruct (get_slot (source cr.2) n) as [| | l]; [cbn in Hi; lia .. |].
  destruct (kept_first_lookup l _ Hk Hi) as (c & props & ->). exact Hw.
Qed.

End CleanFacts.

(** X15.  In a document whose identifiers are unique, whose nodes accept
    writes and whose paint lists have their solid, visible paints first, a
    merge reaches every paint it counted: [changed] is the sum of the
    [totalCount] of the selected groups, and afterwards the slot of every
    reference of the selection holds the target colour. *)
Theorem merge_of_clean_document (σ : Figma) (threshold : option Q)
    (groupIndices : list Z) (targetHex : string) (styleName : option string) :
  clean_document σ ->
  let selected := merge_selection σ threshold groupIndices in
  let σ' := (onmessage (merge threshold groupIndices targetHex styleName) σ).2 in
  posted σ' =
    posted σ ++ [merge_done (list_sum (map totalCount selected))
                   (truthy styleName) styleName] /\
  Forall (holds_target (hexToRgb targetHex) σ') (all_refs selected).
Proof.
  intros Hc selected σ'. unfold σ'. cbn [onmessage].
  rewrite HandlerFacts.on_merge_result. cbn [snd posted]. fold selected.
  destruct (MergeMore.run_batch_complete (hexToRgb targetHex) _ _
              (CleanFacts.clean_refs_rewritable σ threshold groupIndices Hc))
    as [Hn Hh].
  fold selected in Hn, Hh.
  split; [now rewrite Hn, MergeMore.length_all_refs | exact Hh].
Qed.

Lemma merge_of_clean_document_witness :
  let σ := Samples.document Samples.three_colors in
  let selected := merge_selection σ (Some 30%Q) [0%Z; 1%Z] in
  let σ' := (onmessage (merge (Some 30%Q) [0%Z; 1%Z] "#00ff00" (Some "Green")) σ).2 in
  posted σ' =
    posted σ ++ [merge_done (list_sum (map totalCount selected))
                   true (Some "Green")] /\
  Forall (holds_target (hexToRgb "#00ff00") σ') (all_refs selected).
Proof.
  apply (merge_of_clean_document (Samples.document Samples.three_colors)
           (Some 30%Q) [0%Z; 1%Z] "#00ff00" (Some "Green")).
  split.
  - apply (bool_decide_unpack _). vm_compute. exact I.
  - cbn [Samples.document page]. unfold Samples.three_colors, Samples.two_reds.
    cbn [app]. repeat (apply List.Forall_cons; [reflexivity |]). apply List.Forall_nil.
Defined.

(** ** More on the message handler *)

Module HandlerMore.

Local Open Scope host_scope.

(** A scan message posts the payload of the groups and touches nothing
    else. *)
Lemma on_scan_result threshold σ :
  on_scan threshold σ =
  (inr tt,
   {| page := page σ; styles := styles σ;
      posted := posted σ ++
                [scan_result
                   (map group_payload
                      (groupSimilarColors (scanColors (page σ)) (default 20%Q threshold)))
                   (default 20%Q threshold)];
      closed := closed σ |}).
Proof. reflexivity. Qed.

(** With both fields present the handler is the one of a complete
    message. *)
Lemma on_merge_raw_complete cannot_read threshold groupIndices targetHex styleName σ :
  on_merge_raw cannot_read threshold (Some groupIndices) (Some targetHex) styleName σ =
  on_merge threshold groupIndices targetHex styleName σ.
Proof. reflexivity. Qed.

(** Without [groupIndices] the handler reports the failed read of [map]
    and touches nothing. *)
Lemma on_merge_raw_no_indices cannot_read threshold targetHex styleName σ :
  on_merge_raw cannot_read threshold None targetHex styleName σ =
  (inr tt,
   {| page := page σ; styles := styles σ;
      posted := posted σ ++ [error ("Merge failed: " +:+ cannot_read "map")];
      closed := closed σ |}).
Proof. reflexivity. Qed.

(** Without [targetHex] it reports the failed read of [replace], before
    any paint is rewritten. *)
Lemma on_merge_raw_no_target cannot_read threshold groupIndices styleName σ :
  on_merge_raw cannot_read threshold (Some groupIndices) None styleName σ =
  (inr tt,
   {| page := page σ; styles := styles σ;
      posted := posted σ ++ [error ("Merge failed: " +:+ cannot_read "replace")];
      closed := closed σ |}).
Proof. reflexivity. Qed.

Lemma page_recolored_ids t (l l' : list Node) :
  Forall2 (node_recolored t) l l' -> map id l' = map id l.
Proof.
  induction 1 as [| n n' l l' (E & _) _ IH]; cbn [map]; [reflexivity |].
  now rewrite E, IH.
Qed.

End HandlerMore.

(** X16.  A scan message reads only: the page, the styles and the closed
    flag stay as they are, and exactly one message is posted, a
    [scan-result] that carries the threshold of the message, or 20 when
    it has none.  In every group of the payload the representative is the
    first member and [totalCount] is the sum of the members' counts. *)
Theorem scan_is_read_only (σ : Figma) (threshold : option Q) :
  let σ' := (onmessage (scan threshold) σ).2 in
  page σ' = page σ /\ styles σ' = styles σ /\ closed σ' = closed σ /\
  exists groups,
    posted σ' = posted σ ++ [scan_result groups (default 20%Q threshold)] /\
    Forall (fun gp =>
              head (map fst (payload_members gp)) = Some (payload_representative gp) /\
              payload_totalCount gp = list_sum (map snd (payload_members gp))) groups.
Proof.
  cbn [onmessage]. rewrite HandlerMore.on_scan_result. cbn [snd page styles closed posted].
  repeat split. eexists. split; [reflexivity |].
  apply Forall_fmap, Forall_forall. intros gr Hgr.
  assert (Hst : Forall (star (default 20%Q threshold)
                          (JsObject.values (scanColors (page σ))))
                  (groupSimilarColors (scanColors (page σ)) (default 20%Q threshold))).
  { unfold groupSimilarColors, discovered_groups.
    rewrite (SortFacts.sort_perm totalCount).
    apply GroupMore.build_groups_stars; [auto | constructor]. }
  rewrite Forall_forall in Hst. destruct (Hst gr Hgr) as (rest & Hm & _ & _).
  cbn [compose group_payload payload_members payload_representative payload_totalCount].
  rewrite map_map, GroupMore.totalCount_sum, Hm, map_map. cbn [map head fst snd].
  split; reflexivity.
Qed.

(** X17.  For every message whose fields, when present, have their types:
    the handler returns normally; it posts at most one message and adds
    at most one style, after those that were there; it never adds,
    removes or reorders nodes; only a [close] message closes the plugin.
    The message posted is an error report exactly when a [merge] message
    lacks [groupIndices] or [targetHex]; the report is ["Merge failed: "]
    followed by the engine's text, and the page and the styles are then
    untouched.  On a message that carries all its fields the handler is
    [onmessage]. *)
Theorem onmessage_footprint (cannot_read : string -> string) (msg : RawMessage)
    (σ : Figma) :
  let σ' := (onmessage_raw cannot_read msg σ).2 in
  (onmessage_raw cannot_read msg σ).1 = inr tt /\
  map id (page σ') = map id (page σ) /\
  (exists new, styles σ' = styles σ ++ new /\ (length new <= 1)%nat) /\
  (exists out, posted σ' = posted σ ++ out /\ (length out <= 1)%nat /\
               Forall (fun m => is_error m = incomplete msg) out) /\
  closed σ' = match msg with raw_close => true | _ => closed σ end /\
  (incomplete msg = true ->
   page σ' = page σ /\ styles σ' = styles σ /\
   exists p, posted σ' = posted σ ++ [error ("Merge failed: " +:+ cannot_read p)]) /\
  (forall complete, msg = typed complete ->
   onmessage_raw cannot_read msg σ = onmessage complete σ).
Proof.
  destruct msg as [threshold | threshold [groupIndices |] [targetHex |] styleName | | type];
    cbn [onmessage_raw incomplete].
  - rewrite HandlerMore.on_scan_result. cbn [fst snd page styles closed posted].
    repeat split; try discriminate.
    + exists []. split; [now rewrite app_nil_r | cbn; lia].
    + eexists. split; [reflexivity |]. split; [cbn; lia | repeat constructor].
    + intros [] H; try discriminate H. now injection H as <-.
  - rewrite HandlerMore.on_merge_raw_complete, HandlerFacts.on_merge_result.
    cbn [fst snd page styles closed posted].
    repeat split; try discriminate.
    + apply (HandlerMore.page_recolored_ids (hexToRgb targetHex)),
        MergeMore.run_batch_recolors.
    + eexists. split; [reflexivity |]. destruct (truthy styleName); cbn; lia.
    + eexists. split; [reflexivity |]. split; [cbn; lia | repeat constructor].
    + intros [] H; try discriminate H. injection H as <- <- <- <-.
      symmetry. apply HandlerFacts.on_merge_result.
  - rewrite HandlerMore.on_merge_raw_no_target.
    cbn [fst snd page styles closed posted].
    repeat split; try (now eexists).
    + exists []. split; [now rewrite app_nil_r | cbn; lia].
    + eexists. split; [reflexivity |]. split; [cbn; lia | repeat constructor].
    + intros [] H; discriminate H.
  - rewrite HandlerMore.on_merge_raw_no_indices.
    cbn [fst snd page styles closed posted].
    repeat split; try (now eexists).
    + exists []. split; [now rewrite app_nil_r | cbn; lia].
    + eexists. split; [reflexivity |]. split; [cbn; lia | repeat constructor].
    + intros [] H; discriminate H.
  - rewrite HandlerMore.on_merge_raw_no_indices.
    cbn [fst snd page styles closed posted].
    repeat split; try (now eexists).
    + exists []. split; [now rewrite app_nil_r | cbn; lia].
    + eexists. split; [reflexivity |]. split; [cbn; lia | repeat constructor].
    + intros [] H; discriminate H.
  - cbn. repeat split; try discriminate.
    + exists []. split; [now rewrite app_nil_r | cbn; lia].
    + exists []. rewrite app_nil_r. repeat split; [cbn; lia | constructor].
    + intros [] H; try discriminate H. reflexivity.
  - cbn. repeat split; try discriminate.
    + exists []. split; [now rewrite app_nil_r | cbn; lia].
    + exists []. rewrite app_nil_r. repeat split; [cbn; lia | constructor].
    + intros [] H; try discriminate H. reflexivity.
Qed.

(** ** The largest distance *)

Module BoundFacts.
Import F64 F64Facts F64More.

Local Open Scope Q_scope.

Lemma small_pows :
  pow2 (-53) <= 1 # 1000000 /\ pow2 (-1075) <= 1 # 1000000 /\ pow2 (-44) <= 1 # 1000000.
Proof.
  assert (H : pow2 (-20) <= 1 # 1000000) by (vm_compute; discriminate).
  repeat split; (eapply Qle_trans; [apply pow2_le | exact H]); lia.
Qed.

(** Rounding enlarges a magnitude by at most a millionth, relatively and
    absolutely. *)
Lemma fl_abs_le x B :
  Qabs x <= B -> Qabs (fl x) <= B + B * (1 # 1000000) + (1 # 1000000).
Proof.
  intros H. pose proof (fl_error x) as E. destruct small_pows as (P1 & P2 & _).
  pose proof (pow2_pos (-53)) as Q1. pose proof (pow2_pos (-1075)) as Q2.
  pose proof (Qabs_nonneg x) as Hax.
  assert (Hx : - Qabs x <= x <= Qabs x) by (apply Qabs_Qle_condition, Qle_refl).
  apply Qabs_Qle_condition in E. apply Qabs_Qle_condition.
  set (ax := Qabs x) in *. set (p := pow2 (-53)) in *. set (q := pow2 (-1075)) in *.
  set (y := fl x) in *. clearbody ax p q y.
  assert (ax * p <= B * (1 # 1000000)) by nra.
  split; lra.
Qed.

Lemma channel_square_le v w : 0 <= v <= 1 -> 0 <= w <= 1 ->
  0 <= fmul (fmul (fsub v w) 255) (fmul (fsub v w) 255) <= 65026.
Proof.
  intros Hv Hw.
  assert (Hs : Qabs (fsub v w) <= 1 + 1 * (1 # 1000000) + (1 # 1000000)).
  { apply fl_abs_le, Qabs_Qle_condition. split; lra. }
  apply Qabs_Qle_condition in Hs.
  assert (Hd : Qabs (fmul (fsub v w) 255) <=
               (255001 # 1000) + (255001 # 1000) * (1 # 1000000) + (1 # 1000000)).
  { apply fl_abs_le, Qabs_Qle_condition.
    set (s := fsub v w) in *. clearbody s. split; lra. }
  apply Qabs_Qle_condition in Hd.
  set (d := fmul (fsub v w) 255) in *. clearbody d.
  assert (Hdd : 0 <= d * d <= 65025 + (9 # 10)) by (split; nra).
  split; [apply fl_nonneg; lra |].
  assert (Hq : Qabs (fmul d d) <=
               (65025 + (9 # 10)) + (65025 + (9 # 10)) * (1 # 1000000) + (1 # 1000000)).
  { apply fl_abs_le, Qabs_Qle_condition. split; lra. }
  apply Qabs_Qle_condition in Hq. lra.
Qed.

Lemma sum_squares_le x y z :
  0 <= x <= 65026 -> 0 <= y <= 65026 -> 0 <= z <= 65026 ->
  0 <= fadd (fadd x y) z <= 195080.
Proof.
  intros Hx Hy Hz.
  assert (H1 : 0 <= fadd x y) by (apply fl_nonneg; lra).
  assert (H2 : Qabs (fadd x y) <= 130052 + 130052 * (1 # 1000000) + (1 # 1000000)).
  { apply fl_abs_le, Qabs_Qle_condition. split; lra. }
  apply Qabs_Qle_condition in H2.
  set (s := fadd x y) in *. clearbody s.
  split; [apply fl_nonneg; lra |].
  assert (H3 : Qabs (fadd s z) <= 195079 + 195079 * (1 # 1000000) + (1 # 1000000)).
  { apply fl_abs_le, Qabs_Qle_condition. split; lra. }
  apply Qabs_Qle_condition in H3. lra.
Qed.

(** The rounded root of a number below [2^18] exceeds no bound on the
    exact root by more than [2^-44]. *)
Lemma fsqrt_le S B : 0 <= B -> S <= B * B -> S < pow2 18 -> fsqrt S <= B + pow2 (-44).
Proof.
  intros HB HS Hlt. pose proof (pow2_pos (-44)) as P44.
  unfold fsqrt. destruct (Qnum S) eqn:En; try lra.
  assert (Hpos : 0 < S) by (apply Qnum_pos_iff; rewrite En; reflexivity).
  set (es := (ilog2 S / 2 - (prec - 1))%Z).
  set (q := S * pow2 (- (2 * es))).
  set (n := Z.sqrt (Qfloor q)).
  rewrite Qred_correct.
  pose proof (pow2_pos (- (2 * es))) as Ppi. pose proof (pow2_pos es) as Ppe.
  assert (Hq : 0 <= q) by (unfold q; nra).
  assert (Hf : (0 <= Qfloor q)%Z).
  { change 0%Z with (Qfloor 0). apply Qfloor_resp_le, Hq. }
  assert (Hn0 : (0 <= n)%Z) by apply Z.sqrt_nonneg.
  assert (Hnn : inject_Z n * inject_Z n <= q).
  { eapply Qle_trans; [| apply Qfloor_le]. rewrite <- inject_Z_mult, <- Zle_Qle.
    apply (Z.sqrt_spec (Qfloor q) Hf). }
  assert (Hes : (es <= -44)%Z).
  { destruct (ilog2_spec S Hpos) as [Hl _].
    assert (ilog2 S < 18)%Z by (apply pow2_lt_inv; lra).
    pose proof (Z.div_le_mono (ilog2 S) 17 2 ltac:(lia) ltac:(lia)) as Hdiv.
    change (17 / 2)%Z with 8%Z in Hdiv. unfold es, prec. lia. }
  assert (Hpe : pow2 es <= pow2 (-44)) by (apply pow2_le, Hes).
  assert (Hinv : pow2 (- (2 * es)) * (pow2 es * pow2 es) == 1).
  { rewrite <- pow2_add. replace (es + es)%Z with (2 * es)%Z by lia. apply pow2_inv. }
  assert (Hn0' : 0 <= inject_Z n).
  { change 0 with (inject_Z 0). rewrite <- Zle_Qle. exact Hn0. }
  assert (Hu : inject_Z n * pow2 es <= B).
  { unfold q in Hnn.
    set (a := inject_Z n) in *. set (pe := pow2 es) in *.
    set (pi := pow2 (- (2 * es))) in *. clearbody a pe pi.
    assert (a * a * (pe * pe) <= S * pi * (pe * pe)) by nra.
    assert (S * pi * (pe * pe) == S) by (rewrite <- Qmult_assoc, Hinv; ring).
    destruct (Qlt_le_dec B (a * pe)) as [Hgt | Hle]; [| exact Hle].
    exfalso. nra. }
  assert (Hm : forall m : Z, (m <= n + 1)%Z -> inject_Z m * pow2 es <= B + pow2 (-44)).
  { intros m Hle. rewrite Zle_Qle, inject_Z_plus in Hle.
    change (inject_Z 1) with 1 in Hle.
    set (a := inject_Z n) in *. set (pe := pow2 es) in *. set (p44 := pow2 (-44)) in *.
    set (c := inject_Z m) in *. clearbody a pe p44 c. nra. }
  destruct (Qcompare _ _); [destruct (Z.even n) | |]; apply Hm; lia.
Qed.

(** Any two colours with channels in [0,1] are within 442 of each other. *)
Lemma distance_le_442 ca cb : in_gamut ca -> in_gamut cb -> colorDistance ca cb <= 442.
Proof.
  intros (Ra & Ga & Ba) (Rb & Gb & Bb). rewrite CodecFacts.colorDistance_unfold.
  pose proof (channel_square_le _ _ Ra Rb) as Hr.
  pose proof (channel_square_le _ _ Ga Gb) as Hg.
  pose proof (channel_square_le _ _ Ba Bb) as Hb.
  pose proof (sum_squares_le _ _ _ Hr Hg Hb) as Hs.
  set (S := fadd _ _) in *. clearbody S.
  destruct small_pows as (_ & _ & P).
  eapply Qle_trans; [apply (fsqrt_le S (4419 # 10)) |]; try lra.
  change (pow2 18) with 262144. lra.
Qed.

End BoundFacts.

(** X18.  The distance of two colours whose channels lie in [0,1] is at
    most 442 (black and white are about 441.67 apart). *)
Theorem colorDistance_at_most_442 (ca cb : Color) :
  in_gamut ca -> in_gamut cb -> (colorDistance ca cb <= 442)%Q.
Proof. apply BoundFacts.distance_le_442. Qed.

Lemma colorDistance_at_most_442_witness :
  (colorDistance {| r := 0; g := 0; b := 0; a := None |}
                 {| r := 1; g := 1; b := 1; a := None |} <= 442)%Q.
Proof.
  apply (colorDistance_at_most_442 {| r := 0; g := 0; b := 0; a := None |}
                                   {| r := 1; g := 1; b := 1; a := None |});
    repeat split; discriminate.
Defined.

(** ** Thresholds at the two ends *)

Module ClusterFacts.

Lemma filter_all {A} (f : A -> bool) (l : list A) :
  (forall x, In x l -> f x = true) -> List.filter f l = l.
Proof.
  induction l as [| x l IH]; cbn [List.filter]; intros H; [reflexivity |].
  rewrite (H x) by now left. f_equal. apply IH. intros y Hy. apply H. now right.
Qed.

Lemma filter_none {A} (f : A -> bool) (l : list A) :
  (forall x, In x l -> f x = false) -> List.filter f l = [].
Proof.
  induction l as [| x l IH]; cbn [List.filter]; intros H; [reflexivity |].
  rewrite (H x) by now left. apply IH. intros y Hy. apply H. now right.
Qed.

Lemma colorDistance_nonneg ca cb : (0 <= colorDistance ca cb)%Q.
Proof. rewrite CodecFacts.colorDistance_unfold. apply F64More.fsqrt_nonneg. Qed.

(** Entries whose keys are assigned start no cluster. *)
Lemma build_groups_assigned t entries (assigned : gset string) groups :
  (forall x, In x entries -> hex x ∈ assigned) ->
  build_groups t entries assigned groups = groups.
Proof.
  induction entries as [| e rest IH]; intros H; cbn [build_groups]; [reflexivity |].
  rewrite bool_decide_eq_true_2 by (apply H; now left).
  apply IH. intros x Hx. apply H. now right.
Qed.

(** When every entry is within the threshold of the first, the first
    takes them all. *)
Lemma build_groups_near t e rest :
  NoDup (map hex (e :: rest)) ->
  (forall x, In x rest -> Qle_bool (colorDistance (color e) (color x)) t = true) ->
  build_groups t (e :: rest) ∅ [] = [{| representative := e; members := e :: rest |}].
Proof.
  intros Hnd Hnear. cbn [build_groups map] in *.
  apply NoDup_cons in Hnd as [Hne Hnd'].
  rewrite bool_decide_eq_false_2 by apply not_elem_of_empty.
  rewrite GroupFacts.collect_members_spec by exact Hnd'.
  rewrite (filter_all (joins e t ({[hex e]} ∪ ∅)) rest).
  - cbn [app]. apply build_groups_assigned. intros x Hx.
    apply elem_of_union_r, elem_of_list_to_set, list_elem_of_In, in_map, Hx.
  - intros x Hx. unfold joins. rewrite (Hnear x Hx), andb_true_r.
    apply negb_true_iff, bool_decide_eq_false_2.
    intros [Heq%elem_of_singleton | Hin]%elem_of_union;
      [| exact (not_elem_of_empty _ Hin)].
    apply Hne. rewrite <- Heq. apply list_elem_of_In, in_map, Hx.
Qed.

(** When no entry is within the threshold of another, every entry is a
    cluster of its own. *)
Lemma build_groups_apart t entries (assigned : gset string) groups :
  NoDup (map hex entries) ->
  (forall x y, In x entries -> In y entries ->
               Qle_bool (colorDistance (color x) (color y)) t = false) ->
  (forall e, In e entries -> hex e ∉ assigned) ->
  build_groups t entries assigned groups = groups ++ map singleton_group entries.
Proof.
  revert assigned groups.
  induction entries as [| e rest IH]; intros assigned groups Hnd Hfar Hfr;
    cbn [build_groups map].
  - now rewrite app_nil_r.
  - apply NoDup_cons in Hnd as [Hne Hnd'].
    rewrite bool_decide_eq_false_2 by (apply Hfr; now left).
    rewrite GroupFacts.collect_members_spec by exact Hnd'.
    rewrite (filter_none (joins e t ({[hex e]} ∪ assigned)) rest).
    + cbn [map list_to_set app]. rewrite IH; [| exact Hnd' | |].
      * rewrite <- app_assoc. reflexivity.
      * intros x y Hx Hy. apply Hfar; now right.
      * intros x Hx.
        assert (hex x ≠ hex e).
        { intros Heq. apply Hne. rewrite <- Heq. apply list_elem_of_In, in_map, Hx. }
        assert (hex x ∉ assigned) by (apply Hfr; now right).
        intros Hin. apply elem_of_union in Hin as [Hin | Hin];
          [| exact (not_elem_of_empty _ Hin)].
        apply elem_of_union in Hin as [Hs | Ha]; [| contradiction].
        apply elem_of_singleton in Hs. contradiction.
    + intros x Hx. unfold joins. rewrite (Hfar e x); [apply andb_false_r | now left | now right].
Qed.

End ClusterFacts.

(** X19.  With a threshold of 442 or more, the colours of a valid document
    all fall into one cluster, led by the first entry of the map; an empty
    map gives no cluster. *)
Theorem large_threshold_one_cluster (colorMap : JsObject.t ColorEntry) (threshold : Q) :
  color_entry_map colorMap -> (442 <= threshold)%Q ->
  groupSimilarColors colorMap threshold = one_cluster (JsObject.values colorMap).
Proof.
  intros [Hk Hd] Ht.
  pose proof (JsObjectFacts.keyed_values_NoDup colorMap Hk) as Hnd.
  assert (Hg : Forall (fun e => in_gamut (color e)) (JsObject.values colorMap)).
  { rewrite JsObjectFacts.values_perm. apply Forall_fmap.
    eapply Forall_impl; [exact Hd |]. intros kv [_ (Vr & Vg & Vb)].
    repeat split; first [apply Vr | apply Vg | apply Vb]. }
  unfold groupSimilarColors, discovered_groups.
  destruct (JsObject.values colorMap) as [| e rest]; [reflexivity |].
  apply Forall_cons in Hg as [He Hrest]. rewrite Forall_forall in Hrest.
  rewrite ClusterFacts.build_groups_near; [reflexivity | exact Hnd |].
  intros x Hx. apply Qle_bool_iff. eapply Qle_trans; [| exact Ht].
  apply BoundFacts.distance_le_442; [exact He |]. apply Hrest, list_elem_of_In, Hx.
Qed.

Lemma large_threshold_one_cluster_witness :
  groupSimilarColors (scanColors Samples.three_colors) 500 =
  one_cluster (JsObject.values (scanColors Samples.three_colors)).
Proof.
  apply (large_threshold_one_cluster (scanColors Samples.three_colors) 500);
    [| discriminate].
  let v := eval vm_compute in (scanColors Samples.three_colors) in
  change (scanColors Samples.three_colors) with v.
  split; [split |].
  - apply (bool_decide_unpack _). vm_compute. exact I.
  - repeat constructor.
  - repeat (apply List.Forall_cons;
            [split; [vm_compute; reflexivity
                    | repeat split; vm_compute; try reflexivity; discriminate] |]).
    apply List.Forall_nil.
Defined.

(** X20.  With a negative threshold nothing is merged: every entry of a map
    keyed by hex is a cluster of its own, and the result is those
    single-entry clusters sorted by usage. *)
Theorem negative_threshold_merges_nothing (colorMap : JsObject.t ColorEntry)
    (threshold : Q) :
  keyed_by_hex colorMap -> (threshold < 0)%Q ->
  groupSimilarColors colorMap threshold =
  sort by_usage_desc (map singleton_group (JsObject.values colorMap)).
Proof.
  intros Hk Ht. unfold groupSimilarColors, discovered_groups. f_equal.
  rewrite ClusterFacts.build_groups_apart; [reflexivity | | |].
  - apply JsObjectFacts.keyed_values_NoDup, Hk.
  - intros x y _ _. destruct (Qle_bool _ threshold) eqn:Hw; [| reflexivity].
    apply Qle_bool_iff in Hw.
    pose proof (ClusterFacts.colorDistance_nonneg (color x) (color y)). lra.
  - intros e _. apply not_elem_of_empty.
Qed.

Lemma negative_threshold_merges_nothing_witness :
  groupSimilarColors (scanColors Samples.two_reds) (-1) =
  sort by_usage_desc (map singleton_group (JsObject.values (scanColors Samples.two_reds))).
Proof.
  apply (negative_threshold_merges_nothing (scanColors Samples.two_reds) (-1));
    [| reflexivity].
  split.
  - apply (bool_decide_unpack _). vm_compute. exact I.
  - vm_compute. repeat constructor.
Defined.

(** ** Empty inputs *)

Module EmptyFacts.

Lemma select_groups_none allGroups groupIndices :
  Forall (fun i => in_range allGroups i = false) groupIndices ->
  select_groups allGroups groupIndices = [].
Proof.
  induction 1 as [| i l Hi _ IH]; [reflexivity |].
  unfold select_groups in *. cbn [omap list_omap].
  now rewrite (HandlerFacts.nth_group_out_of_range _ _ Hi).
Qed.

Lemma scan_trace_nothing ns :
  Forall (fun n => kept_paints n = 0%nat) ns -> scan_trace ns = [].
Proof.
  intros H. apply length_zero_iff_nil. rewrite ScanMore.length_scan_trace.
  induction H as [| n l Hn _ IH]; [reflexivity |].
  cbn [map]. change (list_sum (kept_paints n :: map kept_paints l))
    with (kept_paints n + list_sum (map kept_paints l))%nat.
  now rewrite Hn, IH.
Qed.

(** Nodes without a solid, visible paint leave the map empty. *)
Lemma scanColors_nothing ns :
  Forall (fun n => kept_paints n = 0%nat) ns -> scanColors ns = [].
Proof.
  intros H. destruct (CleanFacts.scan_is_described ns) as (_ & Hkeys & _).
  rewrite (scan_trace_nothing ns H) in Hkeys.
  destruct (scanColors ns) as [| [k e] cm]; [reflexivity |].
  destruct (proj1 (Hkeys k)) as (cr & Hcr & _); [apply list_elem_of_here |].
  now apply not_elem_of_nil in Hcr.
Qed.

End EmptyFacts.

(** X21.  A merge whose indices are all out of range, or that has none,
    leaves the page as it is and reports [changed] 0; a style is still
    created when a name is supplied. *)
Theorem merge_of_nothing (σ : Figma) (threshold : option Q) (groupIndices : list Z)
    (targetHex : string) (styleName : option string) :
  Forall (fun i =>
            in_range (groupSimilarColors (scanColors (page σ)) (default 20%Q threshold)) i
            = false) groupIndices ->
  let σ' := (onmessage (merge threshold groupIndices targetHex styleName) σ).2 in
  page σ' = page σ /\
  posted σ' = posted σ ++ [merge_done 0 (truthy styleName) styleName] /\
  styles σ' = styles σ ++ (if truthy styleName
                            then [target_style (default "" styleName) targetHex]
                            else []).
Proof.
  intros H. cbn [onmessage]. rewrite HandlerFacts.on_merge_result.
  unfold merge_selection. rewrite (EmptyFacts.select_groups_none _ _ H).
  cbn [snd page posted styles]. repeat split.
Qed.

Lemma merge_of_nothing_witness :
  let σ := Samples.document Samples.two_reds in
  let σ' := (onmessage (merge None [5%Z; (-1)%Z] "00FF00" (Some "Green")) σ).2 in
  page σ' = page σ /\
  posted σ' = posted σ ++ [merge_done 0 true (Some "Green")] /\
  styles σ' = styles σ ++ [target_style "Green" "00FF00"].
Proof.
  apply (merge_of_nothing (Samples.document Samples.two_reds) None [5%Z; (-1)%Z]
           "00FF00" (Some "Green")).
  repeat (apply List.Forall_cons; [vm_compute; reflexivity |]). apply List.Forall_nil.
Defined.

(** X22.  When no scanned node has a solid, visible paint (an empty page
    included), the scan finds no colour and answers with an empty list of
    groups. *)
Theorem scan_of_nothing (σ : Figma) (threshold : option Q) :
  Forall (fun n => kept_paints n = 0%nat) (page σ) ->
  scanColors (page σ) = [] /\
  posted (onmessage (scan threshold) σ).2 =
    posted σ ++ [scan_result [] (default 20%Q threshold)].
Proof.
  intros H. pose proof (EmptyFacts.scanColors_nothing _ H) as E.
  split; [exact E |]. cbn [onmessage]. rewrite HandlerMore.on_scan_result, E.
  reflexivity.
Qed.

Lemma scan_of_nothing_witness :
  let σ := Samples.document
             [Samples.node "5:1" (Paints [OtherPaint IMAGE Samples.plain]) Mixed;
              Samples.node "5:2" Absent (Paints [SolidPaint Samples.red Samples.hidden])] in
  scanColors (page σ) = [] /\
  posted (onmessage (scan None) σ).2 = posted σ ++ [scan_result [] 20%Q].
Proof.
  apply (scan_of_nothing
           (Samples.document
              [Samples.node "5:1" (Paints [OtherPaint IMAGE Samples.plain]) Mixed;
               Samples.node "5:2" Absent
                 (Paints [SolidPaint Samples.red Samples.hidden])]) None).
  repeat (apply List.Forall_cons; [reflexivity |]). apply List.Forall_nil.
Defined.
